(** * I6P: a shallow embedding of the handshake, ratchet, ticket and
    bulk-transfer code, and the properties stated about it.

    Go values are modelled as follows: [[]byte] is [list byte]; [uint64],
    [uint32], [uint16], [int64] and [int] are [Z] with the wrap-around of
    every conversion and arithmetic operation written out; Go maps are
    stdpp [gmap]s; [error] is the inductive [error] below, and a function
    returning [(T, error)] returns [result T]. *)

From Stdlib Require Import ZArith Lia List Bool.
From Stdlib Require Import Strings.Byte Strings.String Strings.Ascii.
From stdpp Require Import base option list sorting gmap strings.

Import ListNotations.

(** ** Bytes and fixed-width integers *)

Abbreviation bytes := (list byte).

#[global] Instance byte_eq_dec : EqDecision byte := Byte.byte_eq_dec.
#[global] Instance byte_countable : Countable byte :=
  inj_countable Byte.to_N Byte.of_N Byte.of_to_N.

(** [byte(v)]: the conversion of an integer to a byte keeps the low 8 bits. *)
Definition byte_of_Z (z : Z) : byte :=
  default x00 (Byte.of_N (Z.to_N (z mod 256))).

Definition Z_of_byte (b : byte) : Z := Z.of_N (Byte.to_N b).

Definition uint16 (z : Z) : Z := z mod 2 ^ 16.
Definition uint32 (z : Z) : Z := z mod 2 ^ 32.
Definition uint64 (z : Z) : Z := z mod 2 ^ 64.

(** [int64(v)] and, on 64-bit platforms, [int(v)] of an unsigned 64-bit
    value: the same bits read in two's complement. *)
Definition int64 (z : Z) : Z :=
  let u := uint64 z in if (u <? 2 ^ 63)%Z then u else (u - 2 ^ 64)%Z.

(** [binary.BigEndian]. *)
Definition PutUint16 (v : Z) : bytes :=
  [byte_of_Z (Z.shiftr v 8); byte_of_Z v].

Definition PutUint32 (v : Z) : bytes :=
  [byte_of_Z (Z.shiftr v 24); byte_of_Z (Z.shiftr v 16);
   byte_of_Z (Z.shiftr v 8); byte_of_Z v].

Definition PutUint64 (v : Z) : bytes :=
  [byte_of_Z (Z.shiftr v 56); byte_of_Z (Z.shiftr v 48);
   byte_of_Z (Z.shiftr v 40); byte_of_Z (Z.shiftr v 32);
   byte_of_Z (Z.shiftr v 24); byte_of_Z (Z.shiftr v 16);
   byte_of_Z (Z.shiftr v 8); byte_of_Z v].

Definition be_decode (bs : bytes) : Z :=
  fold_left (fun acc b => (acc * 256 + Z_of_byte b)%Z) bs 0%Z.

Definition Uint16 (bs : bytes) : Z := be_decode (take 2 bs).
Definition Uint32 (bs : bytes) : Z := be_decode (take 4 bs).
Definition Uint64 (bs : bytes) : Z := be_decode (take 8 bs).

(** Go slicing [b[lo:hi]]. *)
Definition slice (lo hi : nat) (b : bytes) : bytes := take (hi - lo) (drop lo b).

(** ** Errors *)

Inductive error : Set :=
  | ErrHelloPeerIDMismatch
  | ErrHelloBadSignature
  | ErrHelloMissingKey
  | ErrHexInvalidByte (b : byte)
  | ErrHexLength
  | ErrInvalidPeerIDLength
  | ErrInvalidKeySize
  | ErrRandRead
  | ErrCiphertextTooShort
  | ErrDecryptionFailed
  | ErrRatchetExhausted
  | ErrInvalidGeneration
  | ErrRatchetKeySize
  | ErrTicketExpired
  | ErrTicketInvalid
  | ErrTicketNotFound
  | ErrMerkleEmpty
  | ErrMerkleProofFail
  | ErrMerkleIndexRange
  | ErrBatchTooLarge
  | ErrBatchTooShort
  | ErrBatchMagic
  | ErrBatchTruncated
  | ErrEOF
  | ErrUnexpectedEOF
  | PanicIndexOutOfRange.

Inductive result (A : Type) : Type :=
  | Ok (a : A)
  | Err (e : error).

Arguments Ok {A} a.
Arguments Err {A} e.

Definition bind {A B} (r : result A) (k : A -> result B) : result B :=
  match r with
  | Ok a => k a
  | Err e => Err e
  end.

Notation "x <- r ;; k" := (bind r (fun x => k))
  (at level 100, r at next level, right associativity).

(** The errors that the frame codec, the bulk transfer and the secure
    channel declare; [Of e] is an error [e] of the list above that they
    pass on. *)
Inductive error' : Set :=
  | ErrFrameTooLarge
  | ErrInvalidType
  | ErrMessageTooShort
  | ErrCompressionFailed
  | ErrDecompressionFailed
  | ErrChunkHashMismatch
  | ErrIntegrityCheckFailed
  | ErrChannelNotEstablished
  | ErrInvalidPublicKey
  | ErrLowOrderPoint
  | ErrEntropyLimit
  | PanicNilDereference
  | PanicDivideByZero
  | PanicMakeSliceCap
  | Of (e : error).

Inductive result' (A : Type) : Type :=
  | Ok' (a : A)
  | Err' (e : error').

Arguments Ok' {A} a.
Arguments Err' {A} e.

(** ** crypto/sha256

    SHA-256 as FIPS 180-4 defines it, on 32-bit words held in [Z].  The
    round constants are the fractional parts of the cube roots of the first
    64 primes and the initial state those of the square roots of the first
    eight. *)

Module SHA256.
Local Open Scope Z_scope.

Definition add32 (x y : Z) : Z := uint32 (x + y).
Definition rotr (n x : Z) : Z :=
  Z.lor (Z.shiftr x n) (uint32 (Z.shiftl x (32 - n))).
Definition Ch (x y z : Z) : Z :=
  Z.lxor (Z.land x y) (Z.land (Z.lxor x (2 ^ 32 - 1)) z).
Definition Maj (x y z : Z) : Z :=
  Z.lxor (Z.lxor (Z.land x y) (Z.land x z)) (Z.land y z).
Definition Sum0 (x : Z) : Z := Z.lxor (Z.lxor (rotr 2 x) (rotr 13 x)) (rotr 22 x).
Definition Sum1 (x : Z) : Z := Z.lxor (Z.lxor (rotr 6 x) (rotr 11 x)) (rotr 25 x).
Definition sig0 (x : Z) : Z := Z.lxor (Z.lxor (rotr 7 x) (rotr 18 x)) (Z.shiftr x 3).
Definition sig1 (x : Z) : Z := Z.lxor (Z.lxor (rotr 17 x) (rotr 19 x)) (Z.shiftr x 10).

Definition is_prime (p : Z) : bool :=
  forallb (fun d => negb (p mod Z.of_nat d =? 0)) (seq 2 (Z.to_nat p - 2)).

Definition primes : list Z :=
  Eval vm_compute in filter (fun p => is_prime p = true) (map Z.of_nat (seq 2 310)).

(** Integer cube root below [2^36], one bit at a time. *)
Definition icbrt (n : Z) : Z :=
  fold_left (fun r b => let r' := r + 2 ^ Z.of_nat b in
                        if r' * r' * r' <=? n then r' else r)
            (rev (seq 0 36)) 0.

Definition K : list Z :=
  Eval vm_compute in map (fun p => uint32 (icbrt (p * 2 ^ 96))) primes.

Definition H0 : list Z :=
  Eval vm_compute in map (fun p => uint32 (Z.sqrt (p * 2 ^ 64))) (take 8 primes).

Definition state : Type := Z * Z * Z * Z * Z * Z * Z * Z.

Definition init : state :=
  match H0 with
  | [a; b; c; d; e; f; g; h] => (a, b, c, d, e, f, g, h)
  | _ => (0, 0, 0, 0, 0, 0, 0, 0)
  end.

(** One round: [win] holds the message-schedule words [W_t .. W_{t+15}]. *)
Definition round (acc : state * list Z) (k : Z) : state * list Z :=
  let '((a, b, c, d, e, f, g, h), win) := acc in
  let w := nth 0 win 0 in
  let t1 := add32 (add32 (add32 (add32 h (Sum1 e)) (Ch e f g)) k) w in
  let t2 := add32 (Sum0 a) (Maj a b c) in
  let w16 := add32 (add32 (add32 (sig1 (nth 14 win 0)) (nth 9 win 0))
                           (sig0 (nth 1 win 0))) w in
  ((add32 t1 t2, a, b, c, add32 d t1, e, f, g), tl win ++ [w16]).

Definition words (block : bytes) : list Z :=
  map (fun i => Uint32 (drop (4 * i) block)) (seq 0 16).

Definition compress (s : state) (block : bytes) : state :=
  let '(a, b, c, d, e, f, g, h) := s in
  let '((a', b', c', d', e', f', g', h'), _) :=
    fold_left round K (s, words block) in
  (add32 a a', add32 b b', add32 c c', add32 d d',
   add32 e e', add32 f f', add32 g g', add32 h h').

Definition pad (msg : bytes) : bytes :=
  let n := Z.of_nat (length msg) in
  msg ++ [byte_of_Z 128] ++ replicate (Z.to_nat ((55 - n) mod 64)) x00
      ++ PutUint64 (8 * n).

Fixpoint blocks (fuel : nat) (s : state) (data : bytes) : state :=
  match fuel with
  | O => s
  | S fuel' => blocks fuel' (compress s (take 64 data)) (drop 64 data)
  end.

Definition Sum256 (msg : bytes) : bytes :=
  let p := pad msg in
  let '(a, b, c, d, e, f, g, h) := blocks (length p / 64)%nat init p in
  PutUint32 a ++ PutUint32 b ++ PutUint32 c ++ PutUint32 d ++
  PutUint32 e ++ PutUint32 f ++ PutUint32 g ++ PutUint32 h.

End SHA256.

Definition sha256 : bytes -> bytes := SHA256.Sum256.

(** ** encoding/hex *)

Definition hexdigit (n : Z) : byte :=
  if (n <? 10)%Z then byte_of_Z (48 + n) else byte_of_Z (87 + n).

Definition hex_EncodeToString (b : bytes) : bytes :=
  flat_map (fun x => [hexdigit (Z.shiftr (Z_of_byte x) 4);
                      hexdigit (Z.land (Z_of_byte x) 15)]) b.

Definition fromHexChar (c : byte) : option Z :=
  let z := Z_of_byte c in
  if ((48 <=? z) && (z <=? 57))%Z then Some (z - 48)%Z
  else if ((97 <=? z) && (z <=? 102))%Z then Some (z - 87)%Z
  else if ((65 <=? z) && (z <=? 70))%Z then Some (z - 55)%Z
  else None.

Fixpoint hex_DecodeString (s : bytes) : result bytes :=
  match s with
  | [] => Ok []
  | [p] => match fromHexChar p with
           | None => Err (ErrHexInvalidByte p)
           | Some _ => Err ErrHexLength
           end
  | p :: q :: rest =>
      match fromHexChar p, fromHexChar q with
      | None, _ => Err (ErrHexInvalidByte p)
      | _, None => Err (ErrHexInvalidByte q)
      | Some a, Some b =>
          tl <- hex_DecodeString rest;;
          Ok (byte_of_Z (Z.lor (Z.shiftl a 4) b) :: tl)
      end
  end.

Definition bytes_of_string (s : string) : bytes := String.list_byte_of_string s.

Example sha256_empty :
  hex_EncodeToString (sha256 []) =
  bytes_of_string "e3b0c44298fc1c149afbf4c8996fb92427ae41e4649b934ca495991b7852b855".
Proof. vm_compute. reflexivity. Qed.

Example sha256_abc :
  hex_EncodeToString (sha256 (bytes_of_string "abc")) =
  bytes_of_string "ba7816bf8f01cfea414140de5dae2223b00361a396177a9cb410ff61f20015ad".
Proof. vm_compute. reflexivity. Qed.

Example sha256_two_blocks :
  hex_EncodeToString
    (sha256 (bytes_of_string "abcdbcdecdefdefgefghfghighijhijkijkljklmklmnlmnomnopnopq")) =
  bytes_of_string "248d6a61d20638b8e5c026930c3e6039a33ce45964ff2167f6ecedd419db06c1".
Proof. vm_compute. reflexivity. Qed.

(** ** i6p/transfer/merkle.go

    Slices are values here.  The hashes the repository passes to
    [BuildMerkleTree] come from [HashChunk] and have no spare capacity, so
    every [append(left, right...)] copies. *)

Module Merkle.

Record MerkleTree := {
  leaves : list bytes;
  nodes : list bytes;
  root : bytes;
}.

Record Proof := {
  ChunkIndex : Z;
  ChunkHash : bytes;
  Siblings : list bytes;
  IsLeft : list bool;
}.

Definition HashChunk (data : bytes) : bytes := sha256 data.

(** [n := 1; for n < len(chunkHashes) { n *= 2 }] *)
Fixpoint pad_loop (fuel n len : nat) : nat :=
  match fuel with
  | O => n
  | S fuel' => if n <? len then pad_loop fuel' (n * 2) len else n
  end.

Definition padded_size (len : nat) : nat := pad_loop len 1 len.

Definition pad_leaves (chunkHashes : list bytes) (n : nat) : list bytes :=
  map (fun i => match chunkHashes !! i with
                | Some h => h
                | None => sha256 []
                end) (seq 0 n).

(** [for i, leaf := range leaves { nodes[n-1+i] = leaf }] *)
Definition place_leaves (n : nat) (lvs nodes : list bytes) : list bytes :=
  fold_left (fun nd i => <[n - 1 + i := lvs !!! i]> nd) (seq 0 (length lvs)) nodes.

(** [for i := n - 2; i >= 0; i-- { nodes[i] = sha256(nodes[2i+1] ++ nodes[2i+2]) }] *)
Definition hash_node (nd : list bytes) (i : nat) : list bytes :=
  <[i := sha256 ((nd !!! (2 * i + 1)) ++ (nd !!! (2 * i + 2)))]> nd.

Definition hash_internal (n : nat) (nodes : list bytes) : list bytes :=
  fold_left hash_node (rev (seq 0 (n - 1))) nodes.

Definition BuildMerkleTree (chunkHashes : list bytes) : result MerkleTree :=
  if decide (length chunkHashes = 0) then Err ErrMerkleEmpty
  else
    let n := padded_size (length chunkHashes) in
    let lvs := pad_leaves chunkHashes n in
    let nd := hash_internal n (place_leaves n lvs (replicate (2 * n - 1) [])) in
    Ok {| leaves := lvs; nodes := nd; root := nd !!! 0 |}.

(** [for idx > 0 { ... idx = parentIdx }]: the index at least halves in
    every turn, so [idx] turns are enough. *)
Fixpoint proof_loop (fuel : nat) (nd : list bytes) (idx : nat)
    (siblings : list bytes) (isLeft : list bool) : list bytes * list bool :=
  match fuel with
  | O => (siblings, isLeft)
  | S fuel' =>
      if 0 <? idx then
        let parentIdx := (idx - 1) / 2 in
        let siblingIdx := if idx mod 2 =? 1 then idx + 1 else idx - 1 in
        proof_loop fuel' nd parentIdx
                   (siblings ++ [nd !!! siblingIdx]) (isLeft ++ [idx mod 2 =? 0])
      else (siblings, isLeft)
  end.

Definition GenerateProof (m : MerkleTree) (chunkIndex : Z) : result Proof :=
  let n := length (leaves m) in
  if ((chunkIndex <? 0) || (chunkIndex >=? Z.of_nat n))%Z then Err ErrMerkleIndexRange
  else
    let idx := n - 1 + Z.to_nat chunkIndex in
    let '(siblings, isLeft) := proof_loop idx (nodes m) idx [] [] in
    Ok {| ChunkIndex := chunkIndex;
          ChunkHash := leaves m !!! Z.to_nat chunkIndex;
          Siblings := siblings;
          IsLeft := isLeft |}.

Definition bytesEqual (a b : bytes) : bool :=
  if decide (length a = length b)
  then forallb (fun xy => Byte.eqb (fst xy) (snd xy)) (zip a b)
  else false.

(** The loop of [VerifyProof]; [proof.IsLeft[i]] panics when [IsLeft] is
    shorter than [Siblings]. *)
Fixpoint verify_loop (current : bytes) (i : nat) (siblings : list bytes)
    (isLeft : list bool) : result bytes :=
  match siblings with
  | [] => Ok current
  | sibling :: rest =>
      match (isLeft !! i : option bool) with
      | None => Err PanicIndexOutOfRange
      | Some l =>
          let combined := if l then sibling ++ current else current ++ sibling in
          verify_loop (sha256 combined) (S i) rest isLeft
      end
  end.

Definition VerifyProof (proof : Proof) (expectedRoot : bytes) : result unit :=
  current <- verify_loop (ChunkHash proof) 0 (Siblings proof) (IsLeft proof);;
  if bytesEqual current expectedRoot then Ok tt else Err ErrMerkleProofFail.

End Merkle.

(** ** i6p/transfer/chunker.go *)

Module Chunker.
Local Open Scope Z_scope.

Definition DefaultChunkSize : Z := 256 * 1024.

Record Chunker := { chunkSize : Z }.

Definition NewChunker (chunkSize : Z) : Chunker :=
  {| chunkSize := if chunkSize <=? 0 then DefaultChunkSize else chunkSize |}.

Record Chunk := {
  Index : Z;
  Data : bytes;
  Hash : bytes;
}.

(** [for i := 0; i < len(data); i += c.chunkSize]: [int] additions wrap
    at 64 bits. *)
Fixpoint split_loop (fuel : nat) (c : Chunker) (data : bytes) (i : Z)
    (chunks : list Chunk) : list Chunk :=
  match fuel with
  | O => chunks
  | S fuel' =>
      if i <? Z.of_nat (length data) then
        let end_ := int64 (i + chunkSize c) in
        let end_ := if end_ >? Z.of_nat (length data)
                    then Z.of_nat (length data) else end_ in
        let chunk := slice (Z.to_nat i) (Z.to_nat end_) data in
        split_loop fuel' c data (int64 (i + chunkSize c))
          (chunks ++ [{| Index := Z.of_nat (length chunks);
                         Data := chunk;
                         Hash := Merkle.HashChunk chunk |}])
      else chunks
  end.

Definition Split (c : Chunker) (data : bytes) : list Chunk :=
  split_loop (length data) c data 0 [].

(** [if sorted[j].Index < sorted[i].Index { swap }] *)
Definition swap_if_less (i : nat) (sorted : list Chunk) (j : nat) : list Chunk :=
  match sorted !! i, sorted !! j with
  | Some ci, Some cj =>
      if Index cj <? Index ci then <[j := ci]> (<[i := cj]> sorted) else sorted
  | _, _ => sorted
  end.

Definition sort_pass (sorted : list Chunk) (i : nat) : list Chunk :=
  fold_left (swap_if_less i) (seq (S i) (length sorted - S i)) sorted.

Definition sort_chunks (chunks : list Chunk) : list Chunk :=
  fold_left sort_pass (seq 0 (length chunks)) chunks.

Definition Reassemble (chunks : list Chunk) : bytes :=
  flat_map Data (sort_chunks chunks).

End Chunker.

(** ** i6p/transfer/batch.go *)

Module Batch.
Local Open Scope Z_scope.

Definition MaxBatchSize : Z := 4 * 1024 * 1024.
Definition BatchMagic : Z := 0x49365042.

Record CompressedChunk := {
  Index : Z;
  Compressed : bool;
  Data : bytes;
  OrigHash : bytes;
}.

Record Batch := { Chunks : list CompressedChunk }.

Definition len {A} (l : list A) : Z := Z.of_nat (length l).

Definition Size (b : Batch) : Z :=
  fold_left (fun size cc => size + (4 + 1 + 2 + len (OrigHash cc) + 4 + len (Data cc)))
            (Chunks b) (4 + 4).

Definition encode_chunk (cc : CompressedChunk) : bytes :=
  PutUint32 (uint32 (Index cc))
  ++ [if Compressed cc then x01 else x00]
  ++ PutUint16 (uint16 (len (OrigHash cc))) ++ OrigHash cc
  ++ PutUint32 (uint32 (len (Data cc))) ++ Data cc.

Definition Encode (b : Batch) : result bytes :=
  let size := Size b in
  if size >? MaxBatchSize then Err ErrBatchTooLarge
  else Ok (PutUint32 BatchMagic ++ PutUint32 (uint32 (len (Chunks b)))
           ++ flat_map encode_chunk (Chunks b)).

Fixpoint decode_loop (count : nat) (data : bytes) (offset : Z)
    (chunks : list CompressedChunk) : result Batch :=
  match count with
  | O => Ok {| Chunks := chunks |}
  | S count' =>
      if offset + 4 + 1 + 2 >? len data then Err ErrBatchTruncated
      else
        let index := Uint32 (drop (Z.to_nat offset) data) in
        let offset := offset + 4 in
        let compressed :=
          bool_decide (data !! Z.to_nat offset = Some x01) in
        let offset := offset + 1 in
        let hashLen := Uint16 (drop (Z.to_nat offset) data) in
        let offset := offset + 2 in
        if offset + hashLen + 4 >? len data then Err ErrBatchTruncated
        else
          let hash := slice (Z.to_nat offset) (Z.to_nat (offset + hashLen)) data in
          let offset := offset + hashLen in
          let dataLen := Uint32 (drop (Z.to_nat offset) data) in
          let offset := offset + 4 in
          if offset + dataLen >? len data then Err ErrBatchTruncated
          else
            let chunkData := slice (Z.to_nat offset) (Z.to_nat (offset + dataLen)) data in
            let offset := offset + dataLen in
            decode_loop count' data offset
              (chunks ++ [{| Index := index; Compressed := compressed;
                             Data := chunkData; OrigHash := hash |}])
  end.

Definition DecodeBatch (data : bytes) : result Batch :=
  if len data <? 8 then Err ErrBatchTooShort
  else
    let magic := Uint32 (slice 0 4 data) in
    if negb (magic =? BatchMagic) then Err ErrBatchMagic
    else
      let count := Uint32 (slice 4 8 data) in
      decode_loop (Z.to_nat count) data 8 [].

(** [io.ReadFull] on a reader that delivers [r] and then reports the end of
    the stream: the bytes read (or the error) and the rest of the stream. *)
Definition ReadFull (r : bytes) (n : nat) : result bytes * bytes :=
  if decide (n = 0)%nat then (Ok [], r)
  else if decide (length r = 0)%nat then (Err ErrEOF, r)
  else if decide (length r < n)%nat then (Err ErrUnexpectedEOF, [])
  else (Ok (take n r), drop n r).

Definition ReadBatch (r : bytes) : result Batch * bytes :=
  match ReadFull r 4 with
  | (Err e, r) => (Err e, r)
  | (Ok lenBuf, r) =>
      let dataLen := Uint32 lenBuf in
      if dataLen >? MaxBatchSize then (Err ErrBatchTooLarge, r)
      else
        match ReadFull r (Z.to_nat dataLen) with
        | (Err e, r) => (Err e, r)
        | (Ok data, r) => (DecodeBatch data, r)
        end
  end.

Definition WriteBatch (w : bytes) (b : Batch) : result unit * bytes :=
  match Encode b with
  | Err e => (Err e, w)
  | Ok data => (Ok tt, w ++ PutUint32 (uint32 (len data)) ++ data)
  end.

End Batch.

(** ** golang.org/x/crypto/chacha20poly1305 and crypto/ed25519

    The two external primitives are interfaces here: the code only calls
    them.  [cipher_Seal key nonce plaintext ad] is [aead.Seal(nil, nonce,
    plaintext, ad)] of the cipher made from [key]. *)

Class Cipher := {
  cipher_Seal : bytes -> bytes -> bytes -> bytes -> bytes;
  cipher_Open : bytes -> bytes -> bytes -> bytes -> option bytes;
}.

(** What the code relies on: the tag adds 16 bytes and opening what was
    sealed, under the same 32-byte key, 12-byte nonce and associated data,
    gives the plaintext back. *)
Class CipherCorrect (C : Cipher) : Prop := {
  cipher_Seal_length : forall key nonce pt ad,
    length (cipher_Seal key nonce pt ad) = (length pt + 16)%nat;
  cipher_Open_Seal : forall key nonce pt ad,
    length key = 32%nat -> length nonce = 12%nat ->
    cipher_Open key nonce (cipher_Seal key nonce pt ad) ad = Some pt;
}.

Class Ed25519 := {
  ed25519_Verify : bytes -> bytes -> bytes -> bool;
}.

(** [ed25519.Sign(privateKey, message)]. *)
Class Ed25519Sign := {
  ed25519_Sign : bytes -> bytes -> bytes;
}.

(** [lz4_Compress level data] is what [Compress] collects from the
    [lz4.Writer] set to [level], [lz4_Decompress] what [Decompress] collects
    from the [lz4.Reader]; [None] is a failure of the library. *)
Class LZ4 := {
  lz4_Compress : Z -> bytes -> option bytes;
  lz4_Decompress : bytes -> option bytes;
}.

(** What the code relies on: decompressing what was compressed, at any
    level, gives the data back. *)
Class LZ4Correct (L : LZ4) : Prop := {
  lz4_Decompress_Compress : forall level data compressed,
    lz4_Compress level data = Some compressed ->
    lz4_Decompress compressed = Some data;
}.

(** golang.org/x/crypto/curve25519: [x25519_ScalarBaseMult priv] is the
    public key of [ScalarBaseMult], [x25519_X25519 scalar point] the shared
    secret of [X25519], [None] when it reports a low-order point. *)
Class X25519 := {
  x25519_ScalarBaseMult : bytes -> bytes;
  x25519_X25519 : bytes -> bytes -> option bytes;
}.

(** ** i6p/crypto/aead.go *)

Module AEAD.
Section aead.
Context {C : Cipher}.

Definition KeySize : nat := 32.
Definition NonceSize : nat := 12.
Definition Overhead : nat := 16.

Record AEAD := {
  key : bytes;
  prefix : bytes;
  seq : Z;
}.

(** [rnd] is what [io.ReadFull(rand.Reader, a.prefix[:])] gave: the four
    bytes read, or [None] when the read failed. *)
Definition NewAEAD (key : bytes) (rnd : option bytes) : result AEAD :=
  if decide (length key = KeySize) then
    match rnd with
    | None => Err ErrRandRead
    | Some prefix => Ok {| key := key; prefix := prefix; seq := 0 |}
    end
  else Err ErrInvalidKeySize.

(** [seq := a.seq.Add(1)] on an [atomic.Uint64]. *)
Definition nextNonce (a : AEAD) : AEAD * bytes :=
  let seq := uint64 (seq a + 1) in
  ({| key := key a; prefix := prefix a; seq := seq |},
   prefix a ++ PutUint64 seq).

Definition Seal (a : AEAD) (plaintext additionalData : bytes) : AEAD * bytes :=
  let '(a, nonce) := nextNonce a in
  let ciphertext := cipher_Seal (key a) nonce plaintext additionalData in
  (a, nonce ++ ciphertext).

Definition Open (a : AEAD) (ciphertext additionalData : bytes) : result bytes :=
  if decide (length ciphertext < NonceSize + Overhead) then Err ErrCiphertextTooShort
  else
    let nonce := take NonceSize ciphertext in
    let ct := drop NonceSize ciphertext in
    match cipher_Open (key a) nonce ct additionalData with
    | None => Err ErrDecryptionFailed
    | Some plaintext => Ok plaintext
    end.

End aead.
End AEAD.

(** ** i6p/crypto/ratchet/ratchet.go *)

Module Ratchet.
Section ratchet.
Context {C : Cipher}.
Local Open Scope Z_scope.

Definition MaxGeneration : Z := 2 ^ 32.

(** Modelled from the spec: package ratchet's own [AEAD] type with
    [NewAEAD], [Seal] and [Open] is not among the sources; section 4.2
    specifies a single AEAD (32-byte key, nonce = 4-byte random prefix then
    the 64-bit counter, output nonce, ciphertext, tag), which package
    crypto implements, so that one stands for it. *)
Definition NewAEAD : bytes -> option bytes -> result AEAD.AEAD := AEAD.NewAEAD.

Record Chain := {
  chainKey : bytes;
  generation : Z;
}.

Record EncryptedMessage := {
  Generation : Z;
  Ciphertext : bytes;
}.

Record Receiver := {
  chains : gmap Z bytes;
  current : bytes;
  currentGen : Z;
  maxSkip : Z;
}.

Definition NewChain (initialKey : bytes) : result Chain :=
  if decide (length initialKey = 32%nat)
  then Ok {| chainKey := initialKey; generation := 0 |}
  else Err ErrRatchetKeySize.

(** [(nextChainKey, messageKey)]. *)
Definition deriveKeysStatic (chainKey : bytes) : bytes * bytes :=
  let messageKey := sha256 (chainKey ++ [x01]) in
  let nextChainKey := sha256 (chainKey ++ [x02]) in
  (nextChainKey, messageKey).

Definition deriveKeys (c : Chain) : bytes * bytes := deriveKeysStatic (chainKey c).

Definition Step (c : Chain) (rnd : option bytes) : Chain * result (AEAD.AEAD * Z) :=
  if generation c >=? MaxGeneration then (c, Err ErrRatchetExhausted)
  else
    let '(nextChain, msgKey) := deriveKeys c in
    let gen := generation c in
    let c := {| chainKey := nextChain; generation := uint64 (generation c + 1) |} in
    match NewAEAD msgKey rnd with
    | Err e => (c, Err e)
    | Ok aead => (c, Ok (aead, gen))
    end.

Definition Seal (c : Chain) (plaintext ad : bytes) (rnd : option bytes)
    : Chain * result EncryptedMessage :=
  match Step c rnd with
  | (c, Err e) => (c, Err e)
  | (c, Ok (aead, gen)) =>
      let ct := snd (AEAD.Seal aead plaintext ad) in
      (c, Ok {| Generation := gen; Ciphertext := ct |})
  end.

Definition NewReceiver (initialKey : bytes) (maxSkip : Z) : result Receiver :=
  if decide (length initialKey = 32%nat)
  then Ok {| chains := ∅; current := initialKey; currentGen := 0; maxSkip := maxSkip |}
  else Err ErrRatchetKeySize.

(** [for i := r.currentGen; i < gen; i++ { r.chains[i] = chainKey; chainKey = next }]:
    [n] turns from [i]. *)
Fixpoint cache_loop (n : nat) (i : Z) (chainKey : bytes) (chains : gmap Z bytes)
    : bytes * gmap Z bytes :=
  match n with
  | O => (chainKey, chains)
  | S n' =>
      let '(nextChain, _) := deriveKeysStatic chainKey in
      cache_loop n' (i + 1) nextChain (<[i := chainKey]> chains)
  end.

Definition Open (r : Receiver) (msg : EncryptedMessage) (ad : bytes)
    (rnd : option bytes) : Receiver * result bytes :=
  let gen := Generation msg in
  if gen =? currentGen r then
    let '(nextChain, msgKey) := deriveKeysStatic (current r) in
    match NewAEAD msgKey rnd with
    | Err e => (r, Err e)
    | Ok aead =>
        match AEAD.Open aead (Ciphertext msg) ad with
        | Err e => (r, Err e)
        | Ok pt =>
            ({| chains := chains r; current := nextChain;
                currentGen := uint64 (currentGen r + 1); maxSkip := maxSkip r |},
             Ok pt)
        end
    end
  else
    match chains r !! gen with
    | Some cachedKey =>
        let '(_, msgKey) := deriveKeysStatic cachedKey in
        match NewAEAD msgKey rnd with
        | Err e => (r, Err e)
        | Ok aead =>
            ({| chains := delete gen (chains r); current := current r;
                currentGen := currentGen r; maxSkip := maxSkip r |},
             AEAD.Open aead (Ciphertext msg) ad)
        end
    | None =>
        if gen >? currentGen r then
          let skip := int64 (gen - currentGen r) in
          if skip >? maxSkip r then (r, Err ErrInvalidGeneration)
          else
            let '(chainKey, chains') :=
              cache_loop (Z.to_nat (gen - currentGen r)) (currentGen r)
                         (current r) (chains r) in
            let '(nextChain, msgKey) := deriveKeysStatic chainKey in
            let r := {| chains := chains'; current := nextChain;
                        currentGen := uint64 (gen + 1); maxSkip := maxSkip r |} in
            match NewAEAD msgKey rnd with
            | Err e => (r, Err e)
            | Ok aead => (r, AEAD.Open aead (Ciphertext msg) ad)
            end
        else (r, Err ErrInvalidGeneration)
    end.

Definition Encode (m : EncryptedMessage) : bytes :=
  PutUint64 (Generation m) ++ Ciphertext m.


Definition DecodeEncryptedMessage (data : bytes) : result' EncryptedMessage :=
  if decide (length data < 8)%nat then Err' ErrMessageTooShort
  else Ok' {| Generation := Uint64 (slice 0 8 data); Ciphertext := drop 8 data |}.

End ratchet.
End Ratchet.

(** ** i6p/identity/peerid.go and i6p/protocol/hello.go *)

Module Identity.

Definition PeerIDFromPublicKey (publicKey : bytes) : bytes := sha256 publicKey.

Definition ParsePeerIDHex (s : string) : result bytes :=
  b <- hex_DecodeString (bytes_of_string s);;
  if decide (length b = 32) then Ok b else Err ErrInvalidPeerIDLength.

Definition String (id : bytes) : string :=
  String.string_of_list_byte (hex_EncodeToString id).


(** i6p/identity/keypair.go *)
Record KeyPair := {
  PublicKey : bytes;
  PrivateKey : bytes;
}.

Definition KeyPair_PeerID (kp : KeyPair) : bytes := PeerIDFromPublicKey (PublicKey kp).

Definition Sign {G : Ed25519Sign} (kp : KeyPair) (message : bytes) : bytes :=
  ed25519_Sign (PrivateKey kp) message.

Definition Verify {S : Ed25519} (publicKey message signature : bytes) : bool :=
  ed25519_Verify publicKey message signature.

End Identity.

Module Hello.
Section hello.
Context {S : Ed25519}.

Record Hello := {
  PeerID : string;
  PublicKey : bytes;
  TimestampSec : Z;
  Nonce : bytes;
  Capabilities : gmap string string;
  Signature : bytes;
}.

Definition PublicKeySize : nat := 32.

Definition strlen (s : string) : Z := Z.of_nat (String.length s).

(** The keys of the map, as [sort.Strings] orders them. *)
Definition sorted_keys (caps : gmap string string) : list string :=
  merge_sort String.le (map fst (map_to_list caps)).

Definition capability_bytes (caps : gmap string string) (k : string) : bytes :=
  let v := default EmptyString (caps !! k) in
  PutUint16 (uint16 (strlen k)) ++ bytes_of_string k
  ++ PutUint16 (uint16 (strlen v)) ++ bytes_of_string v.

Definition SigningBytes (h : Hello) : result bytes :=
  if decide (length (PublicKey h) = PublicKeySize) then
    id <- Identity.ParsePeerIDHex (PeerID h);;
    Ok (id ++ PublicKey h ++ PutUint64 (uint64 (TimestampSec h)) ++ Nonce h
        ++ flat_map (capability_bytes (Capabilities h)) (sorted_keys (Capabilities h)))
  else Err ErrHelloMissingKey.

Definition Verify (h : Hello) : result unit :=
  if decide (length (PublicKey h) = PublicKeySize) then
    let derived := Identity.PeerIDFromPublicKey (PublicKey h) in
    claimed <- Identity.ParsePeerIDHex (PeerID h);;
    if decide (derived = claimed) then
      toVerify <- SigningBytes h;;
      if ed25519_Verify (PublicKey h) toVerify (Signature h) then Ok tt
      else Err ErrHelloBadSignature
    else Err ErrHelloPeerIDMismatch
  else Err ErrHelloMissingKey.


(** [rnd] is what [rand.Read(nonce)] gave for the 32-byte nonce and [now]
    is [time.Now().Unix()]. *)
Definition NewHello (kp : Identity.KeyPair) (capabilities : gmap string string)
    (rnd : option bytes) (now : Z) : result Hello :=
  match rnd with
  | None => Err ErrRandRead
  | Some nonce =>
      Ok {| PeerID := Identity.String (Identity.KeyPair_PeerID kp);
            PublicKey := Identity.PublicKey kp;
            TimestampSec := now;
            Nonce := nonce;
            Capabilities := capabilities;
            Signature := [] |}
  end.

(** [func (h *Hello) Sign]: the HELLO after the call, and the error. *)
Definition Sign {G : Ed25519Sign} (h : Hello) (kp : Identity.KeyPair)
    : Hello * result unit :=
  match SigningBytes h with
  | Err e => (h, Err e)
  | Ok toSign =>
      ({| PeerID := PeerID h; PublicKey := PublicKey h;
          TimestampSec := TimestampSec h; Nonce := Nonce h;
          Capabilities := Capabilities h;
          Signature := Identity.Sign kp toSign |}, Ok tt)
  end.

End hello.
End Hello.

(** ** i6p/session/ticket.go *)

Module Ticket.
Section ticket.
Context {C : Cipher}.
Local Open Scope Z_scope.

Record Ticket := {
  ID : bytes;
  IssuedAt : Z;
  ExpiresAt : Z;
  PeerID : bytes;
  SessionKey : bytes;
}.

Record TicketStore := {
  tickets : gmap bytes Ticket;
  key : bytes;
}.

Definition NewTicketStoreWithKey (key : bytes) : TicketStore :=
  {| tickets := ∅; key := key |}.

(** [rnd] is the outcome of reading the AEAD's nonce prefix. *)
Definition EncodeTicket (ts : TicketStore) (ticket : Ticket) (rnd : option bytes)
    : result bytes :=
  let plain := PeerID ticket ++ PutUint64 (uint64 (IssuedAt ticket))
               ++ PutUint64 (uint64 (ExpiresAt ticket)) ++ SessionKey ticket in
  aead <- AEAD.NewAEAD (key ts) rnd;;
  let ciphertext := snd (AEAD.Seal aead plain (ID ticket)) in
  Ok (ID ticket ++ ciphertext).

(** [now] is [time.Now().Unix()]. *)
Definition DecodeTicket (ts : TicketStore) (data : bytes) (now : Z)
    (rnd : option bytes) : result Ticket :=
  if decide (length data < 16 + 12 + 16 + 80)%nat then Err ErrTicketInvalid
  else
    let ticketID := slice 0 16 data in
    let ciphertext := drop 16 data in
    aead <- AEAD.NewAEAD (key ts) rnd;;
    match AEAD.Open aead ciphertext ticketID with
    | Err _ => Err ErrTicketInvalid
    | Ok plain =>
        if decide (length plain = 80%nat) then
          let ticket := {| ID := ticketID;
                           PeerID := slice 0 32 plain;
                           IssuedAt := int64 (Uint64 (slice 32 40 plain));
                           ExpiresAt := int64 (Uint64 (slice 40 48 plain));
                           SessionKey := slice 48 80 plain |} in
          if now >? ExpiresAt ticket then Err ErrTicketExpired else Ok ticket
        else Err ErrTicketInvalid
    end.


(** [TicketLifetime = 24 * time.Hour], in seconds. *)
Definition TicketLifetime : Z := 24 * 3600.

(** [now] is [time.Now().Unix()] and [rnd] what [rand.Read(ticket.ID[:])]
    gave.  The store keeps the ticket it returns. *)
Definition Issue (ts : TicketStore) (peerID sessionKey : bytes) (now : Z)
    (rnd : option bytes) : TicketStore * result Ticket :=
  match rnd with
  | None => (ts, Err ErrRandRead)
  | Some id =>
      let ticket := {| ID := id; IssuedAt := now; ExpiresAt := now + TicketLifetime;
                       PeerID := peerID; SessionKey := sessionKey |} in
      ({| tickets := <[id := ticket]> (tickets ts); key := key ts |}, Ok ticket)
  end.

Definition Lookup (ts : TicketStore) (ticketID : bytes) (now : Z) : result Ticket :=
  match tickets ts !! ticketID with
  | None => Err ErrTicketNotFound
  | Some ticket =>
      if now >? ExpiresAt ticket then Err ErrTicketExpired else Ok ticket
  end.

Definition Revoke (ts : TicketStore) (ticketID : bytes) : TicketStore :=
  {| tickets := delete ticketID (tickets ts); key := key ts |}.

(** [for id, ticket := range ts.tickets { if now > ticket.ExpiresAt
    { delete(ts.tickets, id); removed++ } }], the entries visited in the
    order [entries]. *)
Definition cleanup_loop (now : Z) (entries : list (bytes * Ticket))
    (ts : TicketStore) (removed : Z) : TicketStore * Z :=
  fold_left (fun '(ts, removed) '(id, ticket) =>
               if now >? ExpiresAt ticket
               then ({| tickets := delete id (tickets ts); key := key ts |}, removed + 1)
               else (ts, removed))
            entries (ts, removed).

Definition Cleanup (ts : TicketStore) (now : Z) : TicketStore * Z :=
  cleanup_loop now (map_to_list (tickets ts)) ts 0.

Definition Count (ts : TicketStore) : Z := Z.of_nat (size (tickets ts)).

End ticket.
End Ticket.

(** ** i6p/protocol/codec.go and types.go *)

Module Frame.
Local Open Scope Z_scope.

Definition MaxFramePayload : Z := 2 ^ 20.

(** [MessageType] is a [uint8]. *)
Record Frame := {
  Type_ : byte;
  Payload : bytes;
}.

(** [w] is what the writer holds; the bytes reach it when the
    [bufio.Writer] is flushed. *)
Definition WriteFrame (w : bytes) (f : Frame) : result' unit * bytes :=
  if decide (Type_ f = x00) then (Err' ErrInvalidType, w)
  else if Z.of_nat (length (Payload f)) >? MaxFramePayload then (Err' ErrFrameTooLarge, w)
  else
    let lenBuf := PutUint32 (uint32 (Z.of_nat (length (Payload f)))) in
    (Ok' tt,
     w ++ [Type_ f] ++ lenBuf
       ++ (if Z.of_nat (length (Payload f)) >? 0 then Payload f else [])).

(** The frame read from a reader that delivers [r] and then the end of
    the stream.  The [bufio.Reader] made for the call may have taken more
    of the stream than the frame; what is left for a later reader is not
    part of the result. *)
Definition ReadFrame (r : bytes) : result' Frame :=
  match r with
  | [] => Err' (Of ErrEOF)
  | t :: r =>
      match Batch.ReadFull r 4 with
      | (Err e, _) => Err' (Of e)
      | (Ok lenBuf, r) =>
          let payloadLen := Uint32 lenBuf in
          if payloadLen >? MaxFramePayload then Err' ErrFrameTooLarge
          else
            match (if payloadLen >? 0 then Batch.ReadFull r (Z.to_nat payloadLen)
                   else (Ok [], r)) with
            | (Err e, _) => Err' (Of e)
            | (Ok payload, _) =>
                if decide (t = x00) then Err' ErrInvalidType
                else Ok' {| Type_ := t; Payload := payload |}
            end
      end
  end.

End Frame.

(** ** i6p/transfer/chunker.go, SplitReader *)

Module ChunkReader.
Import Chunker.
Local Open Scope Z_scope.

(** [n, err := io.ReadFull(r, buf)] on a reader that delivers [r] and then
    the end of the stream: [buf[:n]], the error and the rest of the stream. *)
Definition ReadFull (r : bytes) (size : nat) : bytes * option error * bytes :=
  if decide (size = 0)%nat then ([], None, r)
  else if decide (length r = 0)%nat then ([], Some ErrEOF, r)
  else if decide (length r < size)%nat then (r, Some ErrUnexpectedEOF, [])
  else (take size r, None, drop size r).

(** The loop of SplitReader; [None] when [fuel] turns do not end it. *)
Fixpoint read_loop (fuel : nat) (c : Chunker) (r : bytes) (chunks : list Chunk)
    : option (result (list Chunk)) :=
  match fuel with
  | O => None
  | S fuel' =>
      let '(buf, err, r) := ReadFull r (Z.to_nat (chunkSize c)) in
      let chunks :=
        if (0 <? length buf)%nat
        then chunks ++ [{| Index := Z.of_nat (length chunks); Data := buf;
                           Hash := Merkle.HashChunk buf |}]
        else chunks in
      match err with
      | Some ErrEOF | Some ErrUnexpectedEOF => Some (Ok chunks)
      | Some e => Some (Err e)
      | None => read_loop fuel' c r chunks
      end
  end.

(** Every turn but the last takes [chunkSize] bytes of [r]. *)
Definition SplitReader (c : Chunker) (r : bytes) : option (result (list Chunk)) :=
  read_loop (S (length r)) c r [].

End ChunkReader.

(** ** i6p/transfer/compress.go and bulk.go *)

Module Bulk.
Section bulk.
Context {L : LZ4}.
Import Chunker.
Local Open Scope Z_scope.

Definition Compress (data : bytes) (level : Z) : result' bytes :=
  match lz4_Compress level data with
  | Some compressed => Ok' compressed
  | None => Err' ErrCompressionFailed
  end.

Definition Decompress (data : bytes) : result' bytes :=
  match lz4_Decompress data with
  | Some out => Ok' out
  | None => Err' ErrDecompressionFailed
  end.

Definition CompressChunk (chunk : Chunk) (level : Z) : Batch.CompressedChunk :=
  match Compress (Data chunk) level with
  | Ok' compressed =>
      if (length (Data chunk) <=? length compressed)%nat
      then {| Batch.Index := Index chunk; Batch.Compressed := false;
              Batch.Data := Data chunk; Batch.OrigHash := Hash chunk |}
      else {| Batch.Index := Index chunk; Batch.Compressed := true;
              Batch.Data := compressed; Batch.OrigHash := Hash chunk |}
  | Err' _ =>
      {| Batch.Index := Index chunk; Batch.Compressed := false;
         Batch.Data := Data chunk; Batch.OrigHash := Hash chunk |}
  end.

Definition DecompressChunk (cc : Batch.CompressedChunk) : result' Chunk :=
  match (if Batch.Compressed cc then Decompress (Batch.Data cc)
         else Ok' (Batch.Data cc)) with
  | Err' e => Err' e
  | Ok' data =>
      let hash := Merkle.HashChunk data in
      if Merkle.bytesEqual hash (Batch.OrigHash cc)
      then Ok' {| Index := Batch.Index cc; Data := data; Hash := hash |}
      else Err' ErrChunkHashMismatch
  end.

(** The receiver's map of chunks, the expected count and the two counters
    of its statistics that receiving changes. *)
Record BulkReceiver := {
  chunks : gmap Z Chunk;
  totalChunks : Z;
  ChunksReceived : Z;
  Errors : Z;
}.

Definition NewBulkReceiver : BulkReceiver :=
  {| chunks := ∅; totalChunks := 0; ChunksReceived := 0; Errors := 0 |}.

Definition ReceiveChunk (br : BulkReceiver) (cc : Batch.CompressedChunk)
    : BulkReceiver * result' unit :=
  match DecompressChunk cc with
  | Err' e =>
      ({| chunks := chunks br; totalChunks := totalChunks br;
          ChunksReceived := ChunksReceived br;
          Errors := int64 (Errors br + 1) |}, Err' e)
  | Ok' chunk =>
      ({| chunks := <[Index chunk := chunk]> (chunks br);
          totalChunks := totalChunks br;
          ChunksReceived := int64 (ChunksReceived br + 1);
          Errors := Errors br |}, Ok' tt)
  end.

(** [for _, cc := range batch.Chunks]: the first error ends the loop. *)
Fixpoint receive_loop (br : BulkReceiver) (ccs : list Batch.CompressedChunk)
    : BulkReceiver * result' unit :=
  match ccs with
  | [] => (br, Ok' tt)
  | cc :: ccs' =>
      match ReceiveChunk br cc with
      | (br, Err' e) => (br, Err' e)
      | (br, Ok' _) => receive_loop br ccs'
      end
  end.

Definition ReceiveBatch (br : BulkReceiver) (batch : Batch.Batch)
    : BulkReceiver * result' unit :=
  receive_loop br (Batch.Chunks batch).

Definition SetExpectedChunks (br : BulkReceiver) (n : Z) : BulkReceiver :=
  {| chunks := chunks br; totalChunks := n;
     ChunksReceived := ChunksReceived br; Errors := Errors br |}.

Definition IsComplete (br : BulkReceiver) : bool :=
  if totalChunks br =? 0 then false
  else Z.of_nat (size (chunks br)) =? totalChunks br.

(** Assemble from [chunkSlice], the chunks of the map in the order the
    [range] over the map gave them. *)
Definition assemble (chunkSlice : list Chunk) (expectedRoot : bytes) : result' bytes :=
  let chunkSlice := sort_chunks chunkSlice in
  if (0 <? length expectedRoot)%nat then
    match Merkle.BuildMerkleTree (map Hash chunkSlice) with
    | Err e => Err' (Of e)
    | Ok tree =>
        if Merkle.bytesEqual (Merkle.root tree) expectedRoot
        then Ok' (Reassemble chunkSlice)
        else Err' ErrIntegrityCheckFailed
    end
  else Ok' (Reassemble chunkSlice).

Definition Assemble (br : BulkReceiver) (expectedRoot : bytes) : result' bytes :=
  assemble (map snd (map_to_list (chunks br))) expectedRoot.

End bulk.
End Bulk.

(** ** golang.org/x/crypto/hkdf with SHA-256

    HMAC (RFC 2104) and HKDF (RFC 5869) over the SHA-256 above, checked
    below on two test cases of RFC 5869. *)

Module HKDF.

Definition xor_pad (pad : Z) (key : bytes) : bytes :=
  map (fun b => byte_of_Z (Z.lxor (Z_of_byte b) pad)) key.

(** The key, hashed when longer than a block, is padded with zeros to the
    64 bytes of a block. *)
Definition hmac (key message : bytes) : bytes :=
  let key := if decide (64 < length key) then sha256 key else key in
  let key := key ++ replicate (64 - length key) x00 in
  sha256 (xor_pad 0x5c key ++ sha256 (xor_pad 0x36 key ++ message)).

(** [hkdf.Extract]: a nil salt stands for as many zero bytes as the hash
    has. *)
Definition Extract (secret : bytes) (salt : option bytes) : bytes :=
  hmac (default (replicate 32 x00) salt) secret.

(** The blocks T(counter), T(counter + 1), ... of [hkdf.Expand], [n] of
    them. *)
Fixpoint blocks (n : nat) (prk info prev : bytes) (counter : Z) : bytes :=
  match n with
  | O => []
  | S n' =>
      let t := hmac prk (prev ++ info ++ [byte_of_Z counter]) in
      t ++ blocks n' prk info t (counter + 1)
  end.

(** [io.ReadFull] of [length] bytes from [hkdf.New(sha256.New, secret,
    salt, info)]; the reader gives at most 255 blocks. *)
Definition Read (secret : bytes) (salt : option bytes) (info : bytes) (length : nat)
    : option bytes :=
  if decide (255 * 32 < length) then None
  else Some (take length (blocks ((length + 31) / 32) (Extract secret salt) info [] 1)).

End HKDF.

Definition unhex (s : string) : bytes :=
  match hex_DecodeString (bytes_of_string s) with
  | Ok b => b
  | Err _ => []
  end.

Example hkdf_rfc5869_case1 :
  HKDF.Read (replicate 22 x0b) (Some (unhex "000102030405060708090a0b0c"))
            (unhex "f0f1f2f3f4f5f6f7f8f9") 42
  = Some (unhex "3cb25f25faacd57a90434f64d0362f2a2d2d0a90cf1a5a4c5db02d56ecc4c5bf34007208d5b887185865").
Proof. vm_compute. reflexivity. Qed.

Example hkdf_rfc5869_case3 :
  HKDF.Read (replicate 22 x0b) None [] 42
  = Some (unhex "8da4e775a563c18f715f802a063c5a31b8a11f5c5ee1879ec3454e5f3c738d2d9d201395faa4b61a96c8").
Proof. vm_compute. reflexivity. Qed.

(** ** i6p/crypto/kdf.go and channel.go *)

Module Channel.
Section channel.
Context {C : Cipher} {X : X25519}.

(** [length] is not negative: the code passes 64. *)
Definition DeriveKey (secret : bytes) (salt : option bytes) (info : bytes)
    (length : nat) : result' bytes :=
  match HKDF.Read secret salt info length with
  | Some key => Ok' key
  | None => Err' ErrEntropyLimit
  end.

(** [(initiatorKey, responderKey)]. *)
Definition DeriveSessionKeys (sharedSecret initiatorPub responderPub : bytes)
    : result' (bytes * bytes) :=
  let info := bytes_of_string "i6p-session-keys" ++ initiatorPub ++ responderPub in
  match DeriveKey sharedSecret None info 64 with
  | Err' e => Err' e
  | Ok' keyMaterial => Ok' (slice 0 32 keyMaterial, slice 32 64 keyMaterial)
  end.

Record X25519KeyPair := {
  PublicKey : bytes;
  PrivateKey : bytes;
}.

(** [k[0] &= 248; k[31] &= 127; k[31] |= 64] *)
Definition clamp (k : bytes) : bytes :=
  alter (fun b => byte_of_Z (Z.lor (Z_of_byte b) 64)) 31
    (alter (fun b => byte_of_Z (Z.land (Z_of_byte b) 127)) 31
       (alter (fun b => byte_of_Z (Z.land (Z_of_byte b) 248)) 0 k)).

(** [rnd] is what reading the 32 bytes of the private key from
    [rand.Reader] gave. *)
Definition GenerateX25519 (rnd : option bytes) : result' X25519KeyPair :=
  match rnd with
  | None => Err' (Of ErrRandRead)
  | Some k =>
      let priv := clamp k in
      Ok' {| PublicKey := x25519_ScalarBaseMult priv; PrivateKey := priv |}
  end.

Definition ECDH (privateKey peerPublicKey : bytes) : result' bytes :=
  if decide (peerPublicKey = replicate 32 x00) then Err' ErrInvalidPublicKey
  else
    match x25519_X25519 privateKey peerPublicKey with
    | Some shared => Ok' shared
    | None => Err' ErrLowOrderPoint
    end.

Record SecureChannel := {
  established : bool;
  isInitiator : bool;
  localEph : X25519KeyPair;
  remoteEphPub : bytes;
  sendChain : option Ratchet.Chain;
  recvChain : option Ratchet.Receiver;
}.

Definition NewSecureChannel (initiator : bool) (rnd : option bytes)
    : result' SecureChannel :=
  match GenerateX25519 rnd with
  | Err' e => Err' e
  | Ok' eph =>
      Ok' {| established := false; isInitiator := initiator; localEph := eph;
             remoteEphPub := replicate 32 x00; sendChain := None; recvChain := None |}
  end.

Definition NewSecureChannelInitiator : option bytes -> result' SecureChannel :=
  NewSecureChannel true.

Definition NewSecureChannelResponder : option bytes -> result' SecureChannel :=
  NewSecureChannel false.

Definition LocalEphemeralPublic (sc : SecureChannel) : bytes := PublicKey (localEph sc).

Definition with_chains (sc : SecureChannel) (established : bool)
    (sendChain : option Ratchet.Chain) (recvChain : option Ratchet.Receiver)
    : SecureChannel :=
  {| established := established; isInitiator := isInitiator sc;
     localEph := localEph sc; remoteEphPub := remoteEphPub sc;
     sendChain := sendChain; recvChain := recvChain |}.

Definition Complete (sc : SecureChannel) (peerEphPub : bytes)
    : SecureChannel * result' unit :=
  if established sc then (sc, Ok' tt)
  else
    let sc := {| established := established sc; isInitiator := isInitiator sc;
                 localEph := localEph sc; remoteEphPub := peerEphPub;
                 sendChain := sendChain sc; recvChain := recvChain sc |} in
    match ECDH (PrivateKey (localEph sc)) peerEphPub with
    | Err' e => (sc, Err' e)
    | Ok' shared =>
        let initiatorPub :=
          if isInitiator sc then PublicKey (localEph sc) else peerEphPub in
        let responderPub :=
          if isInitiator sc then peerEphPub else PublicKey (localEph sc) in
        match DeriveSessionKeys shared initiatorPub responderPub with
        | Err' e => (sc, Err' e)
        | Ok' (sendKey, recvKey) =>
            let myKey := if isInitiator sc then sendKey else recvKey in
            let theirKey := if isInitiator sc then recvKey else sendKey in
            match Ratchet.NewChain myKey with
            | Err e => (with_chains sc false None (recvChain sc), Err' (Of e))
            | Ok chain =>
                match Ratchet.NewReceiver theirKey 1000 with
                | Err e => (with_chains sc false (Some chain) None, Err' (Of e))
                | Ok receiver =>
                    (with_chains sc true (Some chain) (Some receiver), Ok' tt)
                end
            end
        end
    end.

Definition IsEstablished (sc : SecureChannel) : bool := established sc.

(** [rnd] is the outcome of reading the nonce prefix of the message's AEAD. *)
Definition Encrypt (sc : SecureChannel) (plaintext ad : bytes) (rnd : option bytes)
    : SecureChannel * result' bytes :=
  if negb (established sc) then (sc, Err' ErrChannelNotEstablished)
  else
    match sendChain sc with
    | None => (sc, Err' PanicNilDereference)
    | Some chain =>
        match Ratchet.Seal chain plaintext ad rnd with
        | (chain, Err e) =>
            (with_chains sc (established sc) (Some chain) (recvChain sc), Err' (Of e))
        | (chain, Ok msg) =>
            (with_chains sc (established sc) (Some chain) (recvChain sc),
             Ok' (Ratchet.Encode msg))
        end
    end.

Definition Decrypt (sc : SecureChannel) (ciphertext ad : bytes) (rnd : option bytes)
    : SecureChannel * result' bytes :=
  if negb (established sc) then (sc, Err' ErrChannelNotEstablished)
  else
    match Ratchet.DecodeEncryptedMessage ciphertext with
    | Err' e => (sc, Err' e)
    | Ok' msg =>
        match recvChain sc with
        | None => (sc, Err' PanicNilDereference)
        | Some receiver =>
            match Ratchet.Open receiver msg ad rnd with
            | (receiver, Err e) =>
                (with_chains sc (established sc) (sendChain sc) (Some receiver),
                 Err' (Of e))
            | (receiver, Ok plaintext) =>
                (with_chains sc (established sc) (sendChain sc) (Some receiver),
                 Ok' plaintext)
            end
        end
    end.

Definition SendGeneration (sc : SecureChannel) : Z :=
  match sendChain sc with
  | None => 0
  | Some chain => Ratchet.generation chain
  end.

End channel.
End Channel.

(** ** i6p/transfer/erasure/codec.go: sizes and Join

    The Reed-Solomon encoder of the codec is a library; ShardSize and Join
    do not call it. *)

Module Erasure.
Local Open Scope Z_scope.

Record Codec := {
  dataShards : Z;
  parityShards : Z;
}.

Definition TotalShards (c : Codec) : Z := int64 (dataShards c + parityShards c).

(** [/] and [%] of Go round towards zero; [int] has 64 bits. *)
Definition ShardSize (c : Codec) (dataSize : Z) : result' Z :=
  if dataShards c =? 0 then Err' PanicDivideByZero
  else
    let shardSize := int64 (Z.quot dataSize (dataShards c)) in
    if negb (Z.rem dataSize (dataShards c) =? 0) then Ok' (int64 (shardSize + 1))
    else Ok' shardSize.

Definition EncodedSize (c : Codec) (dataSize : Z) : result' Z :=
  match ShardSize c dataSize with
  | Ok' shardSize => Ok' (int64 (shardSize * TotalShards c))
  | Err' e => Err' e
  end.

(** [for i := 0; i < c.dataShards && len(data) < outSize; i++], with
    [rest] the shards from [i] on: [shards[i]] panics when there is none. *)
Fixpoint join_loop (c : Codec) (outSize i : Z) (rest : list bytes) (data : bytes)
    : result' bytes :=
  if (i <? dataShards c) && (Z.of_nat (length data) <? outSize) then
    match rest with
    | [] => Err' (Of PanicIndexOutOfRange)
    | shard :: rest' =>
        let remaining := outSize - Z.of_nat (length data) in
        if remaining >=? Z.of_nat (length shard)
        then join_loop c outSize (i + 1) rest' (data ++ shard)
        else join_loop c outSize (i + 1) rest' (data ++ take (Z.to_nat remaining) shard)
    end
  else Ok' data.

(** [make([]byte, 0, outSize)] panics on a negative capacity. *)
Definition Join (c : Codec) (shards : list bytes) (outSize : Z) : result' bytes :=
  if outSize <? 0 then Err' PanicMakeSliceCap
  else join_loop c outSize 0 shards [].

End Erasure.

(** ** Definitions used to state the properties *)

(** The byte strings that VerifyProof hashes, level by level. *)
Fixpoint hashed (current : bytes) (i : nat) (siblings : list bytes)
    (isLeft : list bool) : list bytes :=
  match siblings with
  | [] => []
  | sibling :: rest =>
      match (isLeft !! i : option bool) with
      | None => []
      | Some l =>
          let combined := if l then sibling ++ current else current ++ sibling in
          combined :: hashed (sha256 combined) (S i) rest isLeft
      end
  end.

Definition proof_inputs (p : Merkle.Proof) : list bytes :=
  hashed (Merkle.ChunkHash p) 0 (Merkle.Siblings p) (Merkle.IsLeft p).

(** Verifying [p] and [p'] hashes, at one level, two different byte
    strings to the same digest: the two proofs exhibit a SHA-256 collision. *)
Definition collide (p p' : Merkle.Proof) : Prop :=
  exists (k : nat) (x y : bytes),
    proof_inputs p !! k = Some x /\ proof_inputs p' !! k = Some y /\
    x <> y /\ sha256 x = sha256 y.

(** [bs] with bit [i mod 8] of byte [i / 8] inverted. *)
Definition flip_bit (i : nat) (bs : bytes) : bytes :=
  match bs !! (i / 8) with
  | Some b => <[i / 8 := byte_of_Z (Z.lxor (Z_of_byte b) (2 ^ Z.of_nat (i mod 8)))]> bs
  | None => bs
  end.

Module Props.
Section props.
Context {C : Cipher}.

(** The instance after [n] calls of [nextNonce], and the nonce that call
    number [n + 1] forms. *)
Definition after_seals (a : AEAD.AEAD) (n : N) : AEAD.AEAD :=
  N.iter n (fun a => fst (AEAD.nextNonce a)) a.

Definition nonce_of_seal (a : AEAD.AEAD) (n : N) : bytes :=
  snd (AEAD.nextNonce (after_seals a n)).

(** Every cached generation lies below the current one, and the current
    one is a [uint64]. *)
Definition Receiver_ok (r : Ratchet.Receiver) : Prop :=
  (0 <= Ratchet.currentGen r < 2 ^ 64)%Z /\
  forall g k, Ratchet.chains r !! g = Some k -> (0 <= g < Ratchet.currentGen r)%Z.

(** The chain key [n] steps after [k]. *)
Definition advance (n : nat) (k : bytes) : bytes :=
  Nat.iter n (fun k => fst (Ratchet.deriveKeysStatic k)) k.

(** Sealing a list of (plaintext, associated data) pairs in order, each
    with the outcome of its nonce-prefix read. *)
Fixpoint seal_all (c : Ratchet.Chain) (msgs : list (bytes * bytes))
    (rnds : list (option bytes)) : list (result Ratchet.EncryptedMessage) :=
  match msgs, rnds with
  | (pt, ad) :: msgs', rnd :: rnds' =>
      let '(c', em) := Ratchet.Seal c pt ad rnd in
      em :: seal_all c' msgs' rnds'
  | _, _ => []
  end.

(** Opening a list of (message, associated data) pairs in the order given. *)
Fixpoint open_all (r : Ratchet.Receiver)
    (msgs : list (result Ratchet.EncryptedMessage * bytes))
    (rnds : list (option bytes)) : list (result bytes) :=
  match msgs, rnds with
  | (Ok em, ad) :: msgs', rnd :: rnds' =>
      let '(r', pt) := Ratchet.Open r em ad rnd in
      pt :: open_all r' msgs' rnds'
  | (Err e, _) :: msgs', _ :: rnds' => Err e :: open_all r msgs' rnds'
  | _, _ => []
  end.

(** A HELLO with another signature, or another peer id. *)
Definition with_Signature (h : Hello.Hello) (sig : bytes) : Hello.Hello :=
  {| Hello.PeerID := Hello.PeerID h; Hello.PublicKey := Hello.PublicKey h;
     Hello.TimestampSec := Hello.TimestampSec h; Hello.Nonce := Hello.Nonce h;
     Hello.Capabilities := Hello.Capabilities h; Hello.Signature := sig |}.

Definition with_PeerID (h : Hello.Hello) (id : string) : Hello.Hello :=
  {| Hello.PeerID := id; Hello.PublicKey := Hello.PublicKey h;
     Hello.TimestampSec := Hello.TimestampSec h; Hello.Nonce := Hello.Nonce h;
     Hello.Capabilities := Hello.Capabilities h; Hello.Signature := Hello.Signature h |}.

(** The fixed-size fields of a ticket have their sizes, and its times are
    [int64] values. *)
Definition Ticket_ok (t : Ticket.Ticket) : Prop :=
  length (Ticket.ID t) = 16 /\ length (Ticket.PeerID t) = 32 /\
  length (Ticket.SessionKey t) = 32 /\
  (- 2 ^ 63 <= Ticket.IssuedAt t < 2 ^ 63)%Z /\
  (- 2 ^ 63 <= Ticket.ExpiresAt t < 2 ^ 63)%Z.

(** The sealed messages handed to the receiver in the order [order] (a
    list of positions in the sealing order), each with its associated
    data, and the plaintexts in that order. *)
Definition deliveries (sealed : list (result Ratchet.EncryptedMessage))
    (msgs : list (bytes * bytes)) (order : list nat)
    : list (result Ratchet.EncryptedMessage * bytes) :=
  omap (fun g => match sealed !! g, msgs !! g with
                 | Some em, Some m => Some (em, snd m)
                 | _, _ => None
                 end) order.

Definition plaintexts (msgs : list (bytes * bytes)) (order : list nat) : list bytes :=
  omap (fun g => match msgs !! g with
                 | Some m => Some (fst m)
                 | None => None
                 end) order.

End props.
End Props.

(** A cipher with the contract of [CipherCorrect], to evaluate the code on
    concrete inputs: the ciphertext is the plaintext followed by a 16-byte
    tag, the first half of SHA-256(key || nonce || len(ad) || ad || plaintext). *)
Module Example.

Definition tag (key nonce pt ad : bytes) : bytes :=
  take 16 (sha256 (key ++ nonce ++ PutUint64 (Z.of_nat (length ad)) ++ ad ++ pt)).

Definition seal (key nonce pt ad : bytes) : bytes := pt ++ tag key nonce pt ad.

Definition open (key nonce ct ad : bytes) : option bytes :=
  let pt := take (length ct - 16) ct in
  if decide (16 <= length ct /\ drop (length ct - 16) ct = tag key nonce pt ad)
  then Some pt else None.

Definition cipher : Cipher := {| cipher_Seal := seal; cipher_Open := open |}.

(** A signature check that accepts exactly SHA-256(publicKey || message). *)
Definition signature : Ed25519 :=
  {| ed25519_Verify pk msg sig := bool_decide (sig = sha256 (pk ++ msg)) |}.

End Example.

(** ** Definitions used in the proofs *)

Section merkle_path.
Import Merkle.

(** The loop of [GenerateProof] without its accumulators. *)
Fixpoint path (fuel : nat) (nd : list bytes) (idx : nat) : list bytes * list bool :=
  match fuel with
  | O => ([], [])
  | S fuel' =>
      if 0 <? idx then
        let '(s, l) := path fuel' nd ((idx - 1) / 2) in
        ((nd !!! (if idx mod 2 =? 1 then idx + 1 else idx - 1)) :: s,
         (idx mod 2 =? 0) :: l)
      else ([], [])
  end.

End merkle_path.

Section exchange_sort.
Import Chunker.
Local Open Scope Z_scope.

(** One pass of the inner loop of Reassemble, on the list cut at [i]: the
    element at [i] is compared with every later one in turn and exchanged
    with it when that one has the smaller index. *)
Fixpoint select (x : Chunk) (seen todo : list Chunk) : list Chunk :=
  match todo with
  | [] => x :: seen
  | y :: todo' =>
      if Index y <? Index x then select y (seen ++ [x]) todo'
      else select x (seen ++ [y]) todo'
  end.

Definition index_le (a b : Chunk) : Prop := Index a <= Index b.

End exchange_sort.

Section ticket_layout.
Import Ticket.
Local Open Scope Z_scope.

Definition ticket_plain (t : Ticket) : bytes :=
  PeerID t ++ PutUint64 (uint64 (IssuedAt t))
  ++ PutUint64 (uint64 (ExpiresAt t)) ++ SessionKey t.

Definition ticket_nonce (prefix : bytes) : bytes := prefix ++ PutUint64 (uint64 (0 + 1)).

End ticket_layout.

Section sealed_messages.
Context {C : Cipher}.
Import Ratchet Props.
Local Open Scope Z_scope.

Definition message_key (key : bytes) (g : nat) : bytes :=
  snd (deriveKeysStatic (advance g key)).

Definition seal_nonce (prefix : bytes) : bytes := prefix ++ PutUint64 (uint64 (0 + 1)).

(** What the chain started from [key] seals as message number [g]. *)
Definition sealed_message (key : bytes) (g : nat) (pt ad prefix : bytes)
    : EncryptedMessage :=
  {| Generation := Z.of_nat g;
     Ciphertext := seal_nonce prefix
                   ++ cipher_Seal (message_key key g) (seal_nonce prefix) pt ad |}.

(** The receiver after the messages [delivered] (positions in sealing
    order) were opened: it stands one past the highest of them, and caches
    exactly the chain keys of the positions below that were not delivered. *)
Definition tracks (key : bytes) (delivered : list nat) (r : Receiver) : Prop :=
  maxSkip r = 1000 /\
  exists cg : nat,
    currentGen r = Z.of_nat cg /\
    current r = advance cg key /\
    (forall g, g ∈ delivered -> (g < cg)%nat) /\
    forall z : Z,
      chains r !! z =
      if decide (0 <= z < Z.of_nat cg /\ Z.to_nat z ∉ delivered)
      then Some (advance (Z.to_nat z) key) else None.

End sealed_messages.

(** ** Concrete inputs *)

Section batch_example.
Import Batch.
Local Open Scope Z_scope.

Definition batch_4MiB : Batch :=
  {| Chunks := [ {| Index := 0; Compressed := false;
                    Data := replicate (Z.to_nat 4194253) x00;
                    OrigHash := replicate 32 x00 |} ] |}.

End batch_example.

Definition example_unsigned : Hello.Hello :=
  {| Hello.PeerID := Identity.String (sha256 (replicate 32 x01));
     Hello.PublicKey := replicate 32 x01;
     Hello.TimestampSec := 1700000000; Hello.Nonce := replicate 32 x02;
     Hello.Capabilities := {[ "role"%string := "client"%string ]};
     Hello.Signature := [] |}.

Definition example_signing_bytes : bytes :=
  Eval vm_compute in
    match Hello.SigningBytes example_unsigned with Ok sb => sb | Err _ => [] end.

Definition example_signature : bytes :=
  Eval vm_compute in sha256 (replicate 32 x01 ++ example_signing_bytes).

Definition example_hello : Hello.Hello :=
  Props.with_Signature example_unsigned example_signature.

Definition example_store : Ticket.TicketStore :=
  Ticket.NewTicketStoreWithKey (replicate 32 x07).

Definition example_ticket : Ticket.Ticket :=
  {| Ticket.ID := replicate 16 x01;
     Ticket.IssuedAt := 1700000000; Ticket.ExpiresAt := 1700086400;
     Ticket.PeerID := replicate 32 x03; Ticket.SessionKey := replicate 32 x05 |}.

Definition example_ticket_bytes : bytes :=
  Eval vm_compute in
    match Ticket.EncodeTicket (C := Example.cipher) example_store example_ticket
            (Some (replicate 4 x00)) with
    | Ok data => data
    | Err _ => []
    end.

Definition example_msgs : list (bytes * bytes) :=
  [(bytes_of_string "m0", []); (bytes_of_string "m1", []);
   (bytes_of_string "m2", []); (bytes_of_string "m3", [])].

Definition example_prefixes : list bytes :=
  [replicate 4 x01; replicate 4 x02; replicate 4 x03; replicate 4 x04].

Definition example_chain : Ratchet.Chain :=
  {| Ratchet.chainKey := replicate 32 x00; Ratchet.generation := 0 |}.

Definition example_receiver : Ratchet.Receiver :=
  {| Ratchet.chains := ∅; Ratchet.current := replicate 32 x00;
     Ratchet.currentGen := 0; Ratchet.maxSkip := 1000 |}.

Section batch_encoding.
Import Batch.
Local Open Scope Z_scope.

(** A chunk whose fields fit the widths [Encode] writes them in: the index
    in 32 bits and the length of the hash in 16. *)
Definition encodable (cc : CompressedChunk) : Prop :=
  0 <= Index cc < 2 ^ 32 /\ len (OrigHash cc) < 2 ^ 16.

(** What [Encode] returns for the chunks [cs]. *)
Definition encoding (cs : list CompressedChunk) : bytes :=
  PutUint32 BatchMagic ++ PutUint32 (uint32 (len cs)) ++ flat_map encode_chunk cs.

Definition example_batch : Batch :=
  {| Chunks := [ {| Index := 0; Compressed := false;
                    Data := bytes_of_string "chunk0";
                    OrigHash := bytes_of_string "0123456789abcdef0123456789abcdef" |};
                 {| Index := 1; Compressed := true;
                    Data := bytes_of_string "chunk1";
                    OrigHash := bytes_of_string "123456789abcdef0123456789abcdef0" |} ] |}.

Definition example_batch_bytes : bytes := Eval vm_compute in encoding (Chunks example_batch).

End batch_encoding.

Section bulk_transfer.
Context {L : LZ4}.
Import Chunker.

(** What the sender hands to the stream for the chunks [chs]. *)
Definition compressed (level : Z) (chs : list Chunk) : list Batch.CompressedChunk :=
  map (fun ch => Bulk.CompressChunk ch level) chs.

(** The entries that receiving the chunks [chs] leaves in the map. *)
Definition by_index (chs : list Chunk) : list (Z * Chunk) :=
  map (fun ch => (Index ch, ch)) chs.

End bulk_transfer.

(** A compressor with the contract of [LZ4Correct], to evaluate the code
    on concrete inputs: up to 255 leading zero bytes are replaced by their
    count. *)
Fixpoint leading_zeros (fuel : nat) (data : bytes) : nat :=
  match fuel, data with
  | S fuel', x00 :: rest => S (leading_zeros fuel' rest)
  | _, _ => 0
  end.

Definition example_lz4 : LZ4 :=
  {| lz4_Compress _ data :=
       let z := leading_zeros 255 data in
       Some (byte_of_Z (Z.of_nat z) :: drop z data);
     lz4_Decompress c :=
       match c with
       | [] => None
       | b :: rest => Some (replicate (Z.to_nat (Z_of_byte b)) x00 ++ rest)
       end |}.

(** Eight zero bytes and five more, cut every four bytes, and the Merkle
    tree of the four chunk hashes. *)
Definition example_data : bytes := replicate 8 x00 ++ bytes_of_string "hello".

Definition example_data_tree : Merkle.MerkleTree :=
  Eval vm_compute in
    match Merkle.BuildMerkleTree
            (map Chunker.Hash (Chunker.Split (Chunker.NewChunker 4) example_data)) with
    | Ok t => t
    | Err _ => {| Merkle.leaves := []; Merkle.nodes := []; Merkle.root := [] |}
    end.

(** A Diffie-Hellman function with the algebra the channel relies on,
    to evaluate the code on concrete inputs: the public key is the private
    key and the shared secret is the exclusive or of the two.  (It hides
    nothing.) *)
Definition example_x25519 : X25519 :=
  {| x25519_ScalarBaseMult priv := priv;
     x25519_X25519 scalar point :=
       Some (zip_with (fun a b => byte_of_Z (Z.lxor (Z_of_byte a) (Z_of_byte b)))
                      scalar point) |}.

Definition example_initiator : Channel.SecureChannel :=
  Eval vm_compute in
    match Channel.NewSecureChannelInitiator (X := example_x25519)
            (Some (replicate 32 x11)) with
    | Ok' sc => sc
    | Err' _ => {| Channel.established := false; Channel.isInitiator := true;
                   Channel.localEph := {| Channel.PublicKey := [];
                                          Channel.PrivateKey := [] |};
                   Channel.remoteEphPub := []; Channel.sendChain := None;
                   Channel.recvChain := None |}
    end.

Definition example_responder : Channel.SecureChannel :=
  Eval vm_compute in
    match Channel.NewSecureChannelResponder (X := example_x25519)
            (Some (replicate 32 x22)) with
    | Ok' sc => sc
    | Err' _ => {| Channel.established := false; Channel.isInitiator := false;
                   Channel.localEph := {| Channel.PublicKey := [];
                                          Channel.PrivateKey := [] |};
                   Channel.remoteEphPub := []; Channel.sendChain := None;
                   Channel.recvChain := None |}
    end.

Section chunk_layout.
Import Chunker.

(** Chunk number [i] of [data] cut every [size] bytes, and the number of
    chunks that [len] bytes make. *)
Definition chunk_at (size : nat) (data : bytes) (i : nat) : Chunk :=
  let d := take size (drop (i * size) data) in
  {| Index := Z.of_nat i; Data := d; Hash := Merkle.HashChunk d |}.

Definition chunk_count (size len : nat) : nat := (len + size - 1) / size.

Definition chunks_of (size : nat) (data : bytes) : list Chunk :=
  map (chunk_at size data) (seq 0 (chunk_count size (length data))).

End chunk_layout.

(** [h] with the bytes that SigningBytes writes for its capabilities moved
    to the end of its nonce, and no capabilities. *)
Definition capabilities_in_nonce (h : Hello.Hello) : Hello.Hello :=
  {| Hello.PeerID := Hello.PeerID h; Hello.PublicKey := Hello.PublicKey h;
     Hello.TimestampSec := Hello.TimestampSec h;
     Hello.Nonce := Hello.Nonce h
                    ++ flat_map (Hello.capability_bytes (Hello.Capabilities h))
                                (Hello.sorted_keys (Hello.Capabilities h));
     Hello.Capabilities := ∅; Hello.Signature := Hello.Signature h |}.

(** A signer for [Example.signature]: the private key is a 32-byte seed
    followed by the public key, as in crypto/ed25519. *)
Definition example_signer : Ed25519Sign :=
  {| ed25519_Sign priv msg := sha256 (drop 32 priv ++ msg) |}.

Definition example_keypair : Identity.KeyPair :=
  {| Identity.PublicKey := replicate 32 x01;
     Identity.PrivateKey := replicate 32 x09 ++ replicate 32 x01 |}.

Definition example_hashes : list bytes :=
  Eval vm_compute in
    map (fun s => Merkle.HashChunk (bytes_of_string s)) ["chunk0"; "chunk1"; "chunk2"]%string.

Definition example_tree : Merkle.MerkleTree :=
  Eval vm_compute in
    match Merkle.BuildMerkleTree example_hashes with
    | Ok t => t
    | Err _ => {| Merkle.leaves := []; Merkle.nodes := []; Merkle.root := [] |}
    end.

Section ratchet_runs.
Context {C : Cipher}.
Import Ratchet.
Local Open Scope Z_scope.

(** The chain after one Step for each outcome of a nonce-prefix read in
    [rnds], whatever the Steps returned. *)
Fixpoint steps (c : Chain) (rnds : list (option bytes)) : Chain :=
  match rnds with
  | [] => c
  | rnd :: rnds' => steps (fst (Step c rnd)) rnds'
  end.

(** The receiver after Open was called on each of [msgs] in turn, whatever
    the calls returned. *)
Definition opens (r : Receiver)
    (msgs : list (EncryptedMessage * bytes * option bytes)) : Receiver :=
  fold_left (fun r '(msg, ad, rnd) => fst (Open r msg ad rnd)) msgs r.

(** Generation [g] lies behind the receiver and no key is kept for it. *)
Definition spent (r : Receiver) (g : Z) : Prop :=
  g < currentGen r /\ chains r !! g = None.

End ratchet_runs.

Definition example_rnds : list (option bytes) :=
  [Some (replicate 4 x01); None; Some (replicate 4 x03)].

(** The message of generation 1 that the chain of the all-zero key seals,
    and the fresh receiver after opening it. *)
Definition example_sealed : Ratchet.EncryptedMessage :=
  Eval vm_compute in
    sealed_message (C := Example.cipher) (replicate 32 x00) 1 (bytes_of_string "m1") []
      (replicate 4 x02).

Definition example_receiver_after : Ratchet.Receiver :=
  Eval vm_compute in
    fst (Ratchet.Open (C := Example.cipher) example_receiver example_sealed []
           (Some (replicate 4 xff))).

(** The ticket has expired at [now], as Lookup and Cleanup test it. *)
Definition expired (now : Z) (t : Ticket.Ticket) : bool := (now >? Ticket.ExpiresAt t)%Z.

(** A store with two tickets, the first expired at 1700090000. *)
Definition example_tickets : Ticket.TicketStore :=
  {| Ticket.tickets :=
       {[ replicate 16 x01 := example_ticket;
          replicate 16 x02 :=
            {| Ticket.ID := replicate 16 x02;
               Ticket.IssuedAt := 1700080000; Ticket.ExpiresAt := 1700166400;
               Ticket.PeerID := replicate 32 x03;
               Ticket.SessionKey := replicate 32 x06 |} ]};
     Ticket.key := replicate 32 x07 |}.

(** * Properties *)

(** ** Bytes, integers and the hash *)

Lemma Z_of_byte_range (b : byte) : (0 <= Z_of_byte b < 256)%Z.
Proof.
  unfold Z_of_byte. pose proof (Byte.to_N_bounded b). lia.
Qed.

Lemma Z_of_byte_of_Z (z : Z) : Z_of_byte (byte_of_Z z) = (z mod 256)%Z.
Proof.
  unfold Z_of_byte, byte_of_Z.
  assert (Hr : (0 <= z mod 256 < 256)%Z) by (apply Z.mod_pos_bound; lia).
  destruct (Byte.of_N (Z.to_N (z mod 256))) as [b|] eqn:E.
  - apply Byte.to_of_N in E. simpl. rewrite E. lia.
  - apply Byte.of_N_None_iff in E. lia.
Qed.

Lemma byte_of_Z_of_byte (b : byte) : byte_of_Z (Z_of_byte b) = b.
Proof.
  unfold Z_of_byte, byte_of_Z.
  pose proof (Byte.to_N_bounded b).
  rewrite Z.mod_small by lia. rewrite N2Z.id, Byte.of_to_N. reflexivity.
Qed.

Lemma be_step (u m : Z) :
  (0 < m)%Z -> ((u / 256) mod m * 256 + u mod 256 = u mod (256 * m))%Z.
Proof.
  intros Hm. rewrite (Z.rem_mul_r u 256 m) by lia. lia.
Qed.

Ltac split_shift v hi lo :=
  replace (v / 2 ^ hi)%Z with (v / 2 ^ lo / 256)%Z
    by (rewrite Z.div_div by lia; reflexivity).

Lemma Uint64_PutUint64 (v : Z) (rest : bytes) :
  Uint64 (PutUint64 v ++ rest) = uint64 v.
Proof.
  unfold Uint64, PutUint64, be_decode, uint64. cbn [take app fold_left].
  rewrite !Z_of_byte_of_Z, !Z.shiftr_div_pow2 by lia.
  split_shift v 56%Z 48%Z. split_shift v 48%Z 40%Z. split_shift v 40%Z 32%Z.
  split_shift v 32%Z 24%Z. split_shift v 24%Z 16%Z. split_shift v 16%Z 8%Z.
  change (2 ^ 8)%Z with 256%Z.
  rewrite Z.mul_0_l, Z.add_0_l.
  rewrite !be_step by lia. reflexivity.
Qed.

Lemma Uint32_PutUint32 (v : Z) (rest : bytes) :
  Uint32 (PutUint32 v ++ rest) = uint32 v.
Proof.
  unfold Uint32, PutUint32, be_decode, uint32. cbn [take app fold_left].
  rewrite !Z_of_byte_of_Z, !Z.shiftr_div_pow2 by lia.
  split_shift v 24%Z 16%Z. split_shift v 16%Z 8%Z.
  change (2 ^ 8)%Z with 256%Z.
  rewrite Z.mul_0_l, Z.add_0_l.
  rewrite !be_step by lia. reflexivity.
Qed.

Lemma PutUint64_inj (v w : Z) :
  (0 <= v < 2 ^ 64)%Z -> (0 <= w < 2 ^ 64)%Z -> PutUint64 v = PutUint64 w -> v = w.
Proof.
  intros Hv Hw E.
  pose proof (Uint64_PutUint64 v []) as E1.
  pose proof (Uint64_PutUint64 w []) as E2.
  rewrite E, E2 in E1. unfold uint64 in E1.
  rewrite !Z.mod_small in E1 by lia. congruence.
Qed.

Lemma PutUint64_length (v : Z) : length (PutUint64 v) = 8.
Proof. reflexivity. Qed.

Lemma int64_uint64 (z : Z) :
  (- 2 ^ 63 <= z < 2 ^ 63)%Z -> int64 (uint64 z) = z.
Proof.
  intros Hz. unfold int64, uint64. rewrite Z.mod_mod by lia.
  destruct (Z.ltb_spec (z mod 2 ^ 64) (2 ^ 63)) as [H|H];
    Z.div_mod_to_equations; lia.
Qed.

Lemma int64_small (z : Z) : (0 <= z < 2 ^ 63)%Z -> int64 z = z.
Proof.
  intros Hz. unfold int64, uint64. rewrite Z.mod_small by lia.
  destruct (Z.ltb_spec z (2 ^ 63)); lia.
Qed.

Lemma sha256_length (m : bytes) : length (sha256 m) = 32.
Proof.
  unfold sha256, SHA256.Sum256.
  destruct (SHA256.blocks _ _ _) as [[[[[[[a b] c] d] e] f] g] h].
  reflexivity.
Qed.

Lemma hex_byte_roundtrip (b : byte) (rest : bytes) :
  hex_DecodeString (hex_EncodeToString [b] ++ rest) =
  bind (hex_DecodeString rest) (fun tl => Ok (b :: tl)).
Proof.
  destruct b; reflexivity.
Qed.

Lemma hex_roundtrip (b : bytes) : hex_DecodeString (hex_EncodeToString b) = Ok b.
Proof.
  induction b as [|x b IH]; [reflexivity|].
  change (hex_EncodeToString (x :: b))
    with (hex_EncodeToString [x] ++ hex_EncodeToString b).
  rewrite hex_byte_roundtrip, IH. reflexivity.
Qed.

(** ** The Merkle tree of a single leaf *)

Section single_leaf.
Import Merkle.

(** C6, as the code has it: built from exactly one chunk hash, the tree
    is that hash alone.  One is already a power of two, so no padding leaf
    is added and nothing is hashed: leaves, nodes and root are the chunk
    hash itself. *)
Theorem BuildMerkleTree_single_leaf (h : bytes) :
  BuildMerkleTree [h] = Ok {| leaves := [h]; nodes := [h]; root := h |}.
Proof. reflexivity. Qed.

(** C6 as stated fails: for the single chunk hash SHA-256("chunk0") the
    root is the hash itself and differs from SHA-256(leaf || SHA-256("")). *)
Lemma single_leaf_root_is_not_padded :
  let leaf := HashChunk (bytes_of_string "chunk0") in
  exists t, BuildMerkleTree [leaf] = Ok t /\
            root t = leaf /\
            root t <> sha256 (leaf ++ sha256 []).
Proof.
  eexists. split; [reflexivity|]. split; [reflexivity|].
  apply (bool_decide_unpack _). vm_compute. exact I.
Qed.

End single_leaf.

(** ** The batch size limit *)

Section batch_limit.
Import Batch.
Local Open Scope Z_scope.

Lemma Size_fold (cs : list CompressedChunk) (acc : Z) :
  fold_left (fun size cc => size + (4 + 1 + 2 + len (OrigHash cc) + 4 + len (Data cc)))
            cs acc
  = acc + len (flat_map encode_chunk cs).
Proof.
  revert acc. induction cs as [|cc cs IH]; intros acc; cbn [flat_map fold_left].
  - unfold len. simpl. lia.
  - rewrite IH. unfold len, encode_chunk. rewrite !length_app. simpl. lia.
Qed.

Lemma Size_encoding (b : Batch) :
  Size b = len (PutUint32 BatchMagic ++ PutUint32 (uint32 (len (Chunks b)))
                ++ flat_map encode_chunk (Chunks b)).
Proof.
  unfold Size. rewrite Size_fold. unfold len. rewrite !length_app. simpl. lia.
Qed.

Lemma decode_loop_not_too_large (count : nat) (data : bytes) (offset : Z)
    (chunks : list CompressedChunk) :
  decode_loop count data offset chunks <> Err ErrBatchTooLarge.
Proof.
  revert offset chunks. induction count as [|count IH]; intros offset chunks; simpl.
  - discriminate.
  - repeat (case_match; try discriminate). apply IH.
Qed.

Lemma DecodeBatch_not_too_large (data : bytes) :
  DecodeBatch data <> Err ErrBatchTooLarge.
Proof.
  unfold DecodeBatch. repeat (case_match; try discriminate).
  apply decode_loop_not_too_large.
Qed.

(** C9, as the code has it: a batch whose serialized size is strictly
    greater than 4 MiB is rejected by Encode with BatchTooLarge, and
    ReadBatch rejects a length prefix strictly greater than 4 MiB; a size
    or a length prefix of at most 4 MiB, exactly 4 MiB included, is not
    rejected as too large: Encode then returns the serialization, whose
    length is the size. *)
Theorem batch_limit_is_strict (b : Batch) (lenBuf rest : bytes) :
  length lenBuf = 4%nat ->
  (MaxBatchSize < Size b -> Encode b = Err ErrBatchTooLarge) /\
  (Size b <= MaxBatchSize -> exists data, Encode b = Ok data /\ len data = Size b) /\
  (MaxBatchSize < Uint32 lenBuf ->
     fst (ReadBatch (lenBuf ++ rest)) = Err ErrBatchTooLarge) /\
  (Uint32 lenBuf <= MaxBatchSize ->
     fst (ReadBatch (lenBuf ++ rest)) <> Err ErrBatchTooLarge).
Proof.
  intros Hlen. repeat split.
  - intros H. unfold Encode. destruct (Z.gtb_spec (Size b) MaxBatchSize); [done|lia].
  - intros H. unfold Encode. destruct (Z.gtb_spec (Size b) MaxBatchSize); [lia|].
    eexists. split; [reflexivity|]. symmetry. apply Size_encoding.
  - intros H. unfold ReadBatch, ReadFull.
    rewrite length_app, Hlen. simpl.
    rewrite (take_app_length' lenBuf rest 4 (eq_sym Hlen)).
    destruct (Z.gtb_spec (Uint32 lenBuf) MaxBatchSize); [done|lia].
  - intros H. unfold ReadBatch, ReadFull.
    rewrite length_app, Hlen. simpl.
    rewrite (take_app_length' lenBuf rest 4 (eq_sym Hlen)).
    destruct (Z.gtb_spec (Uint32 lenBuf) MaxBatchSize); [lia|].
    repeat (case_match; simplify_eq; try discriminate); simpl.
    apply DecodeBatch_not_too_large.
Qed.

Lemma batch_4MiB_Size : Size batch_4MiB = 4 * 1024 * 1024.
Proof.
  unfold Size, batch_4MiB, len. cbn [Chunks fold_left OrigHash Data].
  rewrite !length_replicate. lia.
Qed.

(** C9 as stated fails at exactly 4 MiB: the batch of one chunk with a
    32-byte hash and 4194253 bytes of data has serialized size 4194304 and
    Encode returns its serialization instead of BatchTooLarge. *)
Lemma batch_of_exactly_4MiB_is_encoded :
  Size batch_4MiB = 4 * 1024 * 1024 /\
  Size batch_4MiB >= 4 * 1024 * 1024 /\
  Encode batch_4MiB <> Err ErrBatchTooLarge /\
  fst (ReadBatch (PutUint32 (4 * 1024 * 1024))) <> Err ErrBatchTooLarge.
Proof.
  pose proof batch_4MiB_Size as HS.
  split; [exact HS|]. split; [lia|]. split.
  - unfold Encode. rewrite HS. discriminate.
  - discriminate.
Qed.

(** The bound of C9 at a concrete batch and a concrete length prefix. *)
Lemma batch_limit_is_strict_witness :
  (MaxBatchSize < Size batch_4MiB -> Encode batch_4MiB = Err ErrBatchTooLarge) /\
  (Size batch_4MiB <= MaxBatchSize ->
     exists data, Encode batch_4MiB = Ok data /\ len data = Size batch_4MiB) /\
  (MaxBatchSize < Uint32 (PutUint32 4194305) ->
     fst (ReadBatch (PutUint32 4194305 ++ [])) = Err ErrBatchTooLarge) /\
  (Uint32 (PutUint32 4194305) <= MaxBatchSize ->
     fst (ReadBatch (PutUint32 4194305 ++ [])) <> Err ErrBatchTooLarge).
Proof.
  apply (batch_limit_is_strict batch_4MiB (PutUint32 4194305) []). reflexivity.
Defined.

End batch_limit.

(** The repository's batch test: two chunks, encoded, written with the
    length prefix, read back and decoded to the same batch. *)
Example batch_round_trip :
  let b := {| Batch.Chunks :=
                [ {| Batch.Index := 0; Batch.Compressed := false;
                     Batch.Data := bytes_of_string "chunk0";
                     Batch.OrigHash := Merkle.HashChunk (bytes_of_string "chunk0") |};
                  {| Batch.Index := 1; Batch.Compressed := true;
                     Batch.Data := bytes_of_string "chunk1";
                     Batch.OrigHash := Merkle.HashChunk (bytes_of_string "chunk1") |} ] |} in
  bind (Batch.Encode b) Batch.DecodeBatch = Ok b /\
  match Batch.WriteBatch [] b with
  | (Ok _, stream) => Batch.ReadBatch stream = (Ok b, [])
  | (Err _, _) => False
  end.
Proof. vm_compute. split; reflexivity. Qed.

(** ** Nonces of one AEAD instance *)

Section nonces.
Context {C : Cipher}.
Import AEAD Props.
Local Open Scope Z_scope.

Lemma Seal_nextNonce (a : AEAD) (pt ad : bytes) :
  fst (Seal a pt ad) = fst (nextNonce a) /\
  snd (Seal a pt ad) =
    snd (nextNonce a) ++ cipher_Seal (key a) (snd (nextNonce a)) pt ad.
Proof. split; reflexivity. Qed.

Lemma after_seals_succ (a : AEAD) (n : N) :
  after_seals a (N.succ n) = fst (nextNonce (after_seals a n)).
Proof. unfold after_seals. rewrite N.iter_succ. reflexivity. Qed.

Lemma after_seals_state (a : AEAD) (n : N) :
  after_seals a n =
  {| key := key a; prefix := prefix a;
     seq := if (n =? 0)%N then seq a else uint64 (seq a + Z.of_N n) |}.
Proof.
  induction n as [|n IH] using N.peano_ind.
  - destruct a; reflexivity.
  - rewrite after_seals_succ, IH. unfold nextNonce. cbn [fst key prefix seq].
    f_equal.
    destruct (N.eqb_spec (N.succ n) 0) as [E|_]; [lia|].
    destruct (N.eqb_spec n 0) as [E0|E0].
    + rewrite E0. f_equal; lia.
    + unfold uint64. rewrite Zplus_mod_idemp_l. f_equal; lia.
Qed.

Lemma nonce_of_seal_eq (a : AEAD) (n : N) :
  nonce_of_seal a n = prefix a ++ PutUint64 (uint64 (seq a + Z.of_N n + 1)).
Proof.
  unfold nonce_of_seal. rewrite after_seals_state. unfold nextNonce.
  cbn [snd prefix seq]. do 2 f_equal.
  destruct (N.eqb_spec n 0) as [E0|E0].
  - rewrite E0. f_equal; lia.
  - unfold uint64. rewrite Zplus_mod_idemp_l. f_equal; lia.
Qed.

(** C4, as the code has it: the nonce of every seal is the instance's
    prefix followed by the big-endian 64-bit counter, which is incremented
    once per seal, and the first 2^64 seals of an instance use pairwise
    different nonces.  Seal has no failure path: the counter is
    incremented modulo 2^64, so seal number n + 2^64 forms the nonce of
    seal number n again. *)
Theorem nonces_distinct_for_2_64_seals (key : bytes) (prefix : bytes)
    (a : AEAD) (i j : N) :
  NewAEAD key (Some prefix) = Ok a ->
  (i < j)%N -> (j < 2 ^ 64)%N ->
  nonce_of_seal a i = prefix ++ PutUint64 (uint64 (Z.of_N i + 1)) /\
  (forall pt ad, snd (Seal (after_seals a i) pt ad) =
     nonce_of_seal a i ++ cipher_Seal key (nonce_of_seal a i) pt ad) /\
  nonce_of_seal a i <> nonce_of_seal a j /\
  nonce_of_seal a (i + 2 ^ 64) = nonce_of_seal a i.
Proof.
  intros Ha Hij Hj. unfold NewAEAD in Ha. case_decide; [|discriminate].
  injection Ha as <-. rewrite !nonce_of_seal_eq. cbn [AEAD.prefix seq].
  repeat split.
  - intros pt ad. destruct (Seal_nextNonce (after_seals
      {| AEAD.key := key; AEAD.prefix := prefix; seq := 0 |} i) pt ad) as [_ ->].
    fold (nonce_of_seal {| AEAD.key := key; AEAD.prefix := prefix; seq := 0 |} i).
    rewrite after_seals_state. cbn [AEAD.key]. rewrite nonce_of_seal_eq. reflexivity.
  - intros E. apply app_inv_head in E. apply PutUint64_inj in E.
    + unfold uint64 in E. Z.div_mod_to_equations. lia.
    + apply Z.mod_pos_bound. lia.
    + apply Z.mod_pos_bound. lia.
  - do 2 f_equal. unfold uint64. rewrite N2Z.inj_add.
    replace (0 + (Z.of_N i + Z.of_N (2 ^ 64)) + 1) with (0 + Z.of_N i + 1 + 1 * 2 ^ 64)
      by (change (Z.of_N (2 ^ 64)) with (2 ^ 64); lia).
    apply Z.mod_add. lia.
Qed.

End nonces.

(** C4 as stated fails once the counter is exhausted: seal number 2^64 + 1
    of an instance is performed like any other, its counter having wrapped
    to 1, and forms the very nonce of the first seal. *)
Lemma nonce_reused_after_2_64_seals :
  let a := {| AEAD.key := replicate 32 x00; AEAD.prefix := replicate 4 x00;
              AEAD.seq := 0 |} in
  AEAD.NewAEAD (replicate 32 x00) (Some (replicate 4 x00)) = Ok a /\
  AEAD.seq (Props.after_seals a (2 ^ 64)) = 0%Z /\
  Props.nonce_of_seal a (2 ^ 64) = Props.nonce_of_seal a 0 /\
  forall (C : Cipher) pt ad,
    take 12 (snd (AEAD.Seal (Props.after_seals a (2 ^ 64)) pt ad))
    = take 12 (snd (AEAD.Seal a pt ad)).
Proof.
  cbv zeta. split; [reflexivity|]. split; [|split].
  - rewrite after_seals_state. reflexivity.
  - rewrite !nonce_of_seal_eq. reflexivity.
  - intros C pt ad. rewrite after_seals_state. reflexivity.
Qed.

(** The nonces of the first and the last of the first 2^64 seals of one
    instance differ. *)
Lemma nonces_distinct_for_2_64_seals_witness :
  let a := {| AEAD.key := replicate 32 x00; AEAD.prefix := replicate 4 x00;
              AEAD.seq := 0 |} in
  Props.nonce_of_seal a 0 <> Props.nonce_of_seal a (2 ^ 64 - 1).
Proof.
  intros a.
  apply (@nonces_distinct_for_2_64_seals Example.cipher
           (replicate 32 x00) (replicate 4 x00) a 0 (2 ^ 64 - 1) eq_refl);
    reflexivity.
Defined.

(** ** The receiver's window *)

Section receiver.
Context {C : Cipher}.
Import Ratchet Props.
Local Open Scope Z_scope.

Lemma deriveKeysStatic_lengths (k : bytes) :
  length (fst (deriveKeysStatic k)) = 32%nat /\
  length (snd (deriveKeysStatic k)) = 32%nat.
Proof. split; apply sha256_length. Qed.

Lemma NewAEAD_message_key (k prefix : bytes) :
  NewAEAD (sha256 k) (Some prefix) =
  Ok {| AEAD.key := sha256 k; AEAD.prefix := prefix; AEAD.seq := 0 |}.
Proof.
  unfold NewAEAD, AEAD.NewAEAD. rewrite sha256_length.
  case_decide; [reflexivity|]. unfold AEAD.KeySize in *. lia.
Qed.

Lemma NewAEAD_not_InvalidGeneration (k : bytes) (rnd : option bytes) :
  NewAEAD k rnd <> Err ErrInvalidGeneration.
Proof.
  unfold NewAEAD, AEAD.NewAEAD. repeat case_match; discriminate.
Qed.

Lemma AEAD_Open_not_InvalidGeneration (a : AEAD.AEAD) (ct ad : bytes) :
  AEAD.Open a ct ad <> Err ErrInvalidGeneration.
Proof.
  unfold AEAD.Open. repeat case_match; discriminate.
Qed.

(** C3 at the inputs where the code departs from it: when the generation
    is ahead of the receiver's by 2^63 or more, the conversion
    [int(gen - r.currentGen)] is negative, the comparison with [maxSkip]
    does not fire, and whatever Open returns after deriving every key in
    between, it is not InvalidGeneration. *)
Theorem Open_skip_check_wraps (r : Receiver) (msg : EncryptedMessage)
    (ad : bytes) (rnd : option bytes) :
  0 <= currentGen r ->
  Generation msg < 2 ^ 64 ->
  2 ^ 63 <= Generation msg - currentGen r ->
  0 <= maxSkip r < 2 ^ 63 ->
  Generation msg - currentGen r > maxSkip r /\
  snd (Open r msg ad rnd) <> Err ErrInvalidGeneration.
Proof.
  intros Hc Hg Hd Hm.
  assert (Hskip : int64 (Generation msg - currentGen r) < 0).
  { unfold int64, uint64. rewrite Z.mod_small by lia.
    destruct (Z.ltb_spec (Generation msg - currentGen r) (2 ^ 63)); lia. }
  split.
  { lia. }
  unfold Open.
  destruct (Z.eqb_spec (Generation msg) (currentGen r)) as [E|_]; [lia|].
  destruct (chains r !! Generation msg) as [cached|].
  - destruct (deriveKeysStatic cached) as [nx mk].
    pose proof (NewAEAD_not_InvalidGeneration mk rnd).
    destruct (NewAEAD mk rnd); cbn [snd]; [|congruence].
    apply AEAD_Open_not_InvalidGeneration.
  - destruct (Z.gtb_spec (Generation msg) (currentGen r)) as [_|]; [|lia].
    destruct (Z.gtb_spec (int64 (Generation msg - currentGen r)) (maxSkip r)) as [|_];
      [lia|].
    generalize (Z.to_nat (Generation msg - currentGen r)). intros n.
    destruct (cache_loop n (currentGen r) (current r) (chains r)) as [ck chs].
    destruct (deriveKeysStatic ck) as [nx mk].
    pose proof (NewAEAD_not_InvalidGeneration mk rnd).
    destruct (NewAEAD mk rnd); cbn [snd]; [|congruence].
    apply AEAD_Open_not_InvalidGeneration.
Qed.

Lemma Open_skip_rejected (r : Receiver) (msg : EncryptedMessage)
    (ad : bytes) (rnd : option bytes) :
  chains r !! Generation msg = None ->
  currentGen r < Generation msg ->
  maxSkip r < Generation msg - currentGen r < 2 ^ 63 ->
  Open r msg ad rnd = (r, Err ErrInvalidGeneration).
Proof.
  intros Hc Hg Hd. unfold Open. rewrite Hc.
  destruct (Z.eqb_spec (Generation msg) (currentGen r)); [lia|].
  destruct (Z.gtb_spec (Generation msg) (currentGen r)); [|lia].
  rewrite int64_small by lia.
  destruct (Z.gtb_spec (Generation msg - currentGen r) (maxSkip r)); [done|lia].
Qed.

Lemma advance_next (n : nat) (k : bytes) :
  advance n (fst (deriveKeysStatic k)) = advance (S n) k.
Proof.
  unfold advance. symmetry.
  apply (Nat.iter_succ_r n (fun k => fst (deriveKeysStatic k)) k).
Qed.

Lemma cache_loop_key (n : nat) (i : Z) (k : bytes) (chs : gmap Z bytes) :
  fst (cache_loop n i k chs) = advance n k.
Proof.
  revert i k chs. induction n as [|n IH]; intros i k chs; [reflexivity|].
  cbn [cache_loop]. destruct (deriveKeysStatic k) as [nx mk] eqn:E.
  rewrite IH. replace nx with (fst (deriveKeysStatic k)) by (rewrite E; reflexivity).
  apply advance_next.
Qed.

Lemma cache_loop_lookup (n : nat) (i : Z) (k : bytes) (chs : gmap Z bytes) (j : Z) :
  snd (cache_loop n i k chs) !! j =
  if decide (i <= j < i + Z.of_nat n)
  then Some (advance (Z.to_nat (j - i)) k)
  else chs !! j.
Proof.
  revert i k chs. induction n as [|n IH]; intros i k chs.
  - cbn [cache_loop snd]. case_decide; [lia|reflexivity].
  - cbn [cache_loop]. destruct (deriveKeysStatic k) as [nx mk] eqn:E.
    rewrite IH. replace nx with (fst (deriveKeysStatic k)) by (rewrite E; reflexivity).
    destruct (decide (j = i)) as [->|Hne].
    + rewrite decide_False by lia. rewrite decide_True by lia.
      rewrite lookup_insert_eq. f_equal. replace (i - i) with 0 by lia. reflexivity.
    + rewrite lookup_insert_ne by congruence.
      destruct (decide (i + 1 <= j < i + 1 + Z.of_nat n)).
      * rewrite decide_True by lia. f_equal. rewrite advance_next. f_equal. lia.
      * rewrite decide_False by lia. reflexivity.
Qed.

(** The state a receiver is left in by Open on a future generation that
    passes the skip check, whatever decryption gives. *)
Lemma Open_future_state (r : Receiver) (msg : EncryptedMessage) (ad prefix : bytes) :
  chains r !! Generation msg = None ->
  currentGen r < Generation msg ->
  Generation msg - currentGen r <= maxSkip r -> maxSkip r < 2 ^ 63 ->
  let n := Z.to_nat (Generation msg - currentGen r) in
  let key := advance n (current r) in
  Open r msg ad (Some prefix) =
  ({| chains := snd (cache_loop n (currentGen r) (current r) (chains r));
      current := fst (deriveKeysStatic key);
      currentGen := uint64 (Generation msg + 1);
      maxSkip := maxSkip r |},
   AEAD.Open {| AEAD.key := snd (deriveKeysStatic key); AEAD.prefix := prefix;
                AEAD.seq := 0 |} (Ciphertext msg) ad).
Proof.
  intros Hc Hg Hd Hm n key. unfold Open. rewrite Hc.
  destruct (Z.eqb_spec (Generation msg) (currentGen r)); [lia|].
  destruct (Z.gtb_spec (Generation msg) (currentGen r)); [|lia].
  rewrite int64_small by lia.
  destruct (Z.gtb_spec (Generation msg - currentGen r) (maxSkip r)); [lia|].
  fold n.
  pose proof (cache_loop_key n (currentGen r) (current r) (chains r)) as Hk.
  destruct (cache_loop n (currentGen r) (current r) (chains r)) as [ck chs].
  cbn [fst snd] in *. subst ck. fold key.
  unfold deriveKeysStatic at 1. rewrite NewAEAD_message_key. reflexivity.
Qed.

(** C10: Open changes the receiver before it decrypts.  When a message of
    a future generation g within the skip bound fails to decrypt, the
    receiver is already at generation g + 1 with the chain keys of the
    generations in between cached and none kept for g; when a message of a
    cached generation fails to decrypt, its cached key is already deleted.
    Either way every later message of generation g is refused with
    InvalidGeneration. *)
Theorem Open_not_atomic_on_failure (r : Receiver) (msg : EncryptedMessage)
    (ad prefix : bytes) :
  Receiver_ok r ->
  maxSkip r < 2 ^ 63 ->
  Generation msg + 1 < 2 ^ 64 ->
  snd (Open r msg ad (Some prefix)) = Err ErrDecryptionFailed ->
  let g := Generation msg in
  let r' := fst (Open r msg ad (Some prefix)) in
  (currentGen r < g -> g - currentGen r <= maxSkip r ->
     currentGen r' = g + 1 /\
     chains r' !! g = None /\
     (forall i, currentGen r <= i < g ->
        chains r' !! i = Some (advance (Z.to_nat (i - currentGen r)) (current r))) /\
     (forall i, ~ currentGen r <= i < g -> chains r' !! i = chains r !! i) /\
     forall msg' ad' rnd', Generation msg' = g ->
       Open r' msg' ad' rnd' = (r', Err ErrInvalidGeneration)) /\
  (g < currentGen r -> is_Some (chains r !! g) ->
     currentGen r' = currentGen r /\
     chains r' = delete g (chains r) /\
     forall msg' ad' rnd', Generation msg' = g ->
       Open r' msg' ad' rnd' = (r', Err ErrInvalidGeneration)).
Proof.
  intros [Hcur Hinv] Hm Hg Hfail g r'. split.
  - intros Hlt Hskip.
    assert (Hnone : chains r !! g = None).
    { destruct (chains r !! g) as [k|] eqn:E; [|reflexivity].
      apply Hinv in E. lia. }
    subst r'. rewrite (Open_future_state r msg ad prefix Hnone Hlt Hskip Hm).
    cbn [fst chains currentGen].
    assert (Hg1 : uint64 (Generation msg + 1) = g + 1).
    { unfold uint64. apply Z.mod_small. subst g. lia. }
    assert (Hcache : forall i,
      snd (cache_loop (Z.to_nat (Generation msg - currentGen r)) (currentGen r)
             (current r) (chains r)) !! i =
      if decide (currentGen r <= i < g)
      then Some (advance (Z.to_nat (i - currentGen r)) (current r))
      else chains r !! i).
    { intros i. rewrite cache_loop_lookup. subst g.
      destruct (decide (currentGen r <= i < Generation msg)).
      - rewrite decide_True by lia. reflexivity.
      - rewrite decide_False by lia. reflexivity. }
    split; [exact Hg1|]. split; [|split; [|split]].
    + rewrite Hcache, decide_False by lia. exact Hnone.
    + intros i Hi. rewrite Hcache, decide_True by lia. reflexivity.
    + intros i Hi. rewrite Hcache, decide_False by lia. reflexivity.
    + intros msg' ad' rnd' Hg'. unfold Open. cbn [chains currentGen maxSkip current].
      rewrite Hg', Hg1.
      destruct (Z.eqb_spec g (g + 1)); [lia|].
      rewrite Hcache, decide_False, Hnone by lia.
      destruct (Z.gtb_spec g (g + 1)); [lia|reflexivity].
  - intros Hlt [k Hk]. subst r'. unfold Open in *. fold g in Hfail |- *.
    destruct (Z.eqb_spec g (currentGen r)); [lia|].
    rewrite Hk in *. unfold deriveKeysStatic in *.
    rewrite NewAEAD_message_key in *. cbn [fst chains currentGen] in *.
    split; [reflexivity|]. split; [reflexivity|].
    intros msg' ad' rnd' Hg'. cbn [chains currentGen maxSkip current]. rewrite Hg'.
    destruct (Z.eqb_spec g (currentGen r)); [lia|].
    rewrite lookup_delete_eq.
    destruct (Z.gtb_spec g (currentGen r)); [lia|reflexivity].
Qed.

End receiver.

Section receiver_ok.
Context {C : Cipher}.
Import Ratchet Props.
Local Open Scope Z_scope.

(** Every receiver the code can reach keeps [Receiver_ok]: a new one has
    it, and Open preserves it below generation 2^64 - 1. *)
Lemma NewReceiver_ok (key : bytes) (maxSkip : Z) (r : Receiver) :
  NewReceiver key maxSkip = Ok r -> Receiver_ok r.
Proof.
  unfold NewReceiver. case_decide; [|done]. intros [= <-]. split; cbn; [lia|].
  intros g k Hk. by rewrite lookup_empty in Hk.
Qed.

Lemma Open_preserves_ok (r : Receiver) (msg : EncryptedMessage) (ad : bytes)
    (rnd : option bytes) :
  Receiver_ok r ->
  0 <= Generation msg -> Generation msg + 1 < 2 ^ 64 ->
  Receiver_ok (fst (Open r msg ad rnd)).
Proof.
  intros [Hcur Hinv] Hg0 Hg. unfold Open.
  destruct (Z.eqb_spec (Generation msg) (currentGen r)) as [E|Hne].
  - destruct (deriveKeysStatic (current r)) as [nx mk].
    destruct (NewAEAD mk rnd) as [a|]; [|done].
    destruct (AEAD.Open a (Ciphertext msg) ad); [|done].
    split; cbn [fst currentGen chains].
    + unfold uint64. rewrite Z.mod_small by lia. lia.
    + intros g k Hk. apply Hinv in Hk. unfold uint64. rewrite Z.mod_small by lia. lia.
  - destruct (chains r !! Generation msg) as [cached|] eqn:Hc.
    + destruct (deriveKeysStatic cached) as [nx mk].
      destruct (NewAEAD mk rnd) as [a|]; [|done].
      split; cbn [fst currentGen chains]; [done|].
      intros g k Hk. apply lookup_delete_Some in Hk as [_ Hk]. by apply (Hinv g k).
    + destruct (Z.gtb_spec (Generation msg) (currentGen r)) as [Hgt|]; [|done].
      destruct (Z.gtb_spec (int64 (Generation msg - currentGen r)) (maxSkip r)); [done|].
      pose proof (cache_loop_lookup (Z.to_nat (Generation msg - currentGen r))
                    (currentGen r) (current r) (chains r)) as Hl.
      destruct (cache_loop _ _ _ _) as [ck chs]. cbn [snd] in Hl.
      destruct (deriveKeysStatic ck) as [nx mk].
      assert (Hok : Receiver_ok {| chains := chs; current := nx;
                                   currentGen := uint64 (Generation msg + 1);
                                   maxSkip := maxSkip r |}).
      { split; cbn [currentGen chains]; unfold uint64; rewrite Z.mod_small by lia; [lia|].
        intros g k Hk. rewrite Hl in Hk. case_decide; [lia|].
        apply Hinv in Hk. lia. }
      by destruct (NewAEAD mk rnd).
Qed.

End receiver_ok.

(** A fresh receiver with maxSkip 1000 and a message of generation 2^63. *)
Lemma Open_skip_check_wraps_witness :
  let r := {| Ratchet.chains := ∅; Ratchet.current := replicate 32 x00;
              Ratchet.currentGen := 0; Ratchet.maxSkip := 1000 |} in
  let msg := {| Ratchet.Generation := 2 ^ 63; Ratchet.Ciphertext := [] |} in
  Ratchet.NewReceiver (replicate 32 x00) 1000 = Ok r /\
  (Ratchet.Generation msg - Ratchet.currentGen r > Ratchet.maxSkip r)%Z /\
  snd (Ratchet.Open (C := Example.cipher) r msg [] (Some (replicate 4 x00)))
    <> Err ErrInvalidGeneration.
Proof.
  intros r msg. split; [reflexivity|].
  apply (@Open_skip_check_wraps Example.cipher r msg [] (Some (replicate 4 x00)));
    cbn; lia.
Defined.

(** A fresh receiver, a message of generation 2 whose 28 bytes do not
    authenticate, and the genuine message of generation 2 afterwards. *)
Lemma Open_not_atomic_on_failure_witness :
  let r := {| Ratchet.chains := ∅; Ratchet.current := replicate 32 x00;
              Ratchet.currentGen := 0; Ratchet.maxSkip := 1000 |} in
  let forged := {| Ratchet.Generation := 2; Ratchet.Ciphertext := replicate 28 x00 |} in
  let r' := fst (Ratchet.Open (C := Example.cipher) r forged [] (Some (replicate 4 x00))) in
  snd (Ratchet.Open (C := Example.cipher) r forged [] (Some (replicate 4 x00)))
    = Err ErrDecryptionFailed /\
  Ratchet.currentGen r' = 3%Z /\
  Ratchet.chains r' !! 2%Z = None /\
  forall msg' ad' rnd', Ratchet.Generation msg' = 2%Z ->
    Ratchet.Open (C := Example.cipher) r' msg' ad' rnd' = (r', Err ErrInvalidGeneration).
Proof.
  intros r forged r'.
  assert (Hfail : snd (Ratchet.Open (C := Example.cipher) r forged []
                         (Some (replicate 4 x00))) = Err ErrDecryptionFailed)
    by (vm_compute; reflexivity).
  assert (Hok : Props.Receiver_ok r).
  { split; [cbn; lia|]. intros g k Hk. cbn in Hk. rewrite lookup_empty in Hk. discriminate. }
  destruct (@Open_not_atomic_on_failure Example.cipher r forged [] (replicate 4 x00)
              Hok ltac:(cbn; lia) ltac:(cbn; lia) Hfail) as [Hfuture _].
  destruct (Hfuture ltac:(cbn; lia) ltac:(cbn; lia)) as (H1 & H2 & _ & _ & H3).
  split; [exact Hfail|]. split; [exact H1|]. split; [exact H2|exact H3].
Defined.

(** ** Merkle proofs *)

Section merkle_proofs.
Import Merkle.

Lemma bytesEqual_spec (a b : bytes) : bytesEqual a b = true <-> a = b.
Proof.
  unfold bytesEqual. case_decide as Hlen.
  - revert b Hlen. induction a as [|x a IH]; intros [|y b] Hlen; simplify_eq/=.
    + done.
    + rewrite andb_true_iff, IH by done. split.
      * intros [Hxy ->]. apply Byte.byte_dec_bl in Hxy. by subst.
      * intros [= -> ->]. split; [|done]. by apply Byte.byte_dec_lb.
  - split; [done|]. intros ->. done.
Qed.

Lemma pad_loop_ge (fuel n len : nat) :
  0 < n -> len < n + fuel -> len <= pad_loop fuel n len /\ 0 < pad_loop fuel n len.
Proof.
  revert n. induction fuel as [|fuel IH]; intros n Hn Hf; simpl.
  - lia.
  - destruct (Nat.ltb_spec n len); [|lia]. apply IH; lia.
Qed.

Lemma padded_size_ge (len : nat) :
  len <= padded_size len /\ 0 < padded_size len.
Proof. apply pad_loop_ge; lia. Qed.

Lemma pad_leaves_length (hs : list bytes) (n : nat) : length (pad_leaves hs n) = n.
Proof. unfold pad_leaves. by rewrite length_map, length_seq. Qed.

Lemma pad_leaves_lookup (hs : list bytes) (n i : nat) (h : bytes) :
  i < n -> hs !! i = Some h -> pad_leaves hs n !!! i = h.
Proof.
  intros Hi Hh. apply list_lookup_total_correct. unfold pad_leaves.
  rewrite list_lookup_fmap, lookup_seq_lt by done. simpl. by rewrite Hh.
Qed.

(** [place_leaves] writes leaf [i] at [n - 1 + i]. *)
Lemma place_leaves_gen (n : nat) (lvs nd : list bytes) (m : nat) :
  let nd' := fold_left (fun nd i => <[n - 1 + i := lvs !!! i]> nd) (seq 0 m) nd in
  length nd' = length nd /\
  forall j, nd' !!! j =
            if decide (n - 1 <= j < n - 1 + m /\ j < length nd)
            then lvs !!! (j - (n - 1)) else nd !!! j.
Proof.
  induction m as [|m [IHl IH]]; cbv zeta.
  - simpl. split; [done|]. intros j. case_decide; [lia|done].
  - rewrite seq_S, fold_left_app. cbn [fold_left]. rewrite Nat.add_0_l. split.
    + by rewrite length_insert.
    + intros j. destruct (decide (j = n - 1 + m)) as [->|Hne].
      * destruct (decide (n - 1 + m < length nd)).
        -- rewrite list_lookup_total_insert_eq by lia.
           rewrite decide_True by lia. f_equal. lia.
        -- rewrite list_insert_ge by lia. rewrite IH.
           rewrite !decide_False by lia. done.
      * rewrite list_lookup_total_insert_ne by done. rewrite IH.
        destruct (decide (n - 1 <= j < n - 1 + m /\ j < length nd)).
        -- rewrite decide_True by lia. done.
        -- rewrite decide_False by lia. done.
Qed.

Lemma hash_node_length (nd : list bytes) (m : nat) :
  length (hash_node nd m) = length nd.
Proof. apply length_insert. Qed.

Lemma hash_node_ne (nd : list bytes) (m j : nat) :
  j <> m -> hash_node nd m !!! j = nd !!! j.
Proof. intros Hne. unfold hash_node. by rewrite list_lookup_total_insert_ne. Qed.

Lemma hash_node_eq (nd : list bytes) (m : nat) :
  m < length nd ->
  hash_node nd m !!! m = sha256 ((nd !!! (2 * m + 1)) ++ (nd !!! (2 * m + 2))).
Proof. intros Hm. unfold hash_node. by rewrite list_lookup_total_insert_eq. Qed.

(** [hash_internal] fills the nodes [0 .. m-1] from their children and
    leaves the rest alone. *)
Lemma hash_internal_gen (m : nat) (nd : list bytes) :
  let nd' := fold_left hash_node (rev (seq 0 m)) nd in
  length nd' = length nd /\
  (forall j, m <= j -> nd' !!! j = nd !!! j) /\
  (forall i, i < m -> i < length nd ->
     nd' !!! i = sha256 ((nd' !!! (2 * i + 1)) ++ (nd' !!! (2 * i + 2)))).
Proof.
  revert nd. induction m as [|m IH]; intros nd; cbv zeta.
  - simpl. split; [done|]. split; [done|]. intros; lia.
  - rewrite seq_S, rev_app_distr. rewrite Nat.add_0_l. cbn [rev app fold_left].
    destruct (IH (hash_node nd m)) as (IHl & IHge & IHlt).
    rewrite hash_node_length in IHl, IHlt.
    split; [done|]. split.
    + intros j Hj. rewrite IHge by lia. apply hash_node_ne. lia.
    + intros i Hi Hlen. destruct (decide (i = m)) as [->|Hne].
      * rewrite !IHge by lia. rewrite hash_node_eq by done.
        by rewrite !hash_node_ne by lia.
      * apply IHlt; lia.
Qed.

(** What [BuildMerkleTree] builds: [2n - 1] nodes, the leaves in the last
    [n], every other node the hash of its two children. *)
Lemma BuildMerkleTree_spec (hs : list bytes) :
  hs <> [] ->
  exists t, BuildMerkleTree hs = Ok t /\
    let n := length (leaves t) in
    length hs <= n /\ 0 < n /\
    length (nodes t) = 2 * n - 1 /\
    root t = nodes t !!! 0 /\
    (forall i h, hs !! i = Some h -> leaves t !!! i = h) /\
    (forall i, i < n -> nodes t !!! (n - 1 + i) = leaves t !!! i) /\
    (forall i, i < n - 1 ->
       nodes t !!! i = sha256 ((nodes t !!! (2 * i + 1)) ++ (nodes t !!! (2 * i + 2)))).
Proof.
  intros Hne. unfold BuildMerkleTree.
  destruct (decide (length hs = 0)) as [E|_].
  { destruct hs; [done|discriminate]. }
  eexists. split; [reflexivity|]. cbn [leaves nodes root].
  rewrite pad_leaves_length.
  set (n := padded_size (length hs)).
  destruct (padded_size_ge (length hs)) as [Hge Hpos]. fold n in Hge, Hpos.
  set (lvs := pad_leaves hs n).
  destruct (place_leaves_gen n lvs (replicate (2 * n - 1) []) (length lvs))
    as [Hpl Hpj].
  fold (place_leaves n lvs (replicate (2 * n - 1) [])) in Hpl, Hpj.
  set (nd0 := place_leaves n lvs (replicate (2 * n - 1) [])) in *.
  rewrite length_replicate in Hpl.
  destruct (hash_internal_gen (n - 1) nd0) as (Hl & Hge' & Hlt).
  fold (hash_internal n nd0) in Hl, Hge', Hlt.
  assert (Hlvs : length lvs = n) by apply pad_leaves_length.
  repeat split; try done.
  - lia.
  - intros i h Hi. apply pad_leaves_lookup; [|done].
    apply lookup_lt_Some in Hi. lia.
  - intros i Hi. rewrite Hge' by lia. rewrite Hpj, Hlvs, length_replicate.
    rewrite decide_True by lia. f_equal. lia.
  - intros i Hi. apply Hlt; lia.
Qed.

Lemma proof_loop_path (fuel : nat) (nd : list bytes) (idx : nat)
    (s0 : list bytes) (l0 : list bool) :
  proof_loop fuel nd idx s0 l0 =
  (s0 ++ fst (path fuel nd idx), l0 ++ snd (path fuel nd idx)).
Proof.
  revert idx s0 l0.
  induction fuel as [|fuel IH]; intros idx s0 l0; cbn [proof_loop path fst snd].
  - by rewrite !app_nil_r.
  - destruct (0 <? idx); [|by rewrite !app_nil_r].
    rewrite IH. destruct (path fuel nd ((idx - 1) / 2)) as [s l].
    cbn [fst snd]. by rewrite <- !app_assoc.
Qed.

Lemma verify_loop_shift (cur : bytes) (i : nat) (s : list bytes) (b : bool)
    (l : list bool) :
  verify_loop cur (S i) s (b :: l) = verify_loop cur i s l.
Proof.
  revert cur i. induction s as [|x s IH]; intros cur i; simpl; [done|].
  destruct (l !! i); [|done]. apply IH.
Qed.

Lemma path_lengths (fuel : nat) (nd : list bytes) (idx : nat) :
  length (fst (path fuel nd idx)) = length (snd (path fuel nd idx)).
Proof.
  revert idx. induction fuel as [|fuel IH]; intros idx; cbn [path]; [done|].
  destruct (0 <? idx); [|done]. specialize (IH ((idx - 1) / 2)).
  destruct (path fuel nd ((idx - 1) / 2)). cbn [fst snd length] in *. lia.
Qed.

(** Climbing from any node with the generated path reaches the root. *)
Lemma verify_path (nd : list bytes) (n : nat) :
  (forall i, i < n - 1 ->
     nd !!! i = sha256 ((nd !!! (2 * i + 1)) ++ (nd !!! (2 * i + 2)))) ->
  forall fuel idx, idx <= fuel -> idx < 2 * n - 1 ->
    verify_loop (nd !!! idx) 0 (fst (path fuel nd idx)) (snd (path fuel nd idx))
    = Ok (nd !!! 0).
Proof.
  intros Hnode. induction fuel as [|fuel IH]; intros idx Hfuel Hidx.
  - assert (idx = 0) as -> by lia. done.
  - cbn [path]. destruct (Nat.ltb_spec 0 idx) as [Hpos|Hz].
    2:{ assert (idx = 0) as -> by lia. done. }
    assert (Hp : (idx - 1) / 2 <= fuel).
    { pose proof (Nat.Div0.div_le_upper_bound (idx - 1) 2 fuel). lia. }
    assert (Hp' : (idx - 1) / 2 < n - 1).
    { apply Nat.Div0.div_lt_upper_bound. lia. }
    specialize (IH ((idx - 1) / 2) Hp ltac:(lia)).
    destruct (path fuel nd ((idx - 1) / 2)) as [s l]. cbn [fst snd] in *.
    cbn [verify_loop lookup list_lookup].
    rewrite verify_loop_shift.
    pose proof (Nat.div_mod_eq (idx - 1) 2) as Hdm.
    pose proof (Nat.mod_upper_bound (idx - 1) 2 ltac:(lia)) as Hmb.
    rewrite (Hnode _ Hp') in IH.
    destruct (Nat.eqb_spec (idx mod 2) 1) as [Hodd|Heven].
    + destruct (Nat.eqb_spec (idx mod 2) 0) as [?|_]; [lia|].
      pose proof (Nat.div_mod_eq idx 2).
      replace (2 * ((idx - 1) / 2) + 1) with idx in IH by lia.
      replace (2 * ((idx - 1) / 2) + 2) with (idx + 1) in IH by lia.
      exact IH.
    + pose proof (Nat.mod_upper_bound idx 2 ltac:(lia)).
      destruct (Nat.eqb_spec (idx mod 2) 0) as [Hev|?]; [|lia].
      pose proof (Nat.div_mod_eq idx 2).
      replace (2 * ((idx - 1) / 2) + 1) with (idx - 1) in IH by lia.
      replace (2 * ((idx - 1) / 2) + 2) with idx in IH by lia.
      exact IH.
Qed.


Lemma verify_loop_app (cur : bytes) (i : nat) (s1 s2 : list bytes) (l : list bool) :
  verify_loop cur i (s1 ++ s2) l =
  bind (verify_loop cur i s1 l) (fun c => verify_loop c (i + length s1) s2 l).
Proof.
  revert cur i. induction s1 as [|x s1 IH]; intros cur i; cbn [app verify_loop length].
  - cbn [bind]. by rewrite Nat.add_0_r.
  - destruct (l !! i) as [b|]; [|done]. rewrite IH.
    by replace (S i + length s1) with (i + S (length s1)) by lia.
Qed.

Lemma hashed_app (cur c : bytes) (i : nat) (s1 s2 : list bytes) (l : list bool) :
  verify_loop cur i s1 l = Ok c ->
  hashed cur i (s1 ++ s2) l = hashed cur i s1 l ++ hashed c (i + length s1) s2 l /\
  length (hashed cur i s1 l) = length s1.
Proof.
  revert cur i. induction s1 as [|x s1 IH]; intros cur i Hc;
    cbn [app verify_loop hashed length] in *.
  - injection Hc as <-. by rewrite Nat.add_0_r.
  - destruct (l !! i) as [b|]; [|done]. cbv zeta. cbn [length].
    destruct (IH _ _ Hc) as [-> ->].
    by replace (S i + length s1) with (i + S (length s1)) by lia.
Qed.

(** Two different starting values that climb to one root hash, at some
    level, two different byte strings to one digest. *)
Lemma verify_loop_binds (c1 c2 : bytes) (i : nat) (s : list bytes) (l : list bool)
    (r : bytes) :
  c1 <> c2 ->
  verify_loop c1 i s l = Ok r -> verify_loop c2 i s l = Ok r ->
  exists k x y, hashed c1 i s l !! k = Some x /\ hashed c2 i s l !! k = Some y /\
                x <> y /\ sha256 x = sha256 y.
Proof.
  revert c1 c2 i. induction s as [|x s IH]; intros c1 c2 i Hne H1 H2;
    cbn [verify_loop hashed] in *.
  - congruence.
  - destruct (l !! i) as [b|]; [|discriminate].
    set (m1 := if b then x ++ c1 else c1 ++ x) in *.
    set (m2 := if b then x ++ c2 else c2 ++ x) in *.
    assert (Hm : m1 <> m2).
    { subst m1 m2. destruct b; intros E.
      - by apply app_inv_head in E.
      - by apply app_inv_tail in E. }
    destruct (decide (sha256 m1 = sha256 m2)) as [E|E].
    + by exists 0, m1, m2.
    + destruct (IH _ _ _ E H1 H2) as (k & u & v & Hu & Hv & Huv).
      by exists (S k), u, v.
Qed.

(** Whether the loop runs through depends on the lengths alone. *)
Lemma verify_loop_runs (c1 c2 : bytes) (i : nat) (s1 s2 : list bytes)
    (l : list bool) (r : bytes) :
  length s1 = length s2 ->
  verify_loop c1 i s1 l = Ok r -> exists r', verify_loop c2 i s2 l = Ok r'.
Proof.
  revert c1 c2 i s2. induction s1 as [|x s1 IH]; intros c1 c2 i [|y s2] Hlen H;
    simplify_eq/=.
  - by eexists.
  - destruct (l !! i) as [b|]; [|discriminate]. by eapply IH.
Qed.

Lemma VerifyProof_fails (p : Proof) (expectedRoot r : bytes) :
  verify_loop (ChunkHash p) 0 (Siblings p) (IsLeft p) = Ok r ->
  r <> expectedRoot ->
  VerifyProof p expectedRoot = Err ErrMerkleProofFail.
Proof.
  intros Hr Hne. unfold VerifyProof. rewrite Hr. cbn [bind].
  destruct (bytesEqual r expectedRoot) eqn:E; [|done].
  by apply bytesEqual_spec in E.
Qed.

Lemma tampered_chunk_hash (p : Proof) (r h' : bytes) :
  verify_loop (ChunkHash p) 0 (Siblings p) (IsLeft p) = Ok r ->
  h' <> ChunkHash p ->
  let p' := {| ChunkIndex := ChunkIndex p; ChunkHash := h';
               Siblings := Siblings p; IsLeft := IsLeft p |} in
  VerifyProof p' r = Err ErrMerkleProofFail \/ collide p p'.
Proof.
  intros Hr Hne p'.
  destruct (verify_loop_runs _ h' _ _ (Siblings p) _ _ eq_refl Hr) as [r' Hr'].
  destruct (decide (r' = r)) as [->|Hrr].
  - right. destruct (verify_loop_binds _ _ _ _ _ _ Hne Hr' Hr) as (k & x & y & Hx & Hy & Hxy).
    exists k, y, x. unfold proof_inputs. cbn [ChunkHash Siblings IsLeft p'].
    destruct Hxy as [Hxy E]. by repeat split.
  - left. by apply (VerifyProof_fails _ _ r').
Qed.

Lemma changed_sibling_binds (c : bytes) (s1 s2 : list bytes) (s s' : bytes)
    (l : list bool) (r : bytes) :
  s <> s' ->
  verify_loop c 0 (s1 ++ s :: s2) l = Ok r ->
  verify_loop c 0 (s1 ++ s' :: s2) l = Ok r ->
  exists k x y, hashed c 0 (s1 ++ s :: s2) l !! k = Some x /\
                hashed c 0 (s1 ++ s' :: s2) l !! k = Some y /\
                x <> y /\ sha256 x = sha256 y.
Proof.
  intros Hne Hr Hr'. rewrite verify_loop_app in Hr, Hr'.
  destruct (verify_loop c 0 s1 l) as [c1|] eqn:Hc; [|discriminate].
  destruct (hashed_app _ _ _ _ (s :: s2) _ Hc) as [-> Hl].
  destruct (hashed_app _ _ _ _ (s' :: s2) _ Hc) as [-> _].
  cbn [bind verify_loop hashed] in *.
  destruct (l !! (0 + length s1)) as [b|]; [|discriminate].
  set (m := if b then s ++ c1 else c1 ++ s) in *.
  set (m' := if b then s' ++ c1 else c1 ++ s') in *.
  assert (Hm : m <> m').
  { subst m m'. destruct b; intros E.
    - by apply app_inv_tail in E.
    - by apply app_inv_head in E. }
  set (pre := hashed c 0 s1 l) in *.
  destruct (decide (sha256 m = sha256 m')) as [E|E].
  - exists (length pre), m, m'. rewrite !list_lookup_middle by done. by repeat split.
  - destruct (verify_loop_binds _ _ _ _ _ _ E Hr Hr') as (k & x & y & Hx & Hy & Hxy).
    exists (length pre + S k), x, y.
    rewrite !lookup_app_r by lia.
    replace (length pre + S k - length pre) with (S k) by lia.
    cbn [lookup list_lookup]. destruct Hxy. by repeat split.
Qed.

Lemma tampered_sibling (p : Proof) (r : bytes) (j : nat) (s s' : bytes) :
  verify_loop (ChunkHash p) 0 (Siblings p) (IsLeft p) = Ok r ->
  Siblings p !! j = Some s -> s' <> s ->
  let p' := {| ChunkIndex := ChunkIndex p; ChunkHash := ChunkHash p;
               Siblings := <[j := s']> (Siblings p); IsLeft := IsLeft p |} in
  VerifyProof p' r = Err ErrMerkleProofFail \/ collide p p'.
Proof.
  intros Hr Hj Hne p'.
  assert (Hlen : length (Siblings p) = length (<[j := s']> (Siblings p)))
    by (by rewrite length_insert).
  destruct (verify_loop_runs _ (ChunkHash p) _ _ _ _ _ Hlen Hr) as [r' Hr'].
  destruct (decide (r' = r)) as [->|Hrr].
  2:{ left. by apply (VerifyProof_fails _ _ r'). }
  right. unfold collide, proof_inputs. subst p'.
  destruct p as [ci ch sibs l]. cbn [ChunkHash Siblings IsLeft] in *.
  pose proof (lookup_lt_Some _ _ _ Hj) as Hjlt.
  pose proof (take_drop_middle sibs j s Hj) as Hs.
  rewrite (insert_take_drop sibs j s' Hjlt) in Hr' |- *.
  remember (take j sibs) as s1 eqn:E1. remember (drop (S j) sibs) as s2 eqn:E2.
  clear E1 E2 Hj Hjlt Hlen. subst sibs.
  apply (changed_sibling_binds ch s1 s2 s s' l r); [congruence|done|done].
Qed.

(** C5: for a non-empty list of chunk hashes the tree is built, and for
    every index in its range (which covers every chunk) GenerateProof
    gives a proof that VerifyProof accepts against the root; after any
    byte of the proof's chunk hash, or of any of its sibling hashes, is
    changed, VerifyProof returns MerkleProofFail, unless verifying the
    proof and the changed proof hashes two different byte strings to one
    digest, a SHA-256 collision in hand. *)
Theorem merkle_proof_verifies_and_binds (chunkHashes : list bytes) :
  chunkHashes <> [] ->
  exists t, BuildMerkleTree chunkHashes = Ok t /\
    length chunkHashes <= length (leaves t) /\
    forall i : Z, (0 <= i < Z.of_nat (length (leaves t)))%Z ->
      exists p, GenerateProof t i = Ok p /\
        (forall h, chunkHashes !! Z.to_nat i = Some h -> ChunkHash p = h) /\
        VerifyProof p (root t) = Ok tt /\
        (forall k b v, ChunkHash p !! k = Some b -> v <> b ->
           let p' := {| ChunkIndex := ChunkIndex p;
                        ChunkHash := <[k := v]> (ChunkHash p);
                        Siblings := Siblings p; IsLeft := IsLeft p |} in
           VerifyProof p' (root t) = Err ErrMerkleProofFail \/ collide p p') /\
        (forall j s k b v, Siblings p !! j = Some s -> s !! k = Some b -> v <> b ->
           let p' := {| ChunkIndex := ChunkIndex p; ChunkHash := ChunkHash p;
                        Siblings := <[j := <[k := v]> s]> (Siblings p);
                        IsLeft := IsLeft p |} in
           VerifyProof p' (root t) = Err ErrMerkleProofFail \/ collide p p').
Proof.
  intros Hne.
  destruct (BuildMerkleTree_spec chunkHashes Hne)
    as (t & Ht & Hge & Hpos & Hlen & Hroot & Hleaf & Hplace & Hnode).
  exists t. split; [done|]. split; [done|]. intros i Hi.
  unfold GenerateProof.
  destruct (Z.ltb_spec i 0); [lia|]. destruct (Z.geb_spec i (Z.of_nat (length (leaves t)))); [lia|].
  cbn [orb]. rewrite proof_loop_path. cbn [app].
  set (idx := length (leaves t) - 1 + Z.to_nat i).
  eexists. split; [reflexivity|]. cbn [ChunkHash Siblings IsLeft ChunkIndex].
  assert (Hclimb : verify_loop (leaves t !!! Z.to_nat i) 0
                     (path idx (nodes t) idx).1 (path idx (nodes t) idx).2
                   = Ok (root t)).
  { rewrite Hroot, <- Hplace by lia. fold idx.
    apply (verify_path _ (length (leaves t))); [done|done|]. subst idx. lia. }
  split; [|split; [|split]].
  - intros h Hh. by apply Hleaf.
  - unfold VerifyProof. cbn [ChunkHash Siblings IsLeft]. rewrite Hclimb. cbn [bind].
    by rewrite (proj2 (bytesEqual_spec _ _) eq_refl).
  - intros k b v Hk Hv.
    apply (tampered_chunk_hash
             {| ChunkIndex := i; ChunkHash := leaves t !!! Z.to_nat i;
                Siblings := (path idx (nodes t) idx).1;
                IsLeft := (path idx (nodes t) idx).2 |}); [done|].
    cbn [ChunkHash]. intros E.
    assert (<[k := v]> (leaves t !!! Z.to_nat i) !! k = Some b) as Hk' by (by rewrite E).
    rewrite list_lookup_insert_eq in Hk' by (by eapply lookup_lt_Some). congruence.
  - intros j s k b v Hj Hk Hv.
    apply (tampered_sibling
             {| ChunkIndex := i; ChunkHash := leaves t !!! Z.to_nat i;
                Siblings := (path idx (nodes t) idx).1;
                IsLeft := (path idx (nodes t) idx).2 |} _ j s); [done|done|].
    intros E.
    assert (<[k := v]> s !! k = Some b) as Hk' by (by rewrite E).
    rewrite list_lookup_insert_eq in Hk' by (by eapply lookup_lt_Some). congruence.
Qed.

End merkle_proofs.

(** Three chunk hashes, padded to four leaves: the proof for the last chunk
    is accepted against the root. *)
Lemma merkle_proof_verifies_and_binds_witness :
  let hs := [Merkle.HashChunk (bytes_of_string "chunk0");
             Merkle.HashChunk (bytes_of_string "chunk1");
             Merkle.HashChunk (bytes_of_string "chunk2")] in
  exists t, Merkle.BuildMerkleTree hs = Ok t /\
    exists p, Merkle.GenerateProof t 2 = Ok p /\
              Merkle.VerifyProof p (Merkle.root t) = Ok tt.
Proof.
  intros hs.
  destruct (merkle_proof_verifies_and_binds hs ltac:(discriminate))
    as (t & Ht & Hlen & Hall).
  exists t. split; [exact Ht|].
  destruct (Hall 2%Z ltac:(cbn in Hlen; lia)) as (p & Hp & _ & Hv & _).
  exists p. split; [exact Hp|exact Hv].
Defined.

(** The repository's own test: four chunks, every proof verifies, and the
    proof of chunk 0 with the first byte of its hash inverted is refused. *)
Example merkle_test_vector :
  let hs := map (fun s => Merkle.HashChunk (bytes_of_string s))
                ["chunk0"; "chunk1"; "chunk2"; "chunk3"]%string in
  exists t, Merkle.BuildMerkleTree hs = Ok t /\
    length (Merkle.root t) = 32 /\
    Forall (fun i => exists p, Merkle.GenerateProof t i = Ok p /\
                               Merkle.VerifyProof p (Merkle.root t) = Ok tt)
           [0; 1; 2; 3]%Z /\
    exists p b, Merkle.GenerateProof t 0 = Ok p /\
      Merkle.ChunkHash p !! 0 = Some b /\
      Merkle.VerifyProof
        {| Merkle.ChunkIndex := 0;
           Merkle.ChunkHash := <[0 := byte_of_Z (Z.lxor (Z_of_byte b) 255)]> (Merkle.ChunkHash p);
           Merkle.Siblings := Merkle.Siblings p;
           Merkle.IsLeft := Merkle.IsLeft p |} (Merkle.root t)
      = Err ErrMerkleProofFail.
Proof.
  eexists. split; [vm_compute; reflexivity|]. split; [vm_compute; reflexivity|]. split.
  - repeat constructor; eexists; (split; [vm_compute; reflexivity|vm_compute; reflexivity]).
  - do 2 eexists. split; [vm_compute; reflexivity|].
    split; [vm_compute; reflexivity|vm_compute; reflexivity].
Qed.

(** ** Splitting and reassembling *)

Section chunker.
Import Chunker.
Local Open Scope Z_scope.

Lemma flat_map_snoc {A B} (f : A -> list B) (l : list A) (x : A) :
  flat_map f (l ++ [x]) = flat_map f l ++ f x.
Proof. rewrite flat_map_app. simpl. by rewrite app_nil_r. Qed.

(** The loop of Split keeps: the data of the chunks so far is the first
    [i] bytes, the chunks carry their positions as indices, and [i] is 0
    or at least the chunk size. *)
Lemma split_loop_spec (c : Chunker) (data : bytes) :
  0 < chunkSize c < 2 ^ 63 ->
  Z.of_nat (length data) < 2 ^ 62 ->
  forall fuel i chunks,
    0 <= i -> (i = 0 \/ chunkSize c <= i) ->
    Z.of_nat (length data) <= i + Z.of_nat fuel ->
    flat_map Data chunks = take (Z.to_nat i) data ->
    map Index chunks = map Z.of_nat (seq 0 (length chunks)) ->
    let out := split_loop fuel c data i chunks in
    flat_map Data out = data /\
    map Index out = map Z.of_nat (seq 0 (length out)) /\
    (length chunks <= length out)%nat.
Proof.
  intros Hcs Hlen. induction fuel as [|fuel IH]; intros i chunks Hi Hmul Hfuel Hdata Hidx;
    cbn [split_loop]; cbv zeta.
  - split; [|done]. rewrite Hdata. apply take_ge. lia.
  - destruct (Z.ltb_spec i (Z.of_nat (length data))) as [Hlt|Hge].
    2:{ split; [|done]. rewrite Hdata. apply take_ge. lia. }
    rewrite int64_small by lia.
    set (e := if i + chunkSize c >? Z.of_nat (length data)
              then Z.of_nat (length data) else i + chunkSize c).
    assert (He : i < e <= Z.of_nat (length data) /\
                 (e = i + chunkSize c \/
                  (e = Z.of_nat (length data) /\ Z.of_nat (length data) <= i + chunkSize c))).
    { subst e. destruct (Z.gtb_spec (i + chunkSize c) (Z.of_nat (length data))); lia. }
    clearbody e.
    edestruct (IH (i + chunkSize c)
                 (chunks ++ [{| Index := Z.of_nat (length chunks);
                                Data := slice (Z.to_nat i) (Z.to_nat e) data;
                                Hash := Merkle.HashChunk (slice (Z.to_nat i) (Z.to_nat e) data) |}]))
      as (H1 & H2 & H3); try lia.
    + rewrite flat_map_snoc, Hdata. cbn [Data]. unfold slice.
      rewrite take_take_drop.
      replace (Z.to_nat i + (Z.to_nat e - Z.to_nat i))%nat with (Z.to_nat e) by lia.
      destruct He as [_ [->|[-> Hover]]]; [done|].
      rewrite !take_ge; [done| |]; lia.
    + rewrite map_app, length_app, Hidx. cbn [map length Index].
      rewrite Nat.add_1_r, seq_S, map_app. done.
    + split; [done|]. split; [done|]. rewrite length_app in H3. simpl in H3. lia.
Qed.

Lemma Split_spec (c : Chunker) (data : bytes) :
  0 < chunkSize c < 2 ^ 63 ->
  Z.of_nat (length data) < 2 ^ 62 ->
  flat_map Data (Split c data) = data /\
  map Index (Split c data) = map Z.of_nat (seq 0 (length (Split c data))).
Proof.
  intros Hcs Hlen. unfold Split.
  edestruct (split_loop_spec c data Hcs Hlen (length data) 0 []) as (H1 & H2 & _);
    try done; try lia.
Qed.


Lemma sort_pass_select (pre : list Chunk) (x : Chunk) (seen todo : list Chunk) :
  fold_left (swap_if_less (length pre))
            (seq (S (length pre + length seen)) (length todo))
            (pre ++ x :: seen ++ todo)
  = pre ++ select x seen todo.
Proof.
  revert x seen. induction todo as [|y todo IH]; intros x seen.
  - cbn [length seq fold_left select]. by rewrite app_nil_r.
  - cbn [length seq fold_left select]. unfold swap_if_less at 2.
    rewrite (lookup_app_r pre) by lia. rewrite Nat.sub_diag. cbn [lookup list_lookup].
    rewrite (lookup_app_r pre) by lia.
    replace (S (length pre + length seen) - length pre)%nat with (S (length seen)) by lia.
    cbn [lookup list_lookup]. rewrite (lookup_app_r seen) by lia.
    rewrite Nat.sub_diag. cbn [lookup list_lookup].
    destruct (Index y <? Index x).
    + replace (<[S (length pre + length seen) := x]>
                 (<[length pre := y]> (pre ++ x :: seen ++ y :: todo)))
        with (pre ++ y :: (seen ++ [x]) ++ todo).
      * specialize (IH y (seen ++ [x])). rewrite length_app in IH. cbn [length] in IH.
        replace (S (length pre + (length seen + 1))) with (S (S (length pre + length seen)))
          in IH by lia.
        exact IH.
      * rewrite (insert_app_r_alt pre) by lia. rewrite Nat.sub_diag. cbn [insert list_insert].
        rewrite (insert_app_r_alt pre) by lia.
        replace (S (length pre + length seen) - length pre)%nat with (S (length seen)) by lia.
        cbn [insert list_insert]. rewrite (insert_app_r_alt seen) by lia.
        rewrite Nat.sub_diag. cbn [insert list_insert]. by rewrite <- app_assoc.
    + specialize (IH x (seen ++ [y])). rewrite length_app in IH. cbn [length] in IH.
      replace (S (length pre + (length seen + 1))) with (S (S (length pre + length seen)))
        in IH by lia.
      rewrite <- app_assoc in IH. exact IH.
Qed.

Lemma select_spec (x : Chunk) (seen todo : list Chunk) :
  Forall (index_le x) seen ->
  exists m rest, select x seen todo = m :: rest /\
    m :: rest ≡ₚ x :: seen ++ todo /\ Forall (index_le m) rest.
Proof.
  revert x seen. induction todo as [|y todo IH]; intros x seen Hseen; cbn [select].
  - exists x, seen. by rewrite app_nil_r.
  - destruct (Z.ltb_spec (Index y) (Index x)) as [Hlt|Hge].
    + destruct (IH y (seen ++ [x])) as (m & rest & -> & Hp & Hm).
      { apply Forall_app. split.
        - eapply Forall_impl; [exact Hseen|]. unfold index_le. intros; lia.
        - constructor; [|done]. unfold index_le. lia. }
      exists m, rest. split; [done|]. split; [|done].
      rewrite Hp. rewrite <- app_assoc. cbn [app].
      rewrite <- !Permutation_middle. apply Permutation_swap.
    + destruct (IH x (seen ++ [y])) as (m & rest & -> & Hp & Hm).
      { apply Forall_app. split; [done|]. constructor; [|done]. unfold index_le. lia. }
      exists m, rest. split; [done|]. split; [|done].
      rewrite Hp. by rewrite <- app_assoc.
Qed.

Lemma sort_from (k : nat) :
  forall pre post : list Chunk,
    length post = k ->
    StronglySorted index_le pre ->
    Forall (fun a => Forall (index_le a) post) pre ->
    let out := fold_left sort_pass (seq (length pre) k) (pre ++ post) in
    StronglySorted index_le out /\ out ≡ₚ pre ++ post.
Proof.
  induction k as [|k IH]; intros pre post Hk Hpre Hle; cbv zeta.
  - destruct post; [|done]. cbn [seq fold_left]. by rewrite app_nil_r.
  - destruct post as [|x rest]; [done|]. cbn [seq fold_left].
    assert (Hpass : sort_pass (pre ++ x :: rest) (length pre) = pre ++ select x [] rest).
    { unfold sort_pass. rewrite length_app. cbn [length].
      replace (length pre + S (length rest) - S (length pre))%nat with (length rest) by lia.
      pose proof (sort_pass_select pre x [] rest) as H. cbn [length app] in H.
      by rewrite Nat.add_0_r in H. }
    rewrite Hpass.
    destruct (select_spec x [] rest) as (m & rest' & -> & Hp & Hm); [constructor|].
    cbn [app] in Hp.
    specialize (IH (pre ++ [m]) rest').
    rewrite length_app in IH. cbn [length] in IH. rewrite Nat.add_1_r in IH.
    rewrite <- app_assoc in IH. cbn [app] in IH.
    destruct IH as [Hs Hperm].
    + apply Permutation_length in Hp. cbn [length] in *. lia.
    + apply StronglySorted_app. split; [|split; [done|repeat constructor]].
      intros a b Ha Hb. apply list_elem_of_singleton in Hb as ->.
      rewrite Forall_forall in Hle. specialize (Hle a Ha). rewrite Forall_forall in Hle.
      apply Hle. rewrite <- Hp. by left.
    + apply Forall_app. split.
      * eapply Forall_impl; [exact Hle|]. intros a Ha. cbn beta in *.
        rewrite Forall_forall in Ha |- *. intros b Hb. apply Ha. rewrite <- Hp. by right.
      * by constructor.
    + split; [done|]. rewrite Hperm. by rewrite Hp.
Qed.

Lemma sort_chunks_spec (chunks : list Chunk) :
  StronglySorted index_le (sort_chunks chunks) /\ sort_chunks chunks ≡ₚ chunks.
Proof.
  apply (sort_from (length chunks) [] chunks); [done|constructor|constructor].
Qed.


Lemma indices_sorted (l : list Chunk) (a : nat) :
  map Index l = map Z.of_nat (seq a (length l)) -> StronglySorted index_le l.
Proof.
  revert a. induction l as [|x l IH]; intros a Hl; [constructor|].
  cbn [map length seq] in Hl. injection Hl as Hx Hl.
  constructor; [by apply (IH (S a))|].
  apply Forall_forall. intros y Hy.
  apply list_elem_of_lookup in Hy as [j Hj].
  assert (Hyi : map Index l !! j = Some (Index y)) by (by rewrite list_lookup_fmap, Hj).
  rewrite Hl, list_lookup_fmap in Hyi.
  destruct (seq (S a) (length l) !! j) as [v|] eqn:Hv; [|done].
  apply lookup_seq in Hv as [-> _]. injection Hyi as Hyi.
  unfold index_le. lia.
Qed.

Lemma indices_determine (l : list Chunk) (x y : Chunk) :
  map Index l = map Z.of_nat (seq 0 (length l)) ->
  x ∈ l -> y ∈ l -> Index x = Index y -> x = y.
Proof.
  intros Hl Hx Hy E.
  apply list_elem_of_lookup in Hx as [i Hi]. apply list_elem_of_lookup in Hy as [j Hj].
  assert (Hxi : map Index l !! i = Some (Index x)) by (by rewrite list_lookup_fmap, Hi).
  assert (Hyj : map Index l !! j = Some (Index y)) by (by rewrite list_lookup_fmap, Hj).
  rewrite Hl, list_lookup_fmap in Hxi, Hyj.
  destruct (seq 0 (length l) !! i) as [v|] eqn:Hv; [|done].
  destruct (seq 0 (length l) !! j) as [w|] eqn:Hw; [|done].
  apply lookup_seq in Hv as [-> _]. apply lookup_seq in Hw as [-> _].
  cbn in Hxi, Hyj. assert (i = j) as -> by (simplify_eq; lia). congruence.
Qed.

(** C8: for every chunk size above zero, the chunks that Split makes of
    the data, handed to Reassemble in any order, give the data back; Split
    of no data gives no chunk, and Reassemble of no chunk gives no data.
    (Go's [int] has 64 bits and no slice reaches 2^62 bytes.) *)
Theorem Reassemble_Split (chunkSize : Z) (data : bytes) (chunks : list Chunk) :
  0 < chunkSize < 2 ^ 63 ->
  Z.of_nat (length data) < 2 ^ 62 ->
  chunks ≡ₚ Split (NewChunker chunkSize) data ->
  Reassemble chunks = data /\
  Reassemble (Split (NewChunker chunkSize) data) = data /\
  Split (NewChunker chunkSize) [] = [] /\
  Reassemble [] = [].
Proof.
  intros Hcs Hlen Hperm.
  assert (Hc : 0 < Chunker.chunkSize (NewChunker chunkSize) < 2 ^ 63).
  { unfold NewChunker. cbn [Chunker.chunkSize].
    destruct (Z.leb_spec chunkSize 0); lia. }
  destruct (Split_spec (NewChunker chunkSize) data Hc Hlen) as [Hdata Hidx].
  assert (Hany : forall l, l ≡ₚ Split (NewChunker chunkSize) data -> Reassemble l = data).
  { intros l Hl. unfold Reassemble.
    destruct (sort_chunks_spec l) as [Hsorted Hp].
    rewrite (StronglySorted_unique_strong index_le (sort_chunks l)
               (Split (NewChunker chunkSize) data)); [done| |done| |].
    - intros x1 x2 Hx1 Hx2 H12 H21.
      apply (indices_determine (Split (NewChunker chunkSize) data)); [done| |done|].
      + by rewrite <- Hl, <- Hp.
      + unfold index_le in *. lia.
    - by apply (indices_sorted _ 0%nat).
    - by rewrite Hp. }
  split; [by apply Hany|]. split; [by apply Hany|]. done.
Qed.

End chunker.

(** Thirteen bytes in chunks of four, reassembled from the chunks in
    reverse order. *)
Lemma Reassemble_Split_witness :
  Chunker.Reassemble
    (rev (Chunker.Split (Chunker.NewChunker 4) (bytes_of_string "hello, world!")))
  = bytes_of_string "hello, world!".
Proof.
  refine (proj1 (Reassemble_Split 4 (bytes_of_string "hello, world!") _ _ _ _)).
  - lia.
  - vm_compute. reflexivity.
  - symmetry. apply Permutation_rev.
Defined.

(** ** Verifying a HELLO *)

Section hello.
Context {S : Ed25519}.
Import Hello Props.

Lemma flip_bit_length (i : nat) (bs : bytes) : length (flip_bit i bs) = length bs.
Proof. unfold flip_bit. destruct (bs !! (i / 8)); [apply length_insert|done]. Qed.

Lemma lxor_bit_changes_byte (b : byte) (n : nat) :
  n < 8 -> byte_of_Z (Z.lxor (Z_of_byte b) (2 ^ Z.of_nat n)) <> b.
Proof.
  intros Hn E.
  assert (E' : (Z.lxor (Z_of_byte b) (2 ^ Z.of_nat n) mod 2 ^ 8 = Z_of_byte b mod 2 ^ 8)%Z).
  { change (2 ^ 8)%Z with 256%Z.
    rewrite <- Z_of_byte_of_Z, E. symmetry. apply Z.mod_small. apply Z_of_byte_range. }
  apply (f_equal (fun z => Z.testbit z (Z.of_nat n))) in E'.
  rewrite !Z.mod_pow2_bits_low, Z.lxor_spec, Z.pow2_bits_true in E' by lia.
  by destruct (Z.testbit (Z_of_byte b) (Z.of_nat n)).
Qed.

Lemma flip_bit_ne (i : nat) (bs : bytes) : i < 8 * length bs -> flip_bit i bs <> bs.
Proof.
  intros Hi E. unfold flip_bit in E.
  assert (Hlt : i / 8 < length bs) by (apply Nat.Div0.div_lt_upper_bound; lia).
  destruct (bs !! (i / 8)) as [b|] eqn:Hb.
  - apply (f_equal (fun l => l !! (i / 8))) in E.
    rewrite list_lookup_insert_eq, Hb in E by done. apply (inj Some) in E.
    apply lxor_bit_changes_byte in E; [done|]. apply Nat.mod_upper_bound. lia.
  - apply lookup_ge_None in Hb. lia.
Qed.

Lemma ParsePeerIDHex_String (id : bytes) :
  length id = 32 -> Identity.ParsePeerIDHex (Identity.String id) = Ok id.
Proof.
  intros Hlen. unfold Identity.ParsePeerIDHex, Identity.String, bytes_of_string.
  rewrite String.list_byte_of_string_of_list_byte, hex_roundtrip. cbn [bind].
  by rewrite decide_True.
Qed.

Lemma ParsePeerIDHex_length (s : string) (id : bytes) :
  Identity.ParsePeerIDHex s = Ok id -> length id = 32.
Proof.
  unfold Identity.ParsePeerIDHex. destruct (hex_DecodeString _) as [b|]; [|done].
  cbn [bind]. case_decide; [|done]. by intros [= <-].
Qed.

(** C1: Verify succeeds exactly when the public key has 32 bytes, the peer
    id parses to the SHA-256 of the public key, and Ed25519 accepts the
    signature over the signing bytes.  So on a HELLO that verifies: with
    one bit of the signature flipped, Ed25519 rejecting the flipped
    signature, Verify returns BadSignature; with one bit of the binary
    peer id flipped, Verify returns PeerIDMismatch.  A public key of any
    other length gives MissingKey. *)
Theorem Verify_spec (h : Hello) :
  (Verify h = Ok tt <->
     length (PublicKey h) = 32 /\
     exists id sb,
       Identity.ParsePeerIDHex (PeerID h) = Ok id /\
       sha256 (PublicKey h) = id /\
       SigningBytes h = Ok sb /\
       ed25519_Verify (PublicKey h) sb (Signature h) = true) /\
  (length (PublicKey h) <> 32 -> Verify h = Err ErrHelloMissingKey) /\
  (Verify h = Ok tt ->
     forall i sb, i < 8 * length (Signature h) ->
       SigningBytes h = Ok sb ->
       ed25519_Verify (PublicKey h) sb (flip_bit i (Signature h)) = false ->
       Verify (with_Signature h (flip_bit i (Signature h))) = Err ErrHelloBadSignature) /\
  (Verify h = Ok tt ->
     forall i id, i < 8 * 32 ->
       Identity.ParsePeerIDHex (PeerID h) = Ok id ->
       Verify (with_PeerID h (Identity.String (flip_bit i id))) = Err ErrHelloPeerIDMismatch).
Proof.
  assert (Hiff : Verify h = Ok tt <->
     length (PublicKey h) = 32 /\
     exists id sb,
       Identity.ParsePeerIDHex (PeerID h) = Ok id /\
       sha256 (PublicKey h) = id /\
       SigningBytes h = Ok sb /\
       ed25519_Verify (PublicKey h) sb (Signature h) = true).
  { unfold Verify, SigningBytes, PublicKeySize, Identity.PeerIDFromPublicKey.
    destruct (decide (length (PublicKey h) = 32)) as [Hpk|Hpk].
    2:{ split; [done|]. by intros [? _]. }
    destruct (Identity.ParsePeerIDHex (PeerID h)) as [id|e]; cbn [bind].
    2:{ split; [done|]. by intros (_ & ? & ? & ? & _). }
    destruct (decide (sha256 (PublicKey h) = id)) as [Hid|Hid].
    2:{ split; [done|]. intros (_ & ? & ? & ? & ? & _). congruence. }
    destruct (ed25519_Verify (PublicKey h) _ (Signature h)) eqn:Hsig.
    - split; [|done]. intros _. split; [done|]. by eexists _, _.
    - split; [done|]. intros (_ & ? & ? & ? & _ & ? & ?). congruence. }
  split; [exact Hiff|]. split; [|split].
  - intros Hpk. unfold Verify, PublicKeySize. by rewrite decide_False.
  - intros Hv i sb Hi Hsb Hrej.
    apply Hiff in Hv as (Hpk & id & sb' & Hid & Hsha & Hsb' & _).
    unfold Verify, PublicKeySize, Identity.PeerIDFromPublicKey.
    change (SigningBytes (with_Signature h (flip_bit i (Signature h))))
      with (SigningBytes h).
    cbn [with_Signature PublicKey PeerID Signature].
    rewrite decide_True by done. rewrite Hid. cbn [bind].
    rewrite decide_True by done. rewrite Hsb. cbn [bind]. by rewrite Hrej.
  - intros Hv i id Hi Hid.
    apply Hiff in Hv as (Hpk & id' & _ & Hid' & Hsha & _).
    assert (id' = id) as -> by congruence.
    pose proof (ParsePeerIDHex_length _ _ Hid) as Hlen.
    unfold Verify, PublicKeySize, Identity.PeerIDFromPublicKey.
    cbn [with_PeerID PublicKey PeerID].
    rewrite decide_True by done.
    rewrite ParsePeerIDHex_String by (by rewrite flip_bit_length). cbn [bind].
    rewrite decide_False; [done|]. rewrite Hsha. intros E. symmetry in E.
    apply flip_bit_ne in E; [done|lia].
Qed.

End hello.

(** A HELLO that verifies under the example signature check, then with
    the first bit of its signature flipped, then with the last bit of its
    binary peer id flipped. *)
Lemma Verify_spec_witness :
  Hello.Verify (S := Example.signature) example_hello = Ok tt /\
  Hello.Verify (S := Example.signature)
    (Props.with_Signature example_hello (flip_bit 0 (Hello.Signature example_hello)))
    = Err ErrHelloBadSignature /\
  Hello.Verify (S := Example.signature)
    (Props.with_PeerID example_hello
       (Identity.String (flip_bit 255 (sha256 (replicate 32 x01)))))
    = Err ErrHelloPeerIDMismatch.
Proof.
  assert (Hv : Hello.Verify (S := Example.signature) example_hello = Ok tt)
    by (vm_compute; reflexivity).
  assert (Hsb : Hello.SigningBytes example_hello = Ok example_signing_bytes)
    by (vm_compute; reflexivity).
  assert (Hrej : ed25519_Verify (Ed25519 := Example.signature)
                   (Hello.PublicKey example_hello) example_signing_bytes
                   (flip_bit 0 (Hello.Signature example_hello)) = false)
    by (vm_compute; reflexivity).
  assert (Hid : Identity.ParsePeerIDHex (Hello.PeerID example_hello)
                = Ok (sha256 (replicate 32 x01)))
    by (vm_compute; reflexivity).
  assert (Hlen : 0 < 8 * length (Hello.Signature example_hello))
    by (vm_compute; lia).
  pose proof (@Verify_spec Example.signature example_hello) as (_ & _ & Hsig & Hpid).
  split; [exact Hv|]. split.
  - exact (Hsig Hv 0 example_signing_bytes Hlen Hsb Hrej).
  - exact (Hpid Hv 255 (sha256 (replicate 32 x01)) ltac:(lia) Hid).
Defined.

(** ** Ticket encoding *)

Section tickets.
Context {C : Cipher} {CC : CipherCorrect C}.
Import Ticket Props.
Local Open Scope Z_scope.

Lemma EncodeTicket_eq (ts : TicketStore) (t : Ticket) (prefix : bytes) :
  length (key ts) = 32%nat ->
  EncodeTicket ts t (Some prefix) =
  Ok (ID t ++ ticket_nonce prefix
      ++ cipher_Seal (key ts) (ticket_nonce prefix) (ticket_plain t) (ID t)).
Proof.
  intros Hk. unfold EncodeTicket, AEAD.NewAEAD, AEAD.KeySize.
  rewrite decide_True by done. reflexivity.
Qed.

Lemma ticket_plain_length (t : Ticket) :
  Ticket_ok t -> length (ticket_plain t) = 80%nat.
Proof.
  intros (_ & Hp & Hs & _). unfold ticket_plain.
  rewrite !length_app, !PutUint64_length. lia.
Qed.

Lemma slice_app_l (a b : bytes) (hi : nat) :
  length a = hi -> slice 0 hi (a ++ b) = a.
Proof.
  intros H. unfold slice. rewrite drop_0, Nat.sub_0_r. by apply take_app_length'.
Qed.

Lemma slice_app_r (a b : bytes) (n lo hi lo' hi' : nat) :
  length a = n -> lo = (n + lo')%nat -> hi = (n + hi')%nat ->
  slice lo hi (a ++ b) = slice lo' hi' b.
Proof.
  intros Ha -> ->. unfold slice. rewrite <- drop_drop.
  rewrite drop_app_length' by done. f_equal. lia.
Qed.

Lemma slice_all (a : bytes) (hi : nat) : length a = hi -> slice 0 hi a = a.
Proof. intros H. unfold slice. rewrite drop_0, Nat.sub_0_r. apply take_ge. lia. Qed.

Lemma decode_int64_field (z : Z) (rest : bytes) :
  - 2 ^ 63 <= z < 2 ^ 63 ->
  int64 (Uint64 (slice 0 8 (PutUint64 (uint64 z) ++ rest))) = z.
Proof.
  intros Hz. rewrite slice_app_l by done.
  pose proof (Uint64_PutUint64 (uint64 z) []) as E. rewrite app_nil_r in E.
  rewrite E. unfold uint64. rewrite Z.mod_mod by lia. by apply int64_uint64.
Qed.

Lemma ticket_plain_decode (t : Ticket) :
  Ticket_ok t ->
  {| ID := ID t;
     PeerID := slice 0 32 (ticket_plain t);
     IssuedAt := int64 (Uint64 (slice 32 40 (ticket_plain t)));
     ExpiresAt := int64 (Uint64 (slice 40 48 (ticket_plain t)));
     SessionKey := slice 48 80 (ticket_plain t) |} = t.
Proof.
  intros (Hid & Hp & Hs & Hi & He). unfold ticket_plain.
  destruct t as [id ia ea pid sk]. cbn [ID PeerID IssuedAt ExpiresAt SessionKey] in *.
  f_equal.
  - rewrite (slice_app_r pid _ 32 32 40 0 8) by done. by apply decode_int64_field.
  - rewrite (slice_app_r pid _ 32 40 48 8 16) by done.
    rewrite (slice_app_r (PutUint64 _) _ 8 8 16 0 8) by done.
    by apply decode_int64_field.
  - by apply slice_app_l.
  - rewrite (slice_app_r pid _ 32 48 80 16 48) by done.
    rewrite (slice_app_r (PutUint64 _) _ 8 16 48 8 40) by done.
    rewrite (slice_app_r (PutUint64 _) _ 8 8 40 0 32) by done.
    by apply slice_all.
Qed.

(** What DecodeTicket does with [id ++ nonce ++ ct] of the right lengths. *)
Lemma DecodeTicket_eq (ts : TicketStore) (id nonce ct : bytes) (now : Z) (prefix : bytes) :
  length (key ts) = 32%nat -> length id = 16%nat -> length nonce = 12%nat ->
  (96 <= length ct)%nat ->
  DecodeTicket ts (id ++ nonce ++ ct) now (Some prefix) =
  match cipher_Open (key ts) nonce ct id with
  | None => Err ErrTicketInvalid
  | Some plain =>
      if decide (length plain = 80%nat) then
        let ticket := {| ID := id;
                         PeerID := slice 0 32 plain;
                         IssuedAt := int64 (Uint64 (slice 32 40 plain));
                         ExpiresAt := int64 (Uint64 (slice 40 48 plain));
                         SessionKey := slice 48 80 plain |} in
        if now >? ExpiresAt ticket then Err ErrTicketExpired else Ok ticket
      else Err ErrTicketInvalid
  end.
Proof.
  intros Hk Hid Hn Hct. unfold DecodeTicket, AEAD.NewAEAD, AEAD.KeySize, AEAD.Open,
    AEAD.NonceSize, AEAD.Overhead.
  rewrite !length_app. rewrite decide_False by lia. rewrite decide_True by done.
  cbn [bind AEAD.key]. rewrite !(slice_app_l id (nonce ++ ct) 16 Hid).
  rewrite (drop_app_length' id) by done.
  rewrite length_app. rewrite decide_False by lia.
  rewrite (take_app_length' nonce) by done. rewrite (drop_app_length' nonce) by done.
  destruct (cipher_Open (key ts) nonce ct id) as [plain|]; [|done].
  reflexivity.
Qed.

(** C7: a ticket encoded by a store decodes to itself exactly when the
    time is not past its expiry and the decoding store has the same key
    (the cipher refusing the ciphertext under any other key); past the
    expiry, decoding under the same key gives TicketExpired; under a key
    the cipher refuses, TicketInvalid; and after one byte of the encoding
    is changed, the cipher refusing the changed encoding, TicketInvalid. *)
Theorem ticket_round_trip (ts ts' : TicketStore) (t : Ticket)
    (prefix prefix' : bytes) (now : Z) :
  Ticket_ok t ->
  length (key ts) = 32%nat -> length (key ts') = 32%nat -> length prefix = 4%nat ->
  exists data, EncodeTicket ts t (Some prefix) = Ok data /\
    length data = 124%nat /\
    (key ts' = key ts -> now <= ExpiresAt t ->
       DecodeTicket ts' data now (Some prefix') = Ok t) /\
    (key ts' = key ts -> now > ExpiresAt t ->
       DecodeTicket ts' data now (Some prefix') = Err ErrTicketExpired) /\
    (cipher_Open (key ts') (slice 16 28 data) (drop 28 data) (slice 0 16 data) = None ->
       DecodeTicket ts' data now (Some prefix') = Err ErrTicketInvalid) /\
    ((key ts' <> key ts ->
        cipher_Open (key ts') (slice 16 28 data) (drop 28 data) (slice 0 16 data) = None) ->
       (DecodeTicket ts' data now (Some prefix') = Ok t <->
        now <= ExpiresAt t /\ key ts' = key ts)) /\
    (forall k b v, data !! k = Some b -> v <> b ->
       cipher_Open (key ts) (slice 16 28 (<[k := v]> data)) (drop 28 (<[k := v]> data))
                   (slice 0 16 (<[k := v]> data)) = None ->
       DecodeTicket ts (<[k := v]> data) now (Some prefix') = Err ErrTicketInvalid).
Proof.
  intros Hok Hk Hk' Hp.
  pose proof Hok as (Hid & _).
  rewrite EncodeTicket_eq by done. eexists. split; [reflexivity|].
  set (nonce := ticket_nonce prefix).
  set (ct := cipher_Seal (key ts) nonce (ticket_plain t) (ID t)).
  assert (Hn : length nonce = 12%nat).
  { subst nonce. unfold ticket_nonce. rewrite length_app, PutUint64_length. lia. }
  assert (Hct : length ct = 96%nat).
  { subst ct. rewrite cipher_Seal_length, ticket_plain_length by done. lia. }
  assert (Hsame : forall store, key store = key ts ->
            DecodeTicket store (ID t ++ nonce ++ ct) now (Some prefix') =
            if now >? ExpiresAt t then Err ErrTicketExpired else Ok t).
  { intros store Hs. rewrite DecodeTicket_eq by (rewrite ?Hs; done || lia).
    rewrite Hs. subst ct. rewrite cipher_Open_Seal by done.
    rewrite decide_True by (by apply ticket_plain_length).
    cbv zeta. rewrite ticket_plain_decode by done. reflexivity. }
  assert (Hslices : forall d : bytes, length d = 124%nat ->
            d = slice 0 16 d ++ slice 16 28 d ++ drop 28 d).
  { intros d Hd. unfold slice. rewrite drop_0.
    change (16 - 0)%nat with 16%nat. change (28 - 16)%nat with 12%nat.
    rewrite <- (take_drop 16 d) at 1. f_equal.
    rewrite <- (take_drop 12 (drop 16 d)) at 1. f_equal. by rewrite drop_drop. }
  assert (Hrej : forall store (d : bytes), length (key store) = 32%nat ->
            length d = 124%nat ->
            cipher_Open (key store) (slice 16 28 d) (drop 28 d) (slice 0 16 d) = None ->
            DecodeTicket store d now (Some prefix') = Err ErrTicketInvalid).
  { intros store d Hs Hd Hopen. pose proof (Hslices d Hd) as Hdd.
    assert (Hl1 : length (slice 0 16 d) = 16%nat)
      by (unfold slice; rewrite length_take, length_drop; lia).
    assert (Hl2 : length (slice 16 28 d) = 12%nat)
      by (unfold slice; rewrite length_take, length_drop; lia).
    assert (Hl3 : (96 <= length (drop 28 d))%nat) by (rewrite length_drop; lia).
    remember (slice 0 16 d) as i' eqn:Ei. remember (slice 16 28 d) as n' eqn:En.
    remember (drop 28 d) as c' eqn:Ec.
    rewrite Hdd. rewrite DecodeTicket_eq by done. by rewrite Hopen. }
  assert (Hlen : length (ID t ++ nonce ++ ct) = 124%nat).
  { rewrite !length_app. lia. }
  split; [exact Hlen|]. split; [|split; [|split; [|split]]].
  - intros Hs Hnow. rewrite Hsame by done.
    destruct (Z.gtb_spec now (ExpiresAt t)); [lia|done].
  - intros Hs Hnow. rewrite Hsame by done.
    destruct (Z.gtb_spec now (ExpiresAt t)); [done|lia].
  - intros Hopen. by apply Hrej.
  - intros Hwrong. split.
    + intros Hdec. destruct (decide (key ts' = key ts)) as [Hs|Hs].
      * rewrite Hsame in Hdec by done.
        destruct (Z.gtb_spec now (ExpiresAt t)); [done|]. split; [lia|done].
      * rewrite Hrej in Hdec by auto. done.
    + intros [Hnow Hs]. rewrite Hsame by done.
      destruct (Z.gtb_spec now (ExpiresAt t)); [lia|done].
  - intros k b v Hkb Hv Hopen. apply Hrej; [done| |done].
    by rewrite length_insert.
Qed.

End tickets.

(** The example cipher keeps the contract. *)
Lemma example_cipher_correct : CipherCorrect Example.cipher.
Proof.
  assert (Htag : forall k n p a, length (Example.tag k n p a) = 16).
  { intros. unfold Example.tag. rewrite length_take, sha256_length. lia. }
  split.
  - intros key nonce pt ad. cbn [cipher_Seal Example.cipher]. unfold Example.seal.
    by rewrite length_app, Htag.
  - intros key nonce pt ad _ _. cbn [cipher_Seal cipher_Open Example.cipher].
    unfold Example.seal, Example.open. rewrite length_app, Htag.
    replace (length pt + 16 - 16) with (length pt) by lia.
    rewrite take_app_length, drop_app_length.
    rewrite decide_True; [done|]. split; [lia|done].
Qed.

(** A ticket encoded by one store: decoded by it in time and too late, by
    a store with another key, and with its last byte changed. *)
Lemma ticket_round_trip_witness :
  Ticket.EncodeTicket (C := Example.cipher) example_store example_ticket
    (Some (replicate 4 x00)) = Ok example_ticket_bytes /\
  Ticket.DecodeTicket (C := Example.cipher) example_store example_ticket_bytes
    1700086400 (Some (replicate 4 xff)) = Ok example_ticket /\
  Ticket.DecodeTicket (C := Example.cipher) example_store example_ticket_bytes
    1700086401 (Some (replicate 4 xff)) = Err ErrTicketExpired /\
  Ticket.DecodeTicket (C := Example.cipher)
    (Ticket.NewTicketStoreWithKey (replicate 32 x08)) example_ticket_bytes
    1700086400 (Some (replicate 4 xff)) = Err ErrTicketInvalid /\
  Ticket.DecodeTicket (C := Example.cipher) example_store
    (<[123 := xff]> example_ticket_bytes) 1700086400 (Some (replicate 4 xff))
    = Err ErrTicketInvalid.
Proof.
  assert (Henc : Ticket.EncodeTicket (C := Example.cipher) example_store example_ticket
                   (Some (replicate 4 x00)) = Ok example_ticket_bytes)
    by (vm_compute; reflexivity).
  assert (Hok : Props.Ticket_ok example_ticket) by (vm_compute; repeat split; discriminate).
  assert (Hwrong : cipher_Open (Cipher := Example.cipher) (replicate 32 x08)
                     (slice 16 28 example_ticket_bytes) (drop 28 example_ticket_bytes)
                     (slice 0 16 example_ticket_bytes) = None)
    by (vm_compute; reflexivity).
  assert (Hmut : cipher_Open (Cipher := Example.cipher) (replicate 32 x07)
                   (slice 16 28 (<[123 := xff]> example_ticket_bytes))
                   (drop 28 (<[123 := xff]> example_ticket_bytes))
                   (slice 0 16 (<[123 := xff]> example_ticket_bytes)) = None)
    by (vm_compute; reflexivity).
  assert (Hbyte : example_ticket_bytes !! 123 = Some x10) by (vm_compute; reflexivity).
  split; [exact Henc|].
  destruct (@ticket_round_trip Example.cipher example_cipher_correct
              example_store example_store example_ticket
              (replicate 4 x00) (replicate 4 xff) 1700086400
              Hok eq_refl eq_refl eq_refl)
    as (data & Hd & _ & Hrt & _ & _ & _ & Hm).
  destruct (@ticket_round_trip Example.cipher example_cipher_correct
              example_store example_store example_ticket
              (replicate 4 x00) (replicate 4 xff) 1700086401
              Hok eq_refl eq_refl eq_refl)
    as (data1 & Hd1 & _ & _ & Hexp & _).
  destruct (@ticket_round_trip Example.cipher example_cipher_correct
              example_store (Ticket.NewTicketStoreWithKey (replicate 32 x08)) example_ticket
              (replicate 4 x00) (replicate 4 xff) 1700086400
              Hok eq_refl eq_refl eq_refl)
    as (data2 & Hd2 & _ & _ & _ & Hinv & _).
  rewrite Henc in Hd, Hd1, Hd2.
  injection Hd as <-. injection Hd1 as <-. injection Hd2 as <-.
  split; [apply Hrt; [reflexivity|cbn; lia]|].
  split; [apply Hexp; [reflexivity|cbn; lia]|].
  split; [exact (Hinv Hwrong)|].
  apply (Hm 123 x10 xff Hbyte); [discriminate|exact Hmut].
Defined.

(** ** Delivery out of order *)

Section reordering.
Context {C : Cipher} {CC : CipherCorrect C}.
Import Ratchet Props.
Local Open Scope Z_scope.

Lemma advance_S (n : nat) (k : bytes) :
  advance (S n) k = fst (deriveKeysStatic (advance n k)).
Proof. reflexivity. Qed.

Lemma advance_add (n m : nat) (k : bytes) :
  advance n (advance m k) = advance (n + m) k.
Proof. unfold advance. symmetry. apply Nat.iter_add. Qed.

Lemma AEAD_Open_sealed (k prefix prefix' pt ad : bytes) :
  length k = 32%nat -> length prefix = 4%nat ->
  AEAD.Open {| AEAD.key := k; AEAD.prefix := prefix'; AEAD.seq := 0 |}
            (seal_nonce prefix ++ cipher_Seal k (seal_nonce prefix) pt ad) ad
  = Ok pt.
Proof.
  intros Hk Hp.
  assert (Hn : length (seal_nonce prefix) = 12%nat).
  { unfold seal_nonce. rewrite length_app, PutUint64_length. lia. }
  unfold AEAD.Open, AEAD.NonceSize, AEAD.Overhead.
  rewrite length_app, cipher_Seal_length. rewrite decide_False by lia.
  rewrite take_app_length', drop_app_length' by done. cbn [AEAD.key].
  by rewrite cipher_Open_Seal.
Qed.

Lemma message_key_length (key : bytes) (g : nat) : length (message_key key g) = 32%nat.
Proof. apply sha256_length. Qed.

Lemma Seal_eq (key : bytes) (g : nat) (pt ad prefix : bytes) :
  Z.of_nat g < MaxGeneration ->
  Seal {| chainKey := advance g key; generation := Z.of_nat g |} pt ad (Some prefix)
  = ({| chainKey := advance (S g) key; generation := Z.of_nat (S g) |},
     Ok (sealed_message key g pt ad prefix)).
Proof.
  intros Hg. unfold Seal, Step, deriveKeys. cbn [generation chainKey].
  unfold MaxGeneration in *.
  destruct (Z.geb_spec (Z.of_nat g) (2 ^ 32)) as [?|_]; [lia|].
  unfold deriveKeysStatic at 1. rewrite NewAEAD_message_key.
  unfold sealed_message, message_key, seal_nonce, deriveKeysStatic, AEAD.Seal,
    AEAD.nextNonce.
  cbn [fst snd AEAD.key AEAD.prefix AEAD.seq]. rewrite advance_S.
  unfold deriveKeysStatic. cbn [fst].
  do 3 f_equal. unfold uint64. rewrite Z.mod_small by lia. lia.
Qed.

Lemma seal_all_lookup (key : bytes) (msgs : list (bytes * bytes)) :
  forall (prefixes : list bytes) (g0 i : nat) pt ad prefix,
    Z.of_nat (g0 + length msgs) <= MaxGeneration ->
    msgs !! i = Some (pt, ad) -> prefixes !! i = Some prefix ->
    seal_all {| chainKey := advance g0 key; generation := Z.of_nat g0 |}
             msgs (Some <$> prefixes) !! i
    = Some (Ok (sealed_message key (g0 + i) pt ad prefix)).
Proof.
  induction msgs as [|[pt0 ad0] msgs IH]; intros prefixes g0 i pt ad prefix Hmax Hm Hp;
    [done|].
  destruct prefixes as [|p0 prefixes]; [done|].
  rewrite fmap_cons. cbn [seal_all]. cbn [length] in Hmax.
  rewrite Seal_eq by lia.
  destruct i as [|i].
  - cbn in Hm, Hp. simplify_eq. cbn [lookup list_lookup]. by rewrite Nat.add_0_r.
  - cbn [lookup list_lookup] in *. rewrite <- Nat.add_succ_comm.
    apply (IH prefixes (S g0) i pt ad prefix); (done || lia).
Qed.

Lemma tracks_bound (key : bytes) (delivered : list nat) (r : Receiver) :
  tracks key delivered r -> NoDup delivered ->
  Z.of_nat (length delivered) <= currentGen r.
Proof.
  intros (_ & cg & -> & _ & Hlt & _) Hnd.
  assert (Hsub : delivered ⊆+ seq 0 cg).
  { apply NoDup_submseteq; [done|]. intros g Hg. apply elem_of_seq.
    specialize (Hlt g Hg). lia. }
  apply submseteq_length in Hsub. rewrite length_seq in Hsub. lia.
Qed.

(** One delivery: the message sealed at position [g], not yet delivered
    and at most 1000 positions ahead of its turn, opens to its plaintext
    and the receiver tracks the longer list. *)
Lemma Open_tracks (key : bytes) (delivered : list nat) (r : Receiver)
    (g : nat) (pt ad prefix prefix' : bytes) :
  tracks key delivered r -> NoDup delivered -> g ∉ delivered ->
  (g <= length delivered + 1000)%nat ->
  Z.of_nat g < MaxGeneration ->
  length prefix = 4%nat ->
  exists r', Open r (sealed_message key g pt ad prefix) ad (Some prefix') = (r', Ok pt) /\
             tracks key (delivered ++ [g]) r'.
Proof.
  intros Htr Hnd Hg Hahead Hmax Hp.
  pose proof (tracks_bound _ _ _ Htr Hnd) as Hbound.
  destruct Htr as (Hskip & cg & Hcg & Hcur & Hlt & Hch).
  unfold MaxGeneration in Hmax.
  assert (Hopen : forall p', AEAD.Open
            {| AEAD.key := message_key key g; AEAD.prefix := p'; AEAD.seq := 0 |}
            (Ciphertext (sealed_message key g pt ad prefix)) ad = Ok pt).
  { intros p'. apply AEAD_Open_sealed; [apply message_key_length|done]. }
  destruct (lt_eq_lt_dec g cg) as [[Hlt'|Heq]|Hgt].
  - (* a cached generation *)
    assert (Hc : chains r !! Z.of_nat g = Some (advance g key)).
    { rewrite Hch, decide_True; [by rewrite Nat2Z.id|].
      rewrite Nat2Z.id. split; [lia|done]. }
    eexists. split.
    + unfold Open.
      change (Generation (sealed_message key g pt ad prefix)) with (Z.of_nat g). rewrite Hcg.
      destruct (Z.eqb_spec (Z.of_nat g) (Z.of_nat cg)) as [?|_]; [lia|].
      rewrite Hc. unfold deriveKeysStatic at 1. rewrite NewAEAD_message_key.
      fold (message_key key g). rewrite Hopen. reflexivity.
    + split; [done|]. exists cg. cbn [currentGen current chains]. split; [done|].
      split; [done|]. split.
      * intros g' Hg'. apply elem_of_app in Hg' as [Hg'|Hg']; [by apply Hlt|].
        apply list_elem_of_singleton in Hg' as ->. done.
      * intros z. destruct (decide (z = Z.of_nat g)) as [->|Hz].
        -- rewrite lookup_delete_eq. rewrite decide_False; [done|].
           rewrite Nat2Z.id. intros [_ Hn]. apply Hn. apply elem_of_app. right.
           by apply list_elem_of_singleton.
        -- rewrite lookup_delete_ne by done. rewrite Hch.
           apply decide_ext. rewrite elem_of_app, list_elem_of_singleton.
           split; intros [H1 H2]; (split; [done|]); [|tauto].
           intros [?|E]; [done|]. apply Hz. lia.
  - (* the expected generation *)
    subst g. eexists. split.
    + unfold Open.
      change (Generation (sealed_message key cg pt ad prefix)) with (Z.of_nat cg).
      rewrite Hcg, Z.eqb_refl, Hcur.
      unfold deriveKeysStatic at 1. rewrite NewAEAD_message_key.
      fold (message_key key cg). rewrite Hopen. reflexivity.
    + split; [done|]. exists (S cg). cbn [currentGen current chains]. split.
      { unfold uint64. rewrite Z.mod_small by lia. lia. }
      split; [done|]. split.
      * intros g' Hg'. apply elem_of_app in Hg' as [Hg'|Hg'].
        -- specialize (Hlt _ Hg'). lia.
        -- apply list_elem_of_singleton in Hg' as ->. lia.
      * intros z. rewrite Hch. apply decide_ext.
        rewrite elem_of_app, list_elem_of_singleton.
        split; intros [H1 H2].
        -- split; [lia|]. intros [?|E]; [done|]. lia.
        -- split; [|tauto]. destruct (decide (z = Z.of_nat cg)) as [->|?]; [|lia].
           exfalso. apply H2. right. by rewrite Nat2Z.id.
  - (* a later generation: skip ahead *)
    assert (Hnone : chains r !! Z.of_nat g = None).
    { rewrite Hch. rewrite decide_False; [done|]. lia. }
    assert (Hn : Z.to_nat (Z.of_nat g - currentGen r) = (g - cg)%nat) by lia.
    eexists. split.
    + rewrite Open_future_state;
        change (Generation (sealed_message key g pt ad prefix)) with (Z.of_nat g);
        [|done|lia|lia|lia].
      rewrite Hn, Hcur, advance_add.
      replace (g - cg + cg)%nat with g by lia.
      fold (message_key key g). rewrite Hopen. reflexivity.
    + split; [done|]. exists (S g). cbn [currentGen current chains]. split.
      { unfold uint64. rewrite Z.mod_small by lia. lia. }
      split; [done|]. split.
      * intros g' Hg'. apply elem_of_app in Hg' as [Hg'|Hg'].
        -- specialize (Hlt _ Hg'). lia.
        -- apply list_elem_of_singleton in Hg' as ->. lia.
      * intros z. rewrite cache_loop_lookup, ?Hn, ?Hcg, ?Hcur.
        destruct (decide (Z.of_nat cg <= z < Z.of_nat cg + Z.of_nat (g - cg))) as [Hin|Hout].
        -- rewrite decide_True.
           ++ rewrite advance_add. do 2 f_equal. lia.
           ++ split; [lia|]. rewrite elem_of_app, list_elem_of_singleton.
              intros [Hd|E]; [|lia]. specialize (Hlt _ Hd). lia.
        -- rewrite Hch. apply decide_ext.
           rewrite elem_of_app, list_elem_of_singleton.
           split; intros [H1 H2].
           ++ split; [lia|]. intros [?|E]; [done|]. lia.
           ++ split; [|tauto]. destruct (decide (z = Z.of_nat g)) as [->|?]; [|lia].
              exfalso. apply H2. right. by rewrite Nat2Z.id.
Qed.


Lemma open_all_tracks (key : bytes) (sealed : list (result EncryptedMessage))
    (msgs : list (bytes * bytes)) :
  forall (todo delivered : list nat) (r : Receiver) (rnds : list (option bytes)),
    tracks key delivered r ->
    NoDup (delivered ++ todo) ->
    (forall p g, todo !! p = Some g -> (g <= length delivered + p + 1000)%nat) ->
    (forall g, g ∈ todo -> exists pt ad prefix,
        msgs !! g = Some (pt, ad) /\
        sealed !! g = Some (Ok (sealed_message key g pt ad prefix)) /\
        length prefix = 4%nat /\ Z.of_nat g < MaxGeneration) ->
    length rnds = length todo -> Forall is_Some rnds ->
    open_all r (deliveries sealed msgs todo) rnds = Ok <$> plaintexts msgs todo.
Proof.
  induction todo as [|g todo IH]; intros delivered r rnds Htr Hnd Hahead Hmsgs Hlen Hrnd.
  - reflexivity.
  - destruct (Hmsgs g) as (pt & ad & prefix & Hm & Hs & Hp & Hmax); [by left|].
    destruct rnds as [|rnd rnds]; [done|].
    apply Forall_cons in Hrnd as [[prefix' ->] Hrnd].
    unfold deliveries, plaintexts. cbn [omap list_omap]. rewrite Hs, Hm.
    cbn [fst snd fmap list_fmap open_all].
    destruct (Open_tracks key delivered r g pt ad prefix prefix') as (r' & -> & Htr');
      try done.
    + by apply NoDup_app in Hnd as (Hnd & _).
    + apply NoDup_app in Hnd as (_ & Hnd & _). intros Hg. apply (Hnd g Hg). by left.
    + specialize (Hahead 0%nat g eq_refl). lia.
    + f_equal. apply (IH (delivered ++ [g])); try done.
      * by rewrite <- app_assoc.
      * intros p g' Hg'. specialize (Hahead (S p) g' Hg').
        rewrite length_app. cbn [length]. lia.
      * intros g' Hg'. apply Hmsgs. by right.
      * cbn [length] in Hlen. lia.
Qed.

Lemma plaintexts_length (msgs : list (bytes * bytes)) (order : list nat) :
  (forall g, g ∈ order -> (g < length msgs)%nat) ->
  length (plaintexts msgs order) = length order.
Proof.
  induction order as [|g order IH]; intros Hlt; [done|].
  unfold plaintexts. cbn [omap list_omap].
  destruct (lookup_lt_is_Some_2 msgs g) as [m ->]; [apply Hlt; by left|].
  cbn [length]. f_equal. apply IH. intros g' Hg'. apply Hlt. by right.
Qed.

(** C2: the messages sealed in order by one chain, handed to a receiver
    of the same key with maxSkip 1000 in any order that is a permutation
    moving no message by more than 1000 positions, all open, each to its
    own plaintext.  (A chain seals at most 2^32 messages; the nonce
    prefixes read at sealing and at opening are arbitrary.) *)
Theorem ratchet_reordered_delivery (key : bytes) (msgs : list (bytes * bytes))
    (prefixes : list bytes) (rnds : list (option bytes)) (order : list nat)
    (c : Chain) (r : Receiver) :
  NewChain key = Ok c -> NewReceiver key 1000 = Ok r ->
  Z.of_nat (length msgs) <= MaxGeneration ->
  length prefixes = length msgs -> Forall (fun p => length p = 4%nat) prefixes ->
  length rnds = length msgs -> Forall is_Some rnds ->
  order ≡ₚ seq 0 (length msgs) ->
  (forall p g, order !! p = Some g -> (g <= p + 1000 /\ p <= g + 1000)%nat) ->
  let sealed := seal_all c msgs (Some <$> prefixes) in
  (forall g m, msgs !! g = Some m ->
     exists ct, sealed !! g = Some (Ok {| Generation := Z.of_nat g; Ciphertext := ct |})) /\
  open_all r (deliveries sealed msgs order) rnds = Ok <$> plaintexts msgs order /\
  length (plaintexts msgs order) = length msgs.
Proof.
  intros Hc Hr Hmax Hpl Hp4 Hrl Hrs Hperm Hmove sealed.
  unfold NewChain in Hc. unfold NewReceiver in Hr.
  destruct (decide (length key = 32%nat)) as [Hk|]; [|done].
  injection Hc as <-. injection Hr as <-.
  assert (Hsealed : forall g pt ad, msgs !! g = Some (pt, ad) ->
            exists prefix, prefixes !! g = Some prefix /\ length prefix = 4%nat /\
              sealed !! g = Some (Ok (sealed_message key g pt ad prefix))).
  { intros g pt ad Hm.
    destruct (lookup_lt_is_Some_2 prefixes g) as [prefix Hpre].
    { rewrite Hpl. by eapply lookup_lt_Some. }
    exists prefix. split; [done|]. split.
    { rewrite Forall_forall in Hp4. apply Hp4. by eapply list_elem_of_lookup_2. }
    subst sealed.
    apply (seal_all_lookup key msgs prefixes 0 g pt ad prefix); [|done|done].
    cbn [Nat.add]. lia. }
  assert (Hin : forall g, g ∈ order -> (g < length msgs)%nat).
  { intros g Hg. rewrite Hperm in Hg. apply elem_of_seq in Hg. lia. }
  split; [|split].
  - intros g [pt ad] Hm. destruct (Hsealed g pt ad Hm) as (prefix & _ & _ & Hs).
    eexists. exact Hs.
  - apply (open_all_tracks key sealed msgs order []).
    + split; [done|]. exists 0%nat. cbn [currentGen current chains].
      split; [done|]. split; [done|]. split; [by intros g Hg; apply elem_of_nil in Hg|].
      intros z. rewrite lookup_empty. rewrite decide_False; [done|]. lia.
    + cbn [app]. rewrite Hperm. apply NoDup_seq.
    + intros p g Hg. specialize (Hmove p g Hg). cbn [length]. lia.
    + intros g Hg. destruct (lookup_lt_is_Some_2 msgs g (Hin g Hg)) as [[pt ad] Hm].
      destruct (Hsealed g pt ad Hm) as (prefix & _ & Hp & Hs).
      exists pt, ad, prefix. split; [done|]. split; [done|]. split; [done|].
      apply lookup_lt_Some in Hm. lia.
    + rewrite Hrl. apply Permutation_length in Hperm. by rewrite Hperm, length_seq.
    + done.
  - rewrite plaintexts_length by done.
    apply Permutation_length in Hperm. by rewrite Hperm, length_seq.
Qed.

End reordering.

(** The repository's scenario: three messages sealed with the all-zero
    key and delivered in the order 2, 0, 1, then a fourth in its turn. *)
Lemma ratchet_reordered_delivery_witness :
  Props.open_all (C := Example.cipher) example_receiver
    (Props.deliveries
       (Props.seal_all (C := Example.cipher) example_chain example_msgs
          (Some <$> example_prefixes))
       example_msgs [2; 0; 1; 3])
    (replicate 4 (Some (replicate 4 xff)))
  = Ok <$> Props.plaintexts example_msgs [2; 0; 1; 3] /\
  Props.plaintexts example_msgs [2; 0; 1; 3]
  = map bytes_of_string ["m2"; "m0"; "m1"; "m3"]%string.
Proof.
  split; [|reflexivity].
  refine (proj1 (proj2 (@ratchet_reordered_delivery Example.cipher example_cipher_correct
            (replicate 32 x00) example_msgs example_prefixes
            (replicate 4 (Some (replicate 4 xff))) [2; 0; 1; 3]
            example_chain example_receiver eq_refl eq_refl _ eq_refl _ eq_refl _ _ _))).
  - cbn. unfold Ratchet.MaxGeneration. lia.
  - repeat constructor.
  - repeat constructor; by eexists.
  - apply (bool_decide_unpack _). reflexivity.
  - intros [|[|[|[|p]]]] g Hg; cbn in Hg; simplify_eq; lia.
Defined.

(** The same deliveries, evaluated. *)
Example ratchet_out_of_order_evaluated :
  Props.open_all (C := Example.cipher) example_receiver
    (Props.deliveries
       (Props.seal_all (C := Example.cipher) example_chain example_msgs
          (Some <$> example_prefixes))
       example_msgs [2; 0; 1; 3])
    (replicate 4 (Some (replicate 4 xff)))
  = map (fun s => Ok (bytes_of_string s)) ["m2"; "m0"; "m1"; "m3"]%string.
Proof. vm_compute. reflexivity. Qed.

(** ** More on big-endian integers *)

Lemma be_decode_range (bs : bytes) :
  (0 <= be_decode bs < 256 ^ Z.of_nat (length bs))%Z.
Proof.
  unfold be_decode.
  assert (H : forall acc k, (0 <= k)%Z -> (0 <= acc < 256 ^ k)%Z ->
            (0 <= fold_left (fun acc b => acc * 256 + Z_of_byte b) bs acc
             < 256 ^ (k + Z.of_nat (length bs)))%Z).
  { induction bs as [|b bs IH]; intros acc k Hk Hacc; cbn [fold_left length].
    - by rewrite Z.add_0_r.
    - replace (k + Z.of_nat (S (length bs)))%Z with ((k + 1) + Z.of_nat (length bs))%Z
        by lia.
      apply IH; [lia|]. pose proof (Z_of_byte_range b).
      rewrite Z.pow_add_r by lia. change (256 ^ 1)%Z with 256%Z. nia. }
  apply (H 0%Z 0%Z); [lia|]. simpl. lia.
Qed.

Lemma Uint64_range (bs : bytes) : (0 <= Uint64 bs < 2 ^ 64)%Z.
Proof.
  unfold Uint64. pose proof (be_decode_range (take 8 bs)) as H.
  assert (Hl : (Z.of_nat (length (take 8 bs)) <= 8)%Z) by (rewrite length_take; lia).
  assert ((256 ^ Z.of_nat (length (take 8 bs)) <= 256 ^ 8)%Z)
    by (apply Z.pow_le_mono_r; lia).
  change (256 ^ 8)%Z with (2 ^ 64)%Z in *. lia.
Qed.

Lemma Uint32_range (bs : bytes) : (0 <= Uint32 bs < 2 ^ 32)%Z.
Proof.
  unfold Uint32. pose proof (be_decode_range (take 4 bs)) as H.
  assert (Hl : (Z.of_nat (length (take 4 bs)) <= 4)%Z) by (rewrite length_take; lia).
  assert ((256 ^ Z.of_nat (length (take 4 bs)) <= 256 ^ 4)%Z)
    by (apply Z.pow_le_mono_r; lia).
  change (256 ^ 4)%Z with (2 ^ 32)%Z in *. lia.
Qed.

Lemma Uint16_PutUint16 (v : Z) (rest : bytes) :
  Uint16 (PutUint16 v ++ rest) = uint16 v.
Proof.
  unfold Uint16, PutUint16, be_decode, uint16. cbn [take app fold_left].
  rewrite !Z_of_byte_of_Z, !Z.shiftr_div_pow2 by lia.
  change (2 ^ 8)%Z with 256%Z.
  rewrite Z.mul_0_l, Z.add_0_l.
  rewrite !be_step by lia. reflexivity.
Qed.


(** ** Batches on the wire *)

Section batch_wire.
Import Batch.
Local Open Scope Z_scope.

Lemma drop_at (pre rest : bytes) (offset : Z) :
  offset = len pre -> drop (Z.to_nat offset) (pre ++ rest) = rest.
Proof.
  intros ->. unfold len. rewrite Nat2Z.id. by rewrite drop_app_length.
Qed.

Lemma slice_at (pre x rest : bytes) (lo hi : Z) :
  lo = len pre -> hi = len pre + len x ->
  slice (Z.to_nat lo) (Z.to_nat hi) (pre ++ x ++ rest) = x.
Proof.
  intros -> ->. unfold slice, len.
  rewrite <- Nat2Z.inj_add, !Nat2Z.id, drop_app_length.
  replace (length pre + length x - length pre)%nat with (length x) by lia.
  by rewrite take_app_length.
Qed.

(** What the loop of [DecodeBatch] reads at the end of [pre] when one
    encoded chunk stands there. *)
Lemma encoded_chunk_fields (cc : CompressedChunk) (pre tail : bytes) :
  encodable cc -> len (Data cc) < 2 ^ 32 ->
  let data := pre ++ encode_chunk cc ++ tail in
  let o := len pre + 4 + 1 + 2 in
  Uint32 (drop (Z.to_nat (len pre)) data) = Index cc /\
  data !! Z.to_nat (len pre + 4) = Some (if Compressed cc then x01 else x00) /\
  Uint16 (drop (Z.to_nat (len pre + 4 + 1)) data) = len (OrigHash cc) /\
  slice (Z.to_nat o) (Z.to_nat (o + len (OrigHash cc))) data = OrigHash cc /\
  Uint32 (drop (Z.to_nat (o + len (OrigHash cc))) data) = len (Data cc) /\
  slice (Z.to_nat (o + len (OrigHash cc) + 4))
        (Z.to_nat (o + len (OrigHash cc) + 4 + len (Data cc))) data = Data cc.
Proof.
  intros [Hidx Hhash] Hd data o. subst data o. unfold encode_chunk.
  set (f1 := PutUint32 (uint32 (Index cc))).
  set (f2 := [if Compressed cc then x01 else x00]).
  set (f3 := PutUint16 (uint16 (len (OrigHash cc)))).
  set (f5 := PutUint32 (uint32 (len (Data cc)))).
  assert (L1 : length f1 = 4%nat) by done.
  assert (L2 : length f2 = 1%nat) by done.
  assert (L3 : length f3 = 2%nat) by done.
  assert (L5 : length f5 = 4%nat) by done.
  assert (Hpos : 0 <= len (OrigHash cc) /\ 0 <= len (Data cc)) by (unfold len; lia).
  repeat split.
  - rewrite drop_at by done. rewrite <- app_assoc. unfold f1.
    rewrite Uint32_PutUint32. unfold uint32.
    rewrite Z.mod_mod by lia. rewrite Z.mod_small; lia.
  - unfold len. replace (Z.to_nat (Z.of_nat (length pre) + 4)) with (length pre + 4)%nat by lia.
    rewrite lookup_app_r by lia.
    replace (length pre + 4 - length pre)%nat with 4%nat by lia. reflexivity.
  - replace (pre ++ (f1 ++ f2 ++ f3 ++ OrigHash cc ++ f5 ++ Data cc) ++ tail)
      with ((pre ++ f1 ++ f2) ++ f3 ++ (OrigHash cc ++ f5 ++ Data cc) ++ tail)
      by (by rewrite <- !app_assoc).
    rewrite drop_at by (unfold len; rewrite !length_app; lia).
    unfold f3. rewrite Uint16_PutUint16. unfold uint16.
    rewrite Z.mod_mod by lia. rewrite Z.mod_small; lia.
  - replace (pre ++ (f1 ++ f2 ++ f3 ++ OrigHash cc ++ f5 ++ Data cc) ++ tail)
      with ((pre ++ f1 ++ f2 ++ f3) ++ OrigHash cc ++ (f5 ++ Data cc) ++ tail)
      by (by rewrite <- !app_assoc).
    apply slice_at; unfold len; rewrite !length_app; lia.
  - replace (pre ++ (f1 ++ f2 ++ f3 ++ OrigHash cc ++ f5 ++ Data cc) ++ tail)
      with ((pre ++ f1 ++ f2 ++ f3 ++ OrigHash cc) ++ f5 ++ Data cc ++ tail)
      by (by rewrite <- !app_assoc).
    rewrite drop_at by (unfold len; rewrite !length_app; lia).
    unfold f5. rewrite Uint32_PutUint32. unfold uint32.
    rewrite Z.mod_mod by lia. rewrite Z.mod_small; lia.
  - replace (pre ++ (f1 ++ f2 ++ f3 ++ OrigHash cc ++ f5 ++ Data cc) ++ tail)
      with ((pre ++ f1 ++ f2 ++ f3 ++ OrigHash cc ++ f5) ++ Data cc ++ tail)
      by (by rewrite <- !app_assoc).
    apply slice_at; unfold len; rewrite !length_app; lia.
Qed.

Lemma encode_chunk_len (cc : CompressedChunk) :
  len (encode_chunk cc) = 4 + 1 + 2 + len (OrigHash cc) + 4 + len (Data cc).
Proof. unfold len, encode_chunk. rewrite !length_app. simpl. lia. Qed.

(** The loop of [DecodeBatch], started at the end of [pre], reads back the
    chunks encoded there, whatever follows them. *)
Lemma decode_loop_encoded (cs : list CompressedChunk) (pre junk : bytes)
    (acc : list CompressedChunk) :
  Forall encodable cs ->
  len (flat_map encode_chunk cs) < 2 ^ 32 ->
  decode_loop (length cs) (pre ++ flat_map encode_chunk cs ++ junk) (len pre) acc
  = Ok {| Chunks := acc ++ cs |}.
Proof.
  revert pre acc. induction cs as [|cc cs IH]; intros pre acc Hwf Hlen.
  - cbn [length decode_loop]. by rewrite app_nil_r.
  - apply Forall_cons in Hwf as [Hcc Hwf].
    cbn [flat_map] in Hlen |- *.
    assert (Hl2 : len (encode_chunk cc ++ flat_map encode_chunk cs)
                  = len (encode_chunk cc) + len (flat_map encode_chunk cs))
      by (unfold len; rewrite length_app; lia).
    pose proof (encode_chunk_len cc) as Hec.
    assert (Hpos : 0 <= len pre /\ 0 <= len (OrigHash cc) /\ 0 <= len (Data cc)
                   /\ 0 <= len (flat_map encode_chunk cs) /\ 0 <= len junk)
      by (unfold len; lia).
    assert (Hd : len (Data cc) < 2 ^ 32) by lia.
    pose proof (encoded_chunk_fields cc pre (flat_map encode_chunk cs ++ junk) Hcc Hd)
      as (F1 & F2 & F3 & F4 & F5 & F6).
    assert (Hl : len (pre ++ encode_chunk cc ++ flat_map encode_chunk cs ++ junk)
                 = len pre + len (encode_chunk cc)
                   + len (flat_map encode_chunk cs) + len junk)
      by (unfold len; rewrite !length_app; lia).
    rewrite <- (app_assoc (encode_chunk cc)).
    remember (pre ++ encode_chunk cc ++ flat_map encode_chunk cs ++ junk) as data
      eqn:Edata.
    cbn [length decode_loop].
    rewrite F3, F5, F1, F2, F4, F6, Hl.
    destruct (Z.gtb_spec (len pre + 4 + 1 + 2)
                (len pre + len (encode_chunk cc)
                 + len (flat_map encode_chunk cs) + len junk)); [lia|].
    destruct (Z.gtb_spec (len pre + 4 + 1 + 2 + len (OrigHash cc) + 4)
                (len pre + len (encode_chunk cc)
                 + len (flat_map encode_chunk cs) + len junk)); [lia|].
    destruct (Z.gtb_spec (len pre + 4 + 1 + 2 + len (OrigHash cc) + 4 + len (Data cc))
                (len pre + len (encode_chunk cc)
                 + len (flat_map encode_chunk cs) + len junk)); [lia|].
    assert (Ec : bool_decide (Some (if Compressed cc then x01 else x00) = Some x01)
                 = Compressed cc) by (by destruct (Compressed cc)).
    rewrite Ec.
    replace (len pre + 4 + 1 + 2 + len (OrigHash cc) + 4 + len (Data cc))
      with (len (pre ++ encode_chunk cc))
      by (unfold len in *; rewrite length_app; lia).
    subst data. rewrite (app_assoc pre).
    rewrite IH; [|done|lia].
    destruct cc. cbn. by rewrite <- app_assoc.
Qed.

Lemma flat_map_encode_chunk_len (cs : list CompressedChunk) :
  len cs <= len (flat_map encode_chunk cs).
Proof.
  unfold len. induction cs as [|cc cs IH]; [done|].
  cbn [flat_map length]. rewrite length_app.
  pose proof (encode_chunk_len cc). unfold len in *. lia.
Qed.

Lemma DecodeBatch_encoding (cs : list CompressedChunk) (junk : bytes) :
  Forall encodable cs ->
  len (encoding cs) < 2 ^ 32 ->
  DecodeBatch (encoding cs ++ junk) = Ok {| Chunks := cs |}.
Proof.
  intros Hwf Hs.
  set (hd := PutUint32 BatchMagic ++ PutUint32 (uint32 (len cs))).
  assert (Hsz : len (encoding cs) = 8 + len (flat_map encode_chunk cs))
    by (unfold len, encoding; rewrite !length_app; simpl; lia).
  pose proof (flat_map_encode_chunk_len cs) as Hcount.
  assert (Hpos : 0 <= len cs /\ 0 <= len junk) by (unfold len; lia).
  assert (Hc : len (flat_map encode_chunk cs) < 2 ^ 32) by lia.
  pose proof (decode_loop_encoded cs hd junk [] Hwf Hc) as E.
  change (len hd) with 8 in E.
  replace (hd ++ flat_map encode_chunk cs ++ junk) with (encoding cs ++ junk) in E
    by (unfold hd, encoding; by rewrite <- !app_assoc).
  assert (Hl : len (encoding cs ++ junk) = len (encoding cs) + len junk)
    by (unfold len; rewrite length_app; lia).
  assert (Hm : Uint32 (slice 0 4 (encoding cs ++ junk)) = BatchMagic)
    by (vm_compute; reflexivity).
  assert (Hn : Uint32 (slice 4 8 (encoding cs ++ junk)) = len cs).
  { change (slice 4 8 (encoding cs ++ junk)) with (PutUint32 (uint32 (len cs))).
    pose proof (Uint32_PutUint32 (uint32 (len cs)) []) as E'.
    rewrite app_nil_r in E'. rewrite E'. unfold uint32.
    rewrite Z.mod_mod by lia. rewrite Z.mod_small; lia. }
  unfold DecodeBatch. rewrite Hm, Hn, Hl.
  destruct (Z.ltb_spec (len (encoding cs) + len junk) 8); [lia|].
  rewrite Z.eqb_refl. cbn [negb].
  replace (Z.to_nat (len cs)) with (length cs) by (unfold len; lia).
  exact E.
Qed.

(** X1 (batch.go, Encode and DecodeBatch): a batch that Encode accepts, with
    every chunk index in 32 bits and every hash shorter than 65536 bytes,
    is decoded to the same batch, and bytes that follow the encoding are
    ignored. *)
Theorem DecodeBatch_Encode (b : Batch) (data junk : bytes) :
  Forall encodable (Chunks b) ->
  Encode b = Ok data ->
  DecodeBatch (data ++ junk) = Ok b.
Proof.
  intros Hwf. unfold Encode.
  destruct (Z.gtb_spec (Size b) MaxBatchSize) as [|Hs]; [done|].
  intros E. assert (Hd : data = encoding (Chunks b)) by (unfold encoding; congruence).
  subst data. rewrite Size_encoding in Hs. unfold MaxBatchSize in Hs.
  rewrite DecodeBatch_encoding; [by destruct b|done|]. unfold encoding. lia.
Qed.

Lemma Encode_encoding (b : Batch) (data : bytes) :
  Encode b = Ok data -> data = encoding (Chunks b) /\ len data <= MaxBatchSize.
Proof.
  unfold Encode. destruct (Z.gtb_spec (Size b) MaxBatchSize) as [|Hs]; [done|].
  intros E. assert (Hd : data = encoding (Chunks b)) by (unfold encoding; congruence).
  split; [done|]. subst data. unfold encoding. by rewrite <- Size_encoding.
Qed.

(** X2 (batch.go, WriteBatch and ReadBatch): WriteBatch appends to the
    stream the 4-byte length and the encoding, and ReadBatch on a stream
    that starts with what WriteBatch appended returns the batch and leaves
    the rest of the stream for the next read. *)
Theorem ReadBatch_WriteBatch (b : Batch) (w w' : bytes) :
  Forall encodable (Chunks b) ->
  WriteBatch w b = (Ok tt, w') ->
  exists written,
    w' = w ++ written /\
    len written = 4 + Size b /\
    forall rest, ReadBatch (written ++ rest) = (Ok b, rest).
Proof.
  intros Hwf. unfold WriteBatch.
  destruct (Encode b) as [data|] eqn:E; [|done]. intros [= <-].
  destruct (Encode_encoding b data E) as [-> Hs]. unfold MaxBatchSize in Hs.
  set (data := encoding (Chunks b)) in *.
  assert (Hpos : 0 <= len data) by (unfold len; lia).
  exists (PutUint32 (uint32 (len data)) ++ data). split; [done|]. split.
  { rewrite Size_encoding. fold (encoding (Chunks b)). fold data.
    unfold len. rewrite length_app. simpl. lia. }
  intros rest. unfold ReadBatch, ReadFull.
  rewrite <- app_assoc.
  assert (H4 : length (PutUint32 (uint32 (len data))) = 4%nat) by done.
  rewrite decide_False by lia.
  rewrite decide_False by (rewrite length_app; lia).
  rewrite decide_False by (rewrite length_app; lia).
  rewrite take_app_length' by done. rewrite drop_app_length' by done.
  pose proof (Uint32_PutUint32 (uint32 (len data)) []) as Eu.
  rewrite app_nil_r in Eu. rewrite Eu. unfold uint32.
  rewrite Z.mod_mod by lia. rewrite Z.mod_small by lia.
  destruct (Z.gtb_spec (len data) MaxBatchSize) as [Hgt|_];
    [unfold MaxBatchSize in Hgt; lia|].
  assert (H8 : (8 <= length data)%nat).
  { unfold data, encoding. rewrite !length_app. simpl. lia. }
  replace (Z.to_nat (len data)) with (length data) by (unfold len; lia).
  rewrite decide_False by lia.
  rewrite decide_False by (rewrite length_app; lia).
  rewrite decide_False by (rewrite length_app; lia).
  rewrite take_app_length, drop_app_length.
  pose proof (DecodeBatch_encoding (Chunks b) [] Hwf) as Ed.
  rewrite app_nil_r in Ed. fold data in Ed. rewrite Ed by lia. by destruct b.
Qed.

End batch_wire.

Lemma example_batch_encodable : Forall encodable (Batch.Chunks example_batch).
Proof. repeat constructor; vm_compute; congruence. Qed.

(** The round trip of X1 at a batch of two chunks, followed by two bytes. *)
Lemma DecodeBatch_Encode_witness :
  Batch.DecodeBatch (example_batch_bytes ++ [x00; x01]) = Ok example_batch.
Proof.
  apply (DecodeBatch_Encode example_batch example_batch_bytes [x00; x01]).
  - exact example_batch_encodable.
  - vm_compute. reflexivity.
Defined.

(** The stream round trip of X2 at the same batch. *)
Lemma ReadBatch_WriteBatch_witness :
  exists written,
    PutUint32 106 ++ example_batch_bytes = [] ++ written /\
    Batch.len written = (4 + Batch.Size example_batch)%Z /\
    forall rest, Batch.ReadBatch (written ++ rest) = (Ok example_batch, rest).
Proof.
  apply (ReadBatch_WriteBatch example_batch [] (PutUint32 106 ++ example_batch_bytes)).
  - exact example_batch_encodable.
  - vm_compute. reflexivity.
Defined.

Section batch_truncated.
Import Batch.
Local Open Scope Z_scope.

Lemma Uint16_take (o n : nat) (full : bytes) :
  (o + 2 <= n)%nat -> Uint16 (drop o (take n full)) = Uint16 (drop o full).
Proof.
  intros H. unfold Uint16. rewrite skipn_firstn_comm, take_take.
  f_equal. f_equal. lia.
Qed.

Lemma Uint32_take (o n : nat) (full : bytes) :
  (o + 4 <= n)%nat -> Uint32 (drop o (take n full)) = Uint32 (drop o full).
Proof.
  intros H. unfold Uint32. rewrite skipn_firstn_comm, take_take.
  f_equal. f_equal. lia.
Qed.

(** The loop of [DecodeBatch] on data that ends inside the chunks encoded
    from the end of [pre] on. *)
Lemma decode_loop_truncated (cs : list CompressedChunk) (pre : bytes) (n : nat)
    (acc : list CompressedChunk) :
  Forall encodable cs ->
  len (flat_map encode_chunk cs) < 2 ^ 32 ->
  (length pre <= n < length pre + length (flat_map encode_chunk cs))%nat ->
  decode_loop (length cs) (take n (pre ++ flat_map encode_chunk cs)) (len pre) acc
  = Err ErrBatchTruncated.
Proof.
  revert pre acc. induction cs as [|cc cs IH]; intros pre acc Hwf Hlen Hn.
  - cbn in Hn. lia.
  - apply Forall_cons in Hwf as [Hcc Hwf].
    cbn [flat_map] in Hlen, Hn |- *.
    assert (Hl2 : len (encode_chunk cc ++ flat_map encode_chunk cs)
                  = len (encode_chunk cc) + len (flat_map encode_chunk cs))
      by (unfold len; rewrite length_app; lia).
    pose proof (encode_chunk_len cc) as Hec.
    assert (Hpos : 0 <= len pre /\ 0 <= len (OrigHash cc) /\ 0 <= len (Data cc)
                   /\ 0 <= len (flat_map encode_chunk cs))
      by (unfold len; lia).
    assert (Hd : len (Data cc) < 2 ^ 32) by lia.
    pose proof (encoded_chunk_fields cc pre (flat_map encode_chunk cs) Hcc Hd)
      as (_ & _ & F3 & _ & F5 & _).
    cbv zeta in F3, F5.
    remember (pre ++ encode_chunk cc ++ flat_map encode_chunk cs) as full eqn:Efull.
    assert (Hfull : length full = (length pre + length (encode_chunk cc)
                                   + length (flat_map encode_chunk cs))%nat)
      by (subst full; rewrite !length_app; lia).
    assert (Hdl : len (take n full) = Z.of_nat n).
    { unfold len. rewrite length_take. rewrite length_app in Hn. lia. }
    rewrite length_app in Hn.
    cbn [length decode_loop]. rewrite Hdl.
    destruct (Z.gtb_spec (len pre + 4 + 1 + 2) (Z.of_nat n)) as [|H7]; [done|].
    assert (E3 : Uint16 (drop (Z.to_nat (len pre + 4 + 1)) (take n full))
                 = len (OrigHash cc)).
    { rewrite Uint16_take by (unfold len in *; lia). exact F3. }
    rewrite E3.
    destruct (Z.gtb_spec (len pre + 4 + 1 + 2 + len (OrigHash cc) + 4) (Z.of_nat n))
      as [|H11]; [done|].
    assert (E5 : Uint32 (drop (Z.to_nat (len pre + 4 + 1 + 2 + len (OrigHash cc)))
                           (take n full))
                 = len (Data cc)).
    { rewrite Uint32_take by (unfold len in *; lia). exact F5. }
    rewrite E5.
    destruct (Z.gtb_spec (len pre + 4 + 1 + 2 + len (OrigHash cc) + 4 + len (Data cc))
                (Z.of_nat n)) as [|Hall]; [done|].
    replace (len pre + 4 + 1 + 2 + len (OrigHash cc) + 4 + len (Data cc))
      with (len (pre ++ encode_chunk cc))
      by (unfold len in *; rewrite length_app; lia).
    subst full. rewrite (app_assoc pre).
    apply IH; [done|lia|]. rewrite length_app. unfold len in *. lia.
Qed.

(** X22 (batch.go, DecodeBatch): no proper prefix of an encoded batch is
    decoded: cut inside its first eight bytes it is too short, cut
    anywhere later it is truncated.  (Chunk indices in 32 bits, hashes
    shorter than 65536 bytes.) *)
Theorem DecodeBatch_truncated (b : Batch) (data : bytes) (n : nat) :
  Forall encodable (Chunks b) ->
  Encode b = Ok data ->
  (n < length data)%nat ->
  DecodeBatch (take n data)
  = Err (if decide (n < 8)%nat then ErrBatchTooShort else ErrBatchTruncated).
Proof.
  intros Hwf He Hn. destruct (Encode_encoding b data He) as [-> Hs].
  unfold MaxBatchSize in Hs. set (cs := Chunks b) in *.
  set (hd := PutUint32 BatchMagic ++ PutUint32 (uint32 (len cs))).
  assert (Henc : encoding cs = hd ++ flat_map encode_chunk cs)
    by (unfold encoding, hd; by rewrite <- app_assoc).
  assert (Hsz : length (encoding cs) = (8 + length (flat_map encode_chunk cs))%nat)
    by (rewrite Henc, length_app; done).
  pose proof (flat_map_encode_chunk_len cs) as Hcount.
  assert (Hpos : 0 <= len cs) by (unfold len; lia).
  assert (Hdl : len (take n (encoding cs)) = Z.of_nat n)
    by (unfold len; rewrite length_take; lia).
  unfold DecodeBatch. rewrite Hdl.
  destruct (decide (n < 8)%nat) as [Hshort|Hlong].
  { destruct (Z.ltb_spec (Z.of_nat n) 8); [done|lia]. }
  destruct (Z.ltb_spec (Z.of_nat n) 8); [lia|].
  assert (Hm : Uint32 (slice 0 4 (take n (encoding cs))) = BatchMagic).
  { unfold slice. rewrite drop_0, take_take.
    replace ((4 - 0) `min` n)%nat with 4%nat by lia. reflexivity. }
  assert (Hc : Uint32 (slice 4 8 (take n (encoding cs))) = len cs).
  { unfold slice. rewrite skipn_firstn_comm, take_take.
    replace ((8 - 4) `min` (n - 4))%nat with 4%nat by lia.
    change (take 4 (drop 4 (encoding cs))) with (PutUint32 (uint32 (len cs))).
    pose proof (Uint32_PutUint32 (uint32 (len cs)) []) as E.
    rewrite app_nil_r in E. rewrite E. unfold uint32, len in *.
    rewrite Z.mod_mod by lia. rewrite Z.mod_small; lia. }
  rewrite Hm, Hc, Z.eqb_refl. cbn [negb].
  replace (Z.to_nat (len cs)) with (length cs) by (unfold len; lia).
  rewrite Henc. change 8 with (len hd).
  apply decode_loop_truncated; [done|unfold len in *; lia|].
  change (length hd) with 8%nat. lia.
Qed.

End batch_truncated.

(** X22 at the example batch without its last byte. *)
Lemma DecodeBatch_truncated_witness :
  Batch.DecodeBatch (take 105 example_batch_bytes) = Err ErrBatchTruncated.
Proof.
  apply (DecodeBatch_truncated example_batch example_batch_bytes 105).
  - exact example_batch_encodable.
  - vm_compute. reflexivity.
  - vm_compute. lia.
Defined.

(** ** The shape of the Merkle tree and of its proofs *)

Section merkle_shape.
Import Merkle.

Lemma pad_loop_pow2 (fuel j len : nat) :
  len < 2 ^ j + fuel -> (j = 0 \/ 2 ^ (j - 1) < len) ->
  exists k, pad_loop fuel (2 ^ j) len = 2 ^ k /\ len <= 2 ^ k /\
            (k = 0 \/ 2 ^ (k - 1) < len).
Proof.
  revert j. induction fuel as [|fuel IH]; intros j Hf Hj; cbn [pad_loop].
  - exists j. split; [done|]. split; [lia|done].
  - destruct (Nat.ltb_spec (2 ^ j) len) as [Hlt|Hge].
    + replace (2 ^ j * 2) with (2 ^ (S j)) by (cbn [Nat.pow]; lia).
      apply IH.
      * cbn [Nat.pow]. pose proof (Nat.pow_nonzero 2 j). lia.
      * right. by replace (S j - 1) with j by lia.
    + exists j. split; [done|]. split; [lia|done].
Qed.

Lemma pad_leaves_app (hs : list bytes) (n : nat) :
  length hs <= n ->
  pad_leaves hs n = hs ++ replicate (n - length hs) (sha256 []).
Proof.
  intros Hn. apply list_eq. intros i. unfold pad_leaves.
  rewrite list_lookup_fmap.
  destruct (decide (i < n)) as [Hi|Hi].
  - rewrite lookup_seq_lt by done. cbn.
    destruct (hs !! i) as [h|] eqn:Hh.
    + by rewrite lookup_app_l_Some with (x := h).
    + apply lookup_ge_None in Hh. rewrite lookup_app_r by done.
      symmetry. f_equal. apply lookup_replicate_2. lia.
  - rewrite lookup_seq_ge by lia. cbn. symmetry. apply lookup_ge_None.
    rewrite length_app, length_replicate. lia.
Qed.

Lemma BuildMerkleTree_leaves (chunkHashes : list bytes) (t : MerkleTree) :
  BuildMerkleTree chunkHashes = Ok t ->
  exists k,
    length (leaves t) = 2 ^ k /\
    length chunkHashes <= 2 ^ k /\
    (k = 0 \/ 2 ^ (k - 1) < length chunkHashes) /\
    leaves t = chunkHashes ++ replicate (2 ^ k - length chunkHashes) (sha256 []) /\
    length (nodes t) = 2 * 2 ^ k - 1.
Proof.
  intros Ht.
  assert (Hne : chunkHashes <> []).
  { intros ->. discriminate Ht. }
  destruct (BuildMerkleTree_spec chunkHashes Hne) as (t' & Ht' & _ & _ & Hnodes & _).
  assert (t' = t) as -> by congruence. clear Ht'.
  revert Ht Hnodes. unfold BuildMerkleTree.
  destruct (decide (length chunkHashes = 0)) as [|Hlen]; [done|].
  destruct (pad_loop_pow2 (length chunkHashes) 0 (length chunkHashes))
    as (k & Hk & Hge & Hmin); [simpl; lia|by left|].
  change (pad_loop (length chunkHashes) (2 ^ 0) (length chunkHashes))
    with (padded_size (length chunkHashes)) in Hk.
  intros [= <-]. cbn [leaves nodes]. rewrite pad_leaves_length, Hk. intros Hnodes.
  exists k. repeat split; try done. by apply pad_leaves_app.
Qed.

(** X3 (merkle.go, BuildMerkleTree): no tree is built from no hash; from
    [len] hashes the tree has [2^k] leaves, the smallest power of two that
    is at least [len], made of the hashes in their order followed by as
    many copies of SHA-256 of the empty string as are missing, and
    [2 * 2^k - 1] nodes. *)
Theorem BuildMerkleTree_padding (chunkHashes : list bytes) :
  BuildMerkleTree [] = Err ErrMerkleEmpty /\
  (chunkHashes <> [] ->
   exists t k,
     BuildMerkleTree chunkHashes = Ok t /\
     length (leaves t) = 2 ^ k /\
     length chunkHashes <= 2 ^ k /\
     (k = 0 \/ 2 ^ (k - 1) < length chunkHashes) /\
     leaves t = chunkHashes
                ++ replicate (2 ^ k - length chunkHashes) (sha256 []) /\
     length (nodes t) = 2 * 2 ^ k - 1).
Proof.
  split; [reflexivity|]. intros Hne.
  destruct (BuildMerkleTree_spec chunkHashes Hne) as (t & Ht & _).
  destruct (BuildMerkleTree_leaves chunkHashes t Ht) as (k & Hk).
  by exists t, k.
Qed.

Lemma path_length (k : nat) :
  forall fuel nd idx,
    idx <= fuel -> 2 ^ k <= idx + 1 < 2 ^ (S k) ->
    length (fst (path fuel nd idx)) = k.
Proof.
  induction k as [|k IH]; intros fuel nd idx Hf Hidx.
  - cbn in Hidx. assert (idx = 0) as -> by lia.
    destruct fuel; reflexivity.
  - assert (Hpos : 0 < idx).
    { assert (2 <= 2 ^ S k) by (cbn [Nat.pow]; pose proof (Nat.pow_nonzero 2 k); lia).
      lia. }
    destruct fuel as [|fuel]; [lia|]. cbn [path].
    destruct (Nat.ltb_spec 0 idx); [|lia].
    specialize (IH fuel nd ((idx - 1) / 2)).
    destruct (path fuel nd ((idx - 1) / 2)) as [s l]. cbn [fst length] in *.
    f_equal. apply IH.
    + assert ((idx - 1) / 2 <= idx - 1) by (apply Nat.Div0.div_le_upper_bound; lia).
      lia.
    + cbn [Nat.pow] in Hidx.
      assert (E : idx - 1 = 2 * ((idx - 1) / 2) + (idx - 1) mod 2)
        by apply Nat.div_mod_eq.
      assert ((idx - 1) mod 2 < 2) by (apply Nat.mod_upper_bound; lia).
      cbn [Nat.pow]. lia.
Qed.

(** X4 (merkle.go, GenerateProof): the index is checked against the number
    of leaves after padding, [2^k], so a proof is generated for exactly the
    indices [0 .. 2^k - 1], padding leaves included; it carries the index,
    the leaf at the index, and one sibling and one direction bit for each
    of the [k] levels below the root. *)
Theorem GenerateProof_shape (chunkHashes : list bytes) (t : MerkleTree)
    (chunkIndex : Z) :
  BuildMerkleTree chunkHashes = Ok t ->
  exists k,
    length (leaves t) = 2 ^ k /\
    ((chunkIndex < 0 \/ Z.of_nat (2 ^ k) <= chunkIndex)%Z ->
       GenerateProof t chunkIndex = Err ErrMerkleIndexRange) /\
    ((0 <= chunkIndex < Z.of_nat (2 ^ k))%Z ->
       exists p, GenerateProof t chunkIndex = Ok p /\
         ChunkIndex p = chunkIndex /\
         ChunkHash p = leaves t !!! Z.to_nat chunkIndex /\
         length (Siblings p) = k /\ length (IsLeft p) = k).
Proof.
  intros Ht. destruct (BuildMerkleTree_leaves chunkHashes t Ht) as (k & Hk & _).
  exists k. split; [done|]. unfold GenerateProof. rewrite Hk. split.
  - intros Hout.
    destruct (Z.ltb_spec chunkIndex 0); [done|].
    destruct (Z.geb_spec chunkIndex (Z.of_nat (2 ^ k))); [done|lia].
  - intros Hin.
    destruct (Z.ltb_spec chunkIndex 0); [lia|].
    destruct (Z.geb_spec chunkIndex (Z.of_nat (2 ^ k))); [lia|]. cbn [orb].
    rewrite proof_loop_path. cbn [app].
    eexists. split; [reflexivity|]. cbn [ChunkIndex ChunkHash Siblings IsLeft].
    split; [done|]. split; [done|].
    rewrite <- path_lengths.
    assert (length (fst (path (2 ^ k - 1 + Z.to_nat chunkIndex) (nodes t)
                           (2 ^ k - 1 + Z.to_nat chunkIndex))) = k); [|done].
    apply path_length; [done|]. cbn [Nat.pow].
    pose proof (Nat.pow_nonzero 2 k). generalize dependent (2 ^ k). intros; lia.
Qed.

Lemma verify_loop_panics (siblings : list bytes) (isLeft : list bool) :
  forall current i,
    (i <= length isLeft < i + length siblings ->
       verify_loop current i siblings isLeft = Err PanicIndexOutOfRange) /\
    (i + length siblings <= length isLeft ->
       exists h, verify_loop current i siblings isLeft = Ok h).
Proof.
  induction siblings as [|s siblings IH]; intros current i; cbn [verify_loop length].
  - split; [lia|]. intros _. by eexists.
  - destruct (isLeft !! i) as [l|] eqn:Hl.
    + apply lookup_lt_Some in Hl. split.
      * intros H. apply IH. lia.
      * intros H. apply IH. lia.
    + apply lookup_ge_None in Hl. split; [done|lia].
Qed.

(** X5 (merkle.go, VerifyProof): the loop indexes IsLeft with the position
    of each sibling without checking its length, so a proof with fewer
    direction bits than siblings makes VerifyProof panic with an index out
    of range, and every other proof is answered with acceptance or with
    MerkleProofFail. *)
Theorem VerifyProof_panics (proof : Proof) (expectedRoot : bytes) :
  (length (IsLeft proof) < length (Siblings proof) ->
     VerifyProof proof expectedRoot = Err PanicIndexOutOfRange) /\
  (length (Siblings proof) <= length (IsLeft proof) ->
     VerifyProof proof expectedRoot = Ok tt \/
     VerifyProof proof expectedRoot = Err ErrMerkleProofFail).
Proof.
  destruct (verify_loop_panics (Siblings proof) (IsLeft proof) (ChunkHash proof) 0)
    as [Hp Hok].
  unfold VerifyProof. split.
  - intros H. rewrite Hp by lia. reflexivity.
  - intros H. destruct Hok as [h ->]; [lia|]. cbn [bind].
    destruct (bytesEqual h expectedRoot); [by left|by right].
Qed.

End merkle_shape.

(** X4 at the tree of three chunk hashes and the index of the padding leaf. *)
Lemma GenerateProof_shape_witness :
  exists k,
    length (Merkle.leaves example_tree) = 2 ^ k /\
    ((3 < 0 \/ Z.of_nat (2 ^ k) <= 3)%Z ->
       Merkle.GenerateProof example_tree 3 = Err ErrMerkleIndexRange) /\
    ((0 <= 3 < Z.of_nat (2 ^ k))%Z ->
       exists p, Merkle.GenerateProof example_tree 3 = Ok p /\
         Merkle.ChunkIndex p = 3%Z /\
         Merkle.ChunkHash p = Merkle.leaves example_tree !!! Z.to_nat 3 /\
         length (Merkle.Siblings p) = k /\ length (Merkle.IsLeft p) = k).
Proof.
  apply (GenerateProof_shape example_hashes example_tree 3).
  vm_compute. reflexivity.
Defined.

(** ** The chunks of Split and SplitReader *)

Section chunk_layout_proofs.
Import Chunker.

Lemma chunk_count_lt (size len k : nat) :
  0 < size -> (k * size < len <-> k < chunk_count size len).
Proof.
  intros Hs. unfold chunk_count. split.
  - intros H. apply Nat.lt_le_incl in H as H'.
    assert (S k <= (len + size - 1) / size); [|lia].
    apply Nat.div_le_lower_bound; lia.
  - intros H.
    assert (Hq : size * ((len + size - 1) / size) <= len + size - 1)
      by (apply Nat.Div0.mul_div_le).
    nia.
Qed.

Lemma chunks_of_snoc (size : nat) (data : bytes) (k : nat) :
  map (chunk_at size data) (seq 0 k) ++ [chunk_at size data k]
  = map (chunk_at size data) (seq 0 (S k)).
Proof. by rewrite seq_S, map_app. Qed.

Local Open Scope Z_scope.

Lemma split_loop_layout (c : Chunker) (data : bytes) :
  0 < chunkSize c < 2 ^ 63 ->
  Z.of_nat (length data) < 2 ^ 62 ->
  let size := Z.to_nat (chunkSize c) in
  forall fuel k,
    (k <= chunk_count size (length data))%nat ->
    (length data <= k * size + fuel)%nat ->
    split_loop fuel c data (Z.of_nat (k * size)) (map (chunk_at size data) (seq 0 k))
    = chunks_of size data.
Proof.
  intros Hcs Hlen size. assert (Hsz : (0 < size)%nat) by (unfold size; lia).
  assert (Hzs : chunkSize c = Z.of_nat size) by (unfold size; lia).
  clearbody size.
  induction fuel as [|fuel IH]; intros k Hk Hfuel; cbn [split_loop]; cbv zeta.
  - assert (k = chunk_count size (length data)) as ->; [|done].
    pose proof (chunk_count_lt size (length data) k Hsz). lia.
  - destruct (Z.ltb_spec (Z.of_nat (k * size)) (Z.of_nat (length data))) as [Hlt|Hge].
    2:{ assert (k = chunk_count size (length data)) as ->; [|done].
        pose proof (chunk_count_lt size (length data) k Hsz). lia. }
    assert (Hk' : (k < chunk_count size (length data))%nat)
      by (apply chunk_count_lt; [done|lia]).
    assert (Hmul : (k = 0 \/ size <= k * size)%nat) by (destruct k; [by left|right; lia]).
    rewrite int64_small by lia.
    rewrite length_map, length_seq.
    assert (Hd : slice (Z.to_nat (Z.of_nat (k * size)))
                   (Z.to_nat (if Z.of_nat (k * size) + chunkSize c
                                 >? Z.of_nat (length data)
                              then Z.of_nat (length data)
                              else Z.of_nat (k * size) + chunkSize c)) data
                 = take size (drop (k * size) data)).
    { unfold slice. rewrite Nat2Z.id.
      destruct (Z.gtb_spec (Z.of_nat (k * size) + chunkSize c) (Z.of_nat (length data))).
      - rewrite !take_ge; [done| |]; rewrite length_drop; lia.
      - f_equal. lia. }
    rewrite Hd. fold (chunk_at size data k). rewrite chunks_of_snoc.
    replace (Z.of_nat (k * size) + chunkSize c) with (Z.of_nat (S k * size)) by lia.
    apply IH; lia.
Qed.

Lemma Split_chunks_of (c : Chunker) (data : bytes) :
  0 < chunkSize c < 2 ^ 63 ->
  Z.of_nat (length data) < 2 ^ 62 ->
  Split c data = chunks_of (Z.to_nat (chunkSize c)) data.
Proof.
  intros Hcs Hlen. unfold Split.
  apply (split_loop_layout c data Hcs Hlen (length data) 0%nat); lia.
Qed.

(** X6 (chunker.go, Split): Split cuts the data every [chunkSize] bytes:
    it makes ceil(len / chunkSize) chunks; chunk [i] carries the index
    [i], the bytes from [i * chunkSize] on, [chunkSize] of them or, in the
    last chunk, what is left, never none, and their SHA-256. *)
Theorem Split_layout (c : Chunker) (data : bytes) :
  0 < chunkSize c < 2 ^ 63 ->
  Z.of_nat (length data) < 2 ^ 62 ->
  let size := Z.to_nat (chunkSize c) in
  Split c data = chunks_of size data /\
  length (Split c data) = chunk_count size (length data) /\
  forall (i : nat) ch, Split c data !! i = Some ch ->
    Index ch = Z.of_nat i /\
    Data ch = take size (drop (i * size) data) /\
    Hash ch = sha256 (Data ch) /\
    (0 < length (Data ch) <= size)%nat /\
    (S i < length (Split c data) -> length (Data ch) = size)%nat.
Proof.
  intros Hcs Hlen size. assert (Hsz : (0 < size)%nat) by (unfold size; lia).
  assert (E : Split c data = chunks_of size data) by (by apply Split_chunks_of).
  rewrite E. split; [done|]. unfold chunks_of. rewrite length_map, length_seq.
  split; [done|]. intros i ch Hi.
  rewrite list_lookup_fmap in Hi.
  destruct (seq 0 (chunk_count size (length data)) !! i) as [j|] eqn:Hj; [|done].
  apply lookup_seq in Hj as [-> Hj]. cbn in Hi. injection Hi as <-.
  cbn [chunk_at Index Data Hash]. repeat split.
  - apply chunk_count_lt in Hj; [|done].
    rewrite length_take, length_drop. lia.
  - rewrite length_take. lia.
  - intros Hnext. apply chunk_count_lt in Hnext; [|done].
    rewrite length_take, length_drop. lia.
Qed.

Lemma read_loop_layout (c : Chunker) (data : bytes) :
  0 < chunkSize c ->
  let size := Z.to_nat (chunkSize c) in
  forall fuel k,
    (k <= chunk_count size (length data))%nat ->
    (length data - k * size < fuel)%nat ->
    ChunkReader.read_loop fuel c (drop (k * size) data)
      (map (chunk_at size data) (seq 0 k))
    = Some (Ok (chunks_of size data)).
Proof.
  intros Hcs size. assert (Hsz : (0 < size)%nat) by (unfold size; lia).
  induction fuel as [|fuel IH]; intros k Hk Hfuel; [lia|].
  cbn [ChunkReader.read_loop]. fold size. clearbody size. unfold ChunkReader.ReadFull.
  rewrite length_drop.
  rewrite decide_False by lia.
  pose proof (chunk_count_lt size (length data) k Hsz) as Hc.
  pose proof (chunk_count_lt size (length data) (S k) Hsz) as Hc'.
  destruct (decide (length data - k * size = 0)%nat) as [Hend|Hmore].
  - cbn [length Nat.ltb Nat.leb].
    assert (k = chunk_count size (length data)) as -> by lia. done.
  - destruct (decide (length data - k * size < size)%nat) as [Hshort|Hfull].
    + assert (Hl : (0 <? length (drop (k * size) data))%nat = true)
        by (apply Nat.ltb_lt; rewrite length_drop; lia).
      rewrite Hl, length_map, length_seq.
      assert (Hd : drop (k * size) data = take size (drop (k * size) data))
        by (rewrite take_ge; [done|rewrite length_drop; lia]).
      rewrite Hd at 1 2. fold (chunk_at size data k). rewrite chunks_of_snoc.
      assert (S k = chunk_count size (length data)) as -> by lia. done.
    + assert (Hl : (0 <? length (take size (drop (k * size) data)))%nat = true)
        by (apply Nat.ltb_lt; rewrite length_take, length_drop; lia).
      rewrite Hl, length_map, length_seq.
      fold (chunk_at size data k). rewrite chunks_of_snoc.
      rewrite drop_drop.
      replace (k * size + size)%nat with (S k * size)%nat by lia.
      apply IH; lia.
Qed.

(** X7 (chunker.go, SplitReader): on a reader that delivers the data and
    then the end of the stream, SplitReader ends without an error and
    returns the chunks that Split makes of the data. *)
Theorem SplitReader_Split (c : Chunker) (data : bytes) :
  0 < chunkSize c < 2 ^ 63 ->
  Z.of_nat (length data) < 2 ^ 62 ->
  ChunkReader.SplitReader c data = Some (Ok (Split c data)).
Proof.
  intros Hcs Hlen. rewrite Split_chunks_of by done.
  unfold ChunkReader.SplitReader.
  apply (read_loop_layout c data (proj1 Hcs) (S (length data)) 0%nat); lia.
Qed.

End chunk_layout_proofs.

(** X6 at thirteen bytes cut every four. *)
Lemma Split_layout_witness :
  let c := Chunker.NewChunker 4 in
  let data := bytes_of_string "hello, world!" in
  Chunker.Split c data = chunks_of (Z.to_nat (Chunker.chunkSize c)) data /\
  length (Chunker.Split c data)
    = chunk_count (Z.to_nat (Chunker.chunkSize c)) (length data).
Proof.
  intros c data.
  assert (H1 : (0 < Chunker.chunkSize c < 2 ^ 63)%Z) by (cbn; lia).
  assert (H2 : (Z.of_nat (length data) < 2 ^ 62)%Z) by (cbn; lia).
  pose proof (Split_layout c data H1 H2) as (E & L & _).
  split; [exact E|exact L].
Defined.

(** X7 at the same data. *)
Lemma SplitReader_Split_witness :
  ChunkReader.SplitReader (Chunker.NewChunker 4) (bytes_of_string "hello, world!")
  = Some (Ok (Chunker.Split (Chunker.NewChunker 4) (bytes_of_string "hello, world!"))).
Proof.
  apply (SplitReader_Split (Chunker.NewChunker 4) (bytes_of_string "hello, world!")).
  - cbn. lia.
  - cbn. lia.
Defined.

(** ** The AEAD, the sending chain and replayed messages *)

Section aead_round_trip.
Context {C : Cipher} {CC : CipherCorrect C}.
Import AEAD.

(** X8 (aead.go, Seal and Open): what an instance seals is the 12-byte
    nonce followed by the plaintext and the 16-byte tag, and every instance
    with the same 32-byte key opens it to the plaintext under the same
    associated data, whatever its own prefix and counter are: Open takes
    the nonce from the message. *)
Theorem AEAD_Open_Seal (a a' : AEAD) (plaintext additionalData : bytes) :
  length (key a) = KeySize -> length (prefix a) = 4 -> key a' = key a ->
  length (snd (Seal a plaintext additionalData))
    = NonceSize + length plaintext + Overhead /\
  Open a' (snd (Seal a plaintext additionalData)) additionalData = Ok plaintext /\
  Open a' (snd (Seal a plaintext additionalData)) additionalData
    = Open a (snd (Seal a plaintext additionalData)) additionalData.
Proof.
  intros Hk Hp Hkey. unfold KeySize in Hk.
  assert (Hn : length (prefix a ++ PutUint64 (uint64 (seq a + 1))) = 12).
  { rewrite length_app, PutUint64_length. lia. }
  assert (Hopen : forall b, key b = key a ->
            Open b (snd (Seal a plaintext additionalData)) additionalData = Ok plaintext).
  { intros b Hb. unfold Seal, nextNonce, Open, NonceSize, Overhead.
    cbn [fst snd key prefix seq].
    rewrite length_app, cipher_Seal_length. rewrite decide_False by lia.
    rewrite take_app_length', drop_app_length' by done.
    rewrite Hb. by rewrite cipher_Open_Seal. }
  split; [|split].
  - unfold Seal, nextNonce, NonceSize, Overhead. cbn [fst snd key prefix seq].
    rewrite length_app, cipher_Seal_length. lia.
  - by apply Hopen.
  - by rewrite !Hopen.
Qed.

End aead_round_trip.

(** X8 at a key of 32 bytes, two instances with different prefixes and
    counters. *)
Lemma AEAD_Open_Seal_witness :
  let a := {| AEAD.key := replicate 32 x07; AEAD.prefix := replicate 4 x01;
              AEAD.seq := 5 |} in
  let a' := {| AEAD.key := replicate 32 x07; AEAD.prefix := replicate 4 x02;
               AEAD.seq := 0 |} in
  length (snd (AEAD.Seal (C := Example.cipher) a (bytes_of_string "plain") []))
    = AEAD.NonceSize + length (bytes_of_string "plain") + AEAD.Overhead /\
  AEAD.Open (C := Example.cipher) a'
    (snd (AEAD.Seal (C := Example.cipher) a (bytes_of_string "plain") [])) []
    = Ok (bytes_of_string "plain") /\
  AEAD.Open (C := Example.cipher) a'
    (snd (AEAD.Seal (C := Example.cipher) a (bytes_of_string "plain") [])) []
    = AEAD.Open (C := Example.cipher) a
        (snd (AEAD.Seal (C := Example.cipher) a (bytes_of_string "plain") [])) [].
Proof.
  intros a a'.
  apply (@AEAD_Open_Seal Example.cipher example_cipher_correct a a'
           (bytes_of_string "plain") []); reflexivity.
Defined.

Section wire_message.
Context {C : Cipher}.
Import Ratchet.
Local Open Scope Z_scope.

(** X9 (ratchet.go, Encode and DecodeEncryptedMessage): a message whose
    generation is a [uint64] is decoded from its encoding, which is eight
    bytes longer than the ciphertext; input shorter than eight bytes is
    refused and every other input is decoded. *)
Theorem DecodeEncryptedMessage_Encode (m : EncryptedMessage) (data : bytes) :
  (0 <= Generation m < 2 ^ 64 ->
     DecodeEncryptedMessage (Encode m) = Ok' m /\
     length (Encode m) = (8 + length (Ciphertext m))%nat) /\
  ((length data < 8)%nat -> DecodeEncryptedMessage data = Err' ErrMessageTooShort) /\
  ((8 <= length data)%nat ->
     exists m', DecodeEncryptedMessage data = Ok' m' /\
                Ciphertext m' = drop 8 data /\ 0 <= Generation m' < 2 ^ 64).
Proof.
  split; [|split].
  - intros Hg. unfold DecodeEncryptedMessage, Encode.
    rewrite length_app, PutUint64_length. rewrite decide_False by lia.
    rewrite slice_app_l by done.
    pose proof (Uint64_PutUint64 (Generation m) []) as E. rewrite app_nil_r in E.
    rewrite E. unfold uint64. rewrite Z.mod_small by lia.
    rewrite drop_app_length' by done. by destruct m.
  - intros H. unfold DecodeEncryptedMessage. by rewrite decide_True.
  - intros H. unfold DecodeEncryptedMessage. rewrite decide_False by lia.
    eexists. split; [reflexivity|]. cbn [Ciphertext Generation]. split; [done|].
    apply Uint64_range.
Qed.

End wire_message.

Section chain_steps.
Context {C : Cipher}.
Import Ratchet Props.
Local Open Scope Z_scope.

Lemma Step_state (c : Chain) (rnd : option bytes) :
  0 <= generation c < MaxGeneration ->
  fst (Step c rnd)
  = {| chainKey := fst (deriveKeysStatic (chainKey c));
       generation := generation c + 1 |}.
Proof.
  intros Hg. unfold Step, MaxGeneration in *.
  destruct (Z.geb_spec (generation c) (2 ^ 32)); [lia|].
  unfold deriveKeys. destruct (deriveKeysStatic (chainKey c)) as [nx mk].
  unfold uint64. rewrite Z.mod_small by lia.
  by destruct (NewAEAD mk rnd).
Qed.

Lemma Step_exhausted (c : Chain) (rnd : option bytes) :
  MaxGeneration <= generation c -> Step c rnd = (c, Err ErrRatchetExhausted).
Proof.
  intros Hg. unfold Step.
  destruct (Z.geb_spec (generation c) MaxGeneration); [done|lia].
Qed.

Lemma steps_state (key : bytes) (rnds : list (option bytes)) (g : nat) :
  Z.of_nat g + Z.of_nat (length rnds) <= MaxGeneration ->
  steps {| chainKey := advance g key; generation := Z.of_nat g |} rnds
  = {| chainKey := advance (g + length rnds) key;
       generation := Z.of_nat (g + length rnds) |}.
Proof.
  revert g. induction rnds as [|rnd rnds IH]; intros g Hg; cbn [steps length] in *.
  - by rewrite Nat.add_0_r.
  - rewrite Step_state by (cbn [generation]; unfold MaxGeneration in *; lia).
    cbn [chainKey generation].
    replace (Z.of_nat g + 1) with (Z.of_nat (S g)) by lia.
    change (fst (deriveKeysStatic (advance g key))) with (advance (S g) key).
    rewrite IH by lia. f_equal; f_equal; lia.
Qed.

Lemma steps_exhausted (c : Chain) (rnds : list (option bytes)) :
  MaxGeneration <= generation c -> steps c rnds = c.
Proof.
  intros Hg. induction rnds as [|rnd rnds IH]; [done|].
  cbn [steps]. by rewrite Step_exhausted.
Qed.

Lemma steps_app (c : Chain) (l1 l2 : list (option bytes)) :
  steps c (l1 ++ l2) = steps (steps c l1) l2.
Proof. revert c. induction l1 as [|x l1 IH]; intros c; [done|]. apply IH. Qed.

(** X10 (ratchet.go, Step): a chain numbers its Steps 0, 1, 2, ...: after
    [n] Steps, whether or not they could read a nonce prefix, it stands at
    generation [n] with the chain key advanced [n] times, and the next Step
    hands out generation [n] with the message key of that chain key; a
    failed read of the nonce prefix uses the generation up.  After 2^32
    Steps every Step fails with RatchetExhausted and changes nothing. *)
Theorem Step_counts (key : bytes) (c : Chain) (rnds : list (option bytes))
    (rnd : option bytes) :
  NewChain key = Ok c ->
  let n := length rnds in
  let c' := steps c rnds in
  (Z.of_nat n < MaxGeneration ->
     c' = {| chainKey := advance n key; generation := Z.of_nat n |} /\
     fst (Step c' rnd)
       = {| chainKey := advance (S n) key; generation := Z.of_nat (S n) |} /\
     snd (Step c' rnd)
       = match rnd with
         | Some prefix =>
             Ok ({| AEAD.key := message_key key n; AEAD.prefix := prefix;
                    AEAD.seq := 0 |}, Z.of_nat n)
         | None => Err ErrRandRead
         end) /\
  (MaxGeneration <= Z.of_nat n ->
     generation c' = MaxGeneration /\
     Step c' rnd = (c', Err ErrRatchetExhausted)).
Proof.
  unfold NewChain. case_decide as Hk; [|done]. intros [= <-]. cbv zeta.
  change {| chainKey := key; generation := 0 |}
    with {| chainKey := advance 0 key; generation := Z.of_nat 0 |}.
  split.
  - intros Hn. rewrite steps_state by (cbn; lia). cbn [Nat.add].
    split; [done|]. split.
    + rewrite Step_state by (cbn [generation]; lia). cbn [chainKey generation].
      f_equal. lia.
    + unfold Step, MaxGeneration in *. cbn [generation chainKey].
      destruct (Z.geb_spec (Z.of_nat (length rnds)) (2 ^ 32)); [lia|].
      unfold deriveKeys, deriveKeysStatic. cbn [chainKey].
      destruct rnd as [prefix|].
      * rewrite NewAEAD_message_key. reflexivity.
      * unfold NewAEAD, AEAD.NewAEAD. rewrite sha256_length.
        rewrite decide_True by done. reflexivity.
  - intros Hn.
    assert (Hsplit : rnds = take (Z.to_nat MaxGeneration) rnds
                            ++ drop (Z.to_nat MaxGeneration) rnds)
      by (by rewrite take_drop).
    assert (Hlen : length (take (Z.to_nat MaxGeneration) rnds) = Z.to_nat MaxGeneration)
      by (rewrite length_take; lia).
    assert (Hc : steps {| chainKey := advance 0 key; generation := Z.of_nat 0 |} rnds
                 = {| chainKey := advance (Z.to_nat MaxGeneration) key;
                      generation := MaxGeneration |}).
    { rewrite Hsplit, steps_app, steps_state by (rewrite Hlen; unfold MaxGeneration; lia).
      rewrite Hlen. cbn [Nat.add].
      rewrite Z2Nat.id by (unfold MaxGeneration; lia).
      apply steps_exhausted. cbn [generation]. lia. }
    rewrite Hc. cbn [generation]. split; [done|].
    apply Step_exhausted. cbn [generation]. lia.
Qed.

(** X11 (ratchet.go, Receiver.Open): for the message of the generation the
    receiver stands at, Open changes the receiver only when decryption
    succeeds; after any error the receiver is as before, so the authentic
    message of that generation can still be opened. *)
Theorem Open_in_order_failure (r r' : Receiver) (msg : EncryptedMessage)
    (ad : bytes) (rnd : option bytes) (e : error) :
  Generation msg = currentGen r ->
  Open r msg ad rnd = (r', Err e) ->
  r' = r.
Proof.
  intros Hg. unfold Open. rewrite Hg, Z.eqb_refl.
  destruct (deriveKeysStatic (current r)) as [nx mk].
  destruct (NewAEAD mk rnd) as [a|]; [|congruence].
  destruct (AEAD.Open a (Ciphertext msg) ad); [discriminate|congruence].
Qed.

Lemma spent_rejected (r : Receiver) (msg : EncryptedMessage) (ad : bytes)
    (rnd : option bytes) :
  spent r (Generation msg) -> Open r msg ad rnd = (r, Err ErrInvalidGeneration).
Proof.
  intros [Hlt Hc]. unfold Open. rewrite Hc.
  destruct (Z.eqb_spec (Generation msg) (currentGen r)); [lia|].
  destruct (Z.gtb_spec (Generation msg) (currentGen r)); [lia|done].
Qed.

Lemma Open_spends (r r' : Receiver) (msg : EncryptedMessage) (ad pt : bytes)
    (rnd : option bytes) :
  Receiver_ok r -> 0 <= Generation msg -> Generation msg + 1 < 2 ^ 64 ->
  Open r msg ad rnd = (r', Ok pt) ->
  spent r' (Generation msg).
Proof.
  intros [Hcur Hinv] Hg0 Hg. unfold Open, spent.
  destruct (Z.eqb_spec (Generation msg) (currentGen r)) as [E|Hne].
  - destruct (deriveKeysStatic (current r)) as [nx mk].
    destruct (NewAEAD mk rnd) as [a|]; [|discriminate].
    destruct (AEAD.Open a (Ciphertext msg) ad); [|discriminate].
    intros [= <- _]. cbn [currentGen chains]. unfold uint64.
    rewrite Z.mod_small by lia. split; [lia|].
    destruct (chains r !! Generation msg) as [k|] eqn:Hk; [|done].
    apply Hinv in Hk. lia.
  - destruct (chains r !! Generation msg) as [cached|] eqn:Hc.
    + destruct (deriveKeysStatic cached) as [nx mk].
      destruct (NewAEAD mk rnd) as [a|]; [|discriminate].
      intros [= <- _]. cbn [currentGen chains]. apply Hinv in Hc.
      split; [lia|]. apply lookup_delete_eq.
    + destruct (Z.gtb_spec (Generation msg) (currentGen r)) as [Hgt|]; [|discriminate].
      destruct (Z.gtb_spec (int64 (Generation msg - currentGen r)) (maxSkip r));
        [discriminate|].
      pose proof (cache_loop_lookup (Z.to_nat (Generation msg - currentGen r))
                    (currentGen r) (current r) (chains r) (Generation msg)) as Hl.
      destruct (cache_loop _ _ _ _) as [ck chs]. cbn [snd] in Hl.
      destruct (deriveKeysStatic ck) as [nx mk].
      assert (Hs : spent {| chains := chs; current := nx;
                            currentGen := uint64 (Generation msg + 1);
                            maxSkip := maxSkip r |} (Generation msg)).
      { split; cbn [currentGen chains].
        - unfold uint64. rewrite Z.mod_small by lia. lia.
        - rewrite Hl. rewrite decide_False by lia. done. }
      destruct (NewAEAD mk rnd); [|discriminate]. by intros [= <- _].
Qed.

Lemma Open_keeps_spent (r : Receiver) (msg : EncryptedMessage) (ad : bytes)
    (rnd : option bytes) (g : Z) :
  Receiver_ok r -> 0 <= Generation msg -> Generation msg + 1 < 2 ^ 64 ->
  spent r g -> spent (fst (Open r msg ad rnd)) g.
Proof.
  intros [Hcur Hinv] Hg0 Hg [Hlt Hnone]. unfold Open.
  destruct (Z.eqb_spec (Generation msg) (currentGen r)) as [E|Hne].
  - destruct (deriveKeysStatic (current r)) as [nx mk].
    destruct (NewAEAD mk rnd) as [a|]; [|done].
    destruct (AEAD.Open a (Ciphertext msg) ad); [|done].
    split; cbn [fst currentGen chains]; [|done].
    unfold uint64. rewrite Z.mod_small by lia. lia.
  - destruct (chains r !! Generation msg) as [cached|] eqn:Hc.
    + destruct (deriveKeysStatic cached) as [nx mk].
      destruct (NewAEAD mk rnd) as [a|]; [|done].
      split; cbn [fst currentGen chains]; [done|].
      apply lookup_delete_None. by right.
    + destruct (Z.gtb_spec (Generation msg) (currentGen r)) as [Hgt|]; [|done].
      destruct (Z.gtb_spec (int64 (Generation msg - currentGen r)) (maxSkip r)); [done|].
      pose proof (cache_loop_lookup (Z.to_nat (Generation msg - currentGen r))
                    (currentGen r) (current r) (chains r) g) as Hl.
      destruct (cache_loop _ _ _ _) as [ck chs]. cbn [snd] in Hl.
      destruct (deriveKeysStatic ck) as [nx mk].
      assert (Hs : spent {| chains := chs; current := nx;
                            currentGen := uint64 (Generation msg + 1);
                            maxSkip := maxSkip r |} g).
      { split; cbn [currentGen chains].
        - unfold uint64. rewrite Z.mod_small by lia. lia.
        - rewrite Hl. rewrite decide_False by lia. done. }
      by destruct (NewAEAD mk rnd).
Qed.

Lemma opens_keep (msgs : list (EncryptedMessage * bytes * option bytes))
    (r : Receiver) (g : Z) :
  Forall (fun m => 0 <= Generation (m.1.1) /\ Generation (m.1.1) + 1 < 2 ^ 64) msgs ->
  Receiver_ok r -> spent r g ->
  Receiver_ok (opens r msgs) /\ spent (opens r msgs) g.
Proof.
  revert r. induction msgs as [|[[m ad] rnd] msgs IH]; intros r Hall Hok Hs; [done|].
  apply Forall_cons in Hall as [[H0 H1] Hall]. cbn in H0, H1.
  unfold opens. cbn [fold_left]. apply IH; [done| |].
  - by apply Open_preserves_ok.
  - by apply Open_keeps_spent.
Qed.

(** X12 (ratchet.go, Receiver.Open): no generation is accepted twice.  Once
    Open has returned the plaintext of a message of generation [g], every
    later call with a message of generation [g], whatever was opened in
    between, fails with InvalidGeneration and leaves the receiver as it
    is.  (Generations are below 2^64 - 1, where the receiver's counter
    would wrap.) *)
Theorem Open_rejects_replay (r r1 : Receiver) (msg replayed : EncryptedMessage)
    (ad ad' pt : bytes) (rnd rnd' : option bytes)
    (between : list (EncryptedMessage * bytes * option bytes)) :
  Receiver_ok r ->
  0 <= Generation msg -> Generation msg + 1 < 2 ^ 64 ->
  Forall (fun m => 0 <= Generation (m.1.1) /\ Generation (m.1.1) + 1 < 2 ^ 64)
         between ->
  Open r msg ad rnd = (r1, Ok pt) ->
  Generation replayed = Generation msg ->
  Open (opens r1 between) replayed ad' rnd'
  = (opens r1 between, Err ErrInvalidGeneration).
Proof.
  intros Hok H0 H1 Hall Hopen Hgen.
  assert (Hs : spent r1 (Generation msg)) by (by eapply Open_spends).
  assert (Hok1 : Receiver_ok r1).
  { replace r1 with (fst (Open r msg ad rnd)) by (by rewrite Hopen).
    by apply Open_preserves_ok. }
  destruct (opens_keep between r1 (Generation msg) Hall Hok1 Hs) as [_ Hs'].
  apply spent_rejected. by rewrite Hgen.
Qed.

End chain_steps.

(** X10 at the chain of the all-zero key after three Steps, the second of
    which could not read its nonce prefix. *)
Lemma Step_counts_witness :
  let key := replicate 32 x00 in
  let rnd := Some (replicate 4 x04) in
  let n := length example_rnds in
  let c' := steps example_chain example_rnds in
  (Z.of_nat n < Ratchet.MaxGeneration ->
     c' = {| Ratchet.chainKey := Props.advance n key;
             Ratchet.generation := Z.of_nat n |} /\
     fst (Ratchet.Step c' rnd)
       = {| Ratchet.chainKey := Props.advance (S n) key;
            Ratchet.generation := Z.of_nat (S n) |} /\
     snd (Ratchet.Step c' rnd)
       = match rnd with
         | Some prefix =>
             Ok ({| AEAD.key := message_key key n; AEAD.prefix := prefix;
                    AEAD.seq := 0 |}, Z.of_nat n)
         | None => Err ErrRandRead
         end)%Z /\
  (Ratchet.MaxGeneration <= Z.of_nat n ->
     Ratchet.generation c' = Ratchet.MaxGeneration /\
     Ratchet.Step c' rnd = (c', Err ErrRatchetExhausted))%Z.
Proof.
  intros key rnd.
  exact (Step_counts key example_chain example_rnds rnd eq_refl).
Defined.

(** X11 at a fresh receiver and a message of generation 0 that is too
    short to hold a nonce and a tag. *)
Lemma Open_in_order_failure_witness :
  fst (Ratchet.Open (C := Example.cipher) example_receiver
         {| Ratchet.Generation := 0; Ratchet.Ciphertext := replicate 27 x00 |} []
         (Some (replicate 4 x00)))
  = example_receiver.
Proof.
  assert (H : Ratchet.Open (C := Example.cipher) example_receiver
                {| Ratchet.Generation := 0; Ratchet.Ciphertext := replicate 27 x00 |} []
                (Some (replicate 4 x00))
              = (example_receiver, Err ErrCiphertextTooShort))
    by (vm_compute; reflexivity).
  rewrite H.
  exact (@Open_in_order_failure Example.cipher example_receiver example_receiver
           {| Ratchet.Generation := 0; Ratchet.Ciphertext := replicate 27 x00 |} []
           (Some (replicate 4 x00)) ErrCiphertextTooShort eq_refl H).
Defined.

Lemma example_receiver_ok : Props.Receiver_ok example_receiver.
Proof.
  split; [cbn; lia|]. intros g k Hk. cbn in Hk. rewrite lookup_empty in Hk. discriminate.
Qed.

(** X12 at a fresh receiver: the message of generation 1 is opened, a
    message of generation 0 is tried, and the message of generation 1 is
    handed in again. *)
Lemma Open_rejects_replay_witness :
  let between := [({| Ratchet.Generation := 0; Ratchet.Ciphertext := [] |}, [],
                   Some (replicate 4 x00))] in
  Ratchet.Open (C := Example.cipher) (opens (C := Example.cipher) example_receiver_after between)
    example_sealed [] (Some (replicate 4 xff))
  = (opens (C := Example.cipher) example_receiver_after between, Err ErrInvalidGeneration).
Proof.
  intros between.
  assert (H : Ratchet.Open (C := Example.cipher) example_receiver example_sealed []
                (Some (replicate 4 xff))
              = (example_receiver_after, Ok (bytes_of_string "m1")))
    by (vm_compute; reflexivity).
  refine (@Open_rejects_replay Example.cipher example_receiver example_receiver_after
            example_sealed example_sealed [] [] (bytes_of_string "m1")
            (Some (replicate 4 xff)) (Some (replicate 4 xff)) between
            example_receiver_ok _ _ _ H eq_refl).
  - cbn. lia.
  - cbn. lia.
  - repeat constructor; cbn; lia.
Defined.

(** ** The ticket store *)

Section ticket_store.
Context {C : Cipher}.
Import Ticket.
Local Open Scope Z_scope.

Lemma size_delete_Some (m : gmap bytes Ticket) (id : bytes) (t : Ticket) :
  m !! id = Some t -> Z.of_nat (size (delete id m)) = Z.of_nat (size m) - 1.
Proof.
  intros Ht. rewrite map_size_delete, Ht.
  assert (size m <> 0%nat).
  { intros E. apply map_size_empty_inv in E. rewrite E in Ht.
    by rewrite lookup_empty in Ht. }
  lia.
Qed.

(** X13 (ticket.go, Issue and Lookup): Issue stores the ticket it returns
    under the random ID, valid from [now] for 24 hours; Lookup of that ID
    returns the ticket up to and including the second it expires and
    TicketExpired afterwards, a ticket stored before under the same ID is
    replaced, and the tickets of other IDs are as before. *)
Theorem Issue_Lookup (ts : TicketStore) (peerID sessionKey id : bytes) (now now' : Z) :
  let ticket := {| ID := id; IssuedAt := now; ExpiresAt := now + 86400;
                   PeerID := peerID; SessionKey := sessionKey |} in
  let ts' := fst (Issue ts peerID sessionKey now (Some id)) in
  snd (Issue ts peerID sessionKey now (Some id)) = Ok ticket /\
  Issue ts peerID sessionKey now None = (ts, Err ErrRandRead) /\
  (now' <= now + 86400 -> Lookup ts' id now' = Ok ticket) /\
  (now + 86400 < now' -> Lookup ts' id now' = Err ErrTicketExpired) /\
  (forall id', id' <> id -> Lookup ts' id' now' = Lookup ts id' now') /\
  key ts' = key ts.
Proof.
  cbv zeta. unfold Issue, Lookup, TicketLifetime. cbn [fst snd tickets key].
  change (24 * 3600) with 86400.
  split; [done|]. split; [done|]. rewrite lookup_insert_eq. cbn [ExpiresAt].
  split; [|split; [|split; [|done]]].
  - intros H. destruct (Z.gtb_spec now' (now + 86400)); [lia|done].
  - intros H. destruct (Z.gtb_spec now' (now + 86400)); [done|lia].
  - intros id' Hne. by rewrite lookup_insert_ne.
Qed.

(** X14 (ticket.go, Revoke and Lookup): after Revoke the ID is not found,
    whether or not its ticket had expired; the other IDs are looked up as
    before, and the count of stored tickets goes down by one exactly when
    the ID was stored. *)
Theorem Revoke_Lookup (ts : TicketStore) (id : bytes) (now : Z) :
  Lookup (Revoke ts id) id now = Err ErrTicketNotFound /\
  (forall id', id' <> id -> Lookup (Revoke ts id) id' now = Lookup ts id' now) /\
  Count (Revoke ts id)
    = Count ts - (match tickets ts !! id with Some _ => 1 | None => 0 end).
Proof.
  unfold Revoke, Lookup, Count. cbn [tickets]. split; [|split].
  - by rewrite lookup_delete_eq.
  - intros id' Hne. by rewrite lookup_delete_ne.
  - destruct (tickets ts !! id) as [t|] eqn:Ht.
    + pose proof (size_delete_Some (tickets ts) id t Ht). lia.
    + rewrite delete_id by done. lia.
Qed.

Lemma cleanup_loop_spec (now : Z) (k : bytes) (entries : list (bytes * Ticket)) :
  forall (m : gmap bytes Ticket) (removed : Z),
    NoDup entries.*1 ->
    (forall id t, (id, t) ∈ entries -> m !! id = Some t) ->
    exists m',
      cleanup_loop now entries {| tickets := m; key := k |} removed
      = ({| tickets := m'; key := k |},
         removed + Z.of_nat (length (filter (fun e => expired now e.2 = true) entries))) /\
      (forall id, m' !! id =
                  match m !! id with
                  | Some t => if decide (id ∈ entries.*1 /\ expired now t = true)
                              then None else Some t
                  | None => None
                  end) /\
      Z.of_nat (size m')
      = Z.of_nat (size m)
        - Z.of_nat (length (filter (fun e => expired now e.2 = true) entries)).
Proof.
  induction entries as [|[id t] entries IH]; intros m removed Hnd Hin.
  - exists m. cbn. split; [f_equal; lia|]. split; [|lia].
    intros id. destruct (m !! id); [|done].
    rewrite decide_False; [done|]. intros [H _]. by apply elem_of_nil in H.
  - cbn [fmap list_fmap fst] in Hnd. apply NoDup_cons in Hnd as [Hnotin Hnd].
    assert (Hid : m !! id = Some t) by (apply Hin; left).
    assert (Hrest : forall id' t', (id', t') ∈ entries -> id' <> id).
    { intros id' t' H' ->. apply Hnotin.
      apply list_elem_of_fmap. by exists (id, t'). }
    unfold cleanup_loop. cbn [fold_left]. fold (expired now t).
    rewrite filter_cons. cbn [snd].
    destruct (expired now t) eqn:He.
    + rewrite decide_True by done. cbn [length].
      destruct (IH (delete id m) (removed + 1) Hnd) as (m' & Hrun & Hlook & Hsize).
      { intros id' t' H'. rewrite lookup_delete_ne by (symmetry; by eapply Hrest).
        apply Hin. by right. }
      exists m'. split; [|split].
      * unfold cleanup_loop in Hrun. cbn [tickets key]. rewrite Hrun. f_equal. lia.
      * intros id'. rewrite Hlook. destruct (decide (id' = id)) as [->|Hne].
        -- rewrite lookup_delete_eq, Hid. rewrite decide_True; [done|].
           split; [left|done].
        -- rewrite lookup_delete_ne by done.
           destruct (m !! id') as [t'|]; [|done].
           apply decide_ext. rewrite fmap_cons, elem_of_cons. cbn [fst]. tauto.
      * rewrite Hsize. pose proof (size_delete_Some m id t Hid). lia.
    + rewrite decide_False by done.
      destruct (IH m removed Hnd) as (m' & Hrun & Hlook & Hsize).
      { intros id' t' H'. apply Hin. by right. }
      exists m'. split; [|split; [|done]].
      * unfold cleanup_loop in Hrun. by rewrite Hrun.
      * intros id'. rewrite Hlook.
        destruct (m !! id') as [t'|] eqn:Hl; [|done].
        apply decide_ext. rewrite fmap_cons, elem_of_cons. cbn [fst]. split.
        -- intros [H1 H2]. split; [by right|done].
        -- intros [[H1|H1] H2]; [|done]. subst id'. congruence.
Qed.

(** X15 (ticket.go, Cleanup): in whatever order the range over the map
    visits the tickets, Cleanup removes exactly those that have expired at
    [now] and returns how many they were: the count goes down by that
    number, every ticket that Lookup returned before is still returned,
    and no Lookup at [now] answers TicketExpired afterwards. *)
Theorem Cleanup_removes_expired (ts : TicketStore) (now : Z)
    (entries : list (bytes * Ticket)) :
  entries ≡ₚ map_to_list (tickets ts) ->
  let ts' := fst (cleanup_loop now entries ts 0) in
  let removed := snd (cleanup_loop now entries ts 0) in
  cleanup_loop now entries ts 0 = Cleanup ts now /\
  0 <= removed /\ Count ts' = Count ts - removed /\
  key ts' = key ts /\
  forall id,
    Lookup ts' id now <> Err ErrTicketExpired /\
    (forall t, Lookup ts id now = Ok t -> Lookup ts' id now = Ok t) /\
    (Lookup ts id now = Err ErrTicketExpired -> Lookup ts' id now = Err ErrTicketNotFound).
Proof.
  intros Hperm.
  assert (Hspec : forall l, l ≡ₚ map_to_list (tickets ts) ->
            exists m',
              cleanup_loop now l ts 0
              = ({| tickets := m'; key := key ts |},
                 Z.of_nat (length (filter (fun e => expired now e.2 = true) l))) /\
              (forall id, m' !! id =
                          match tickets ts !! id with
                          | Some t => if expired now t then None else Some t
                          | None => None
                          end) /\
              Z.of_nat (size m')
              = Z.of_nat (size (tickets ts))
                - Z.of_nat (length (filter (fun e => expired now e.2 = true) l))).
  { intros l Hl.
    destruct (cleanup_loop_spec now (key ts) l (tickets ts) 0) as (m' & Hrun & Hlook & Hsize).
    - rewrite Hl. apply NoDup_fst_map_to_list.
    - intros id t H. apply elem_of_map_to_list. by rewrite <- Hl.
    - exists m'. split; [|split; [|done]].
      + destruct ts. exact Hrun.
      + intros id. rewrite Hlook. destruct (tickets ts !! id) as [t|] eqn:Ht; [|done].
        destruct (expired now t) eqn:He.
        * rewrite decide_True; [done|]. split; [|done].
          apply list_elem_of_fmap. exists (id, t). split; [done|].
          rewrite Hl. by apply elem_of_map_to_list.
        * rewrite decide_False; [done|]. by intros [_ ?]. }
  destruct (Hspec entries Hperm) as (m' & Hrun & Hlook & Hsize).
  destruct (Hspec (map_to_list (tickets ts)) (reflexivity _)) as (m0 & Hrun0 & Hlook0 & _).
  cbv zeta. unfold Cleanup. rewrite Hrun, Hrun0. cbn [fst snd].
  split.
  { f_equal.
    - f_equal. apply map_eq. intros id. by rewrite Hlook, Hlook0.
    - f_equal. apply Permutation_length. by rewrite Hperm. }
  split; [lia|]. split; [unfold Count; cbn [tickets]; lia|]. split; [done|].
  intros id. unfold Lookup. cbn [tickets]. rewrite Hlook.
  destruct (tickets ts !! id) as [t|]; [|by repeat split].
  unfold expired. destruct (now >? ExpiresAt t) eqn:He.
  - repeat split; discriminate.
  - rewrite He. repeat split; try discriminate. done.
Qed.

End ticket_store.

(** X15 at a store of two tickets, one of them expired, visited in the
    reverse of the order of the map. *)
Lemma Cleanup_removes_expired_witness :
  let ts := example_tickets in
  let now := 1700090000%Z in
  let entries := rev (map_to_list (Ticket.tickets ts)) in
  let ts' := fst (Ticket.cleanup_loop now entries ts 0) in
  let removed := snd (Ticket.cleanup_loop now entries ts 0) in
  Ticket.cleanup_loop now entries ts 0 = Ticket.Cleanup ts now /\
  (0 <= removed)%Z /\ Ticket.Count ts' = (Ticket.Count ts - removed)%Z /\
  Ticket.key ts' = Ticket.key ts /\
  forall id,
    Ticket.Lookup ts' id now <> Err ErrTicketExpired /\
    (forall t, Ticket.Lookup ts id now = Ok t -> Ticket.Lookup ts' id now = Ok t) /\
    (Ticket.Lookup ts id now = Err ErrTicketExpired ->
     Ticket.Lookup ts' id now = Err ErrTicketNotFound).
Proof.
  intros ts now entries.
  apply (Cleanup_removes_expired ts now entries).
  symmetry. apply Permutation_rev.
Defined.

Section ticket_resumption.
Context {C : Cipher} {CC : CipherCorrect C}.
Import Ticket Props.
Local Open Scope Z_scope.

Lemma DecodeTicket_EncodeTicket (ts : TicketStore) (t : Ticket) (data : bytes)
    (prefix prefix' : bytes) (now : Z) :
  Ticket_ok t -> length (key ts) = 32%nat -> length prefix = 4%nat ->
  EncodeTicket ts t (Some prefix) = Ok data ->
  DecodeTicket ts data now (Some prefix')
  = if now >? ExpiresAt t then Err ErrTicketExpired else Ok t.
Proof.
  intros Hok Hk Hp. pose proof Hok as (Hid & _).
  rewrite EncodeTicket_eq by done. intros [= <-].
  assert (Hn : length (ticket_nonce prefix) = 12%nat).
  { unfold ticket_nonce. rewrite length_app, PutUint64_length. lia. }
  rewrite DecodeTicket_eq;
    [|done|done|done|rewrite cipher_Seal_length, ticket_plain_length by done; lia].
  rewrite cipher_Open_Seal by done.
  rewrite decide_True by (by apply ticket_plain_length).
  cbv zeta. rewrite ticket_plain_decode by done. reflexivity.
Qed.

(** X16 (ticket.go, Issue, EncodeTicket, DecodeTicket, Lookup, Revoke): the
    ticket that Issue returns, encoded by the store, is decoded by the
    store to the same ticket until it expires, and Lookup of its ID finds
    it; DecodeTicket does not consult the stored tickets, so after Revoke,
    when Lookup no longer finds the ID, the encoded ticket still decodes. *)
Theorem issued_ticket_resumes (ts ts' : TicketStore) (t : Ticket)
    (peerID sessionKey id prefix prefix' data : bytes) (now now' : Z) :
  length (key ts) = 32%nat -> length peerID = 32%nat -> length sessionKey = 32%nat ->
  length id = 16%nat -> length prefix = 4%nat ->
  - 2 ^ 63 <= now -> now + 86400 < 2 ^ 63 ->
  Issue ts peerID sessionKey now (Some id) = (ts', Ok t) ->
  EncodeTicket ts' t (Some prefix) = Ok data ->
  now' <= now + 86400 ->
  DecodeTicket ts' data now' (Some prefix') = Ok t /\
  Lookup ts' (ID t) now' = Ok t /\
  Lookup (Revoke ts' (ID t)) (ID t) now' = Err ErrTicketNotFound /\
  DecodeTicket (Revoke ts' (ID t)) data now' (Some prefix') = Ok t.
Proof.
  intros Hk Hp Hs Hid Hpre Hlo Hhi. unfold Issue, TicketLifetime.
  change (24 * 3600) with 86400. intros [= <- <-] Henc Hnow'.
  set (t := {| ID := id; IssuedAt := now; ExpiresAt := now + 86400;
               PeerID := peerID; SessionKey := sessionKey |}) in *.
  set (ts' := {| tickets := <[id := t]> (tickets ts); key := key ts |}) in *.
  assert (Hok : Ticket_ok t) by (repeat split; cbn; lia).
  assert (Hdec : forall store, key store = key ts ->
            DecodeTicket store data now' (Some prefix') = Ok t).
  { intros store Hst.
    assert (Henc' : EncodeTicket store t (Some prefix) = Ok data)
      by (rewrite <- Henc; unfold EncodeTicket; by rewrite Hst).
    rewrite (DecodeTicket_EncodeTicket store t data prefix prefix' now' Hok)
      by (rewrite ?Hst; done).
    subst t. cbn [ExpiresAt]. destruct (Z.gtb_spec now' (now + 86400)); [lia|done]. }
  split; [by apply Hdec|]. split; [|split; [|by apply Hdec]].
  - unfold Lookup. subst ts' t. cbn [tickets ID]. rewrite lookup_insert_eq.
    cbn [ExpiresAt]. destruct (Z.gtb_spec now' (now + 86400)); [lia|done].
  - unfold Lookup, Revoke. cbn [tickets]. by rewrite lookup_delete_eq.
Qed.

End ticket_resumption.

(** X16 at the example store: a ticket issued at 1700000000 and presented
    an hour later. *)
Lemma issued_ticket_resumes_witness :
  let ts' := {| Ticket.tickets := {[ replicate 16 x01 := example_ticket ]};
                Ticket.key := replicate 32 x07 |} in
  Ticket.DecodeTicket (C := Example.cipher) ts' example_ticket_bytes 1700003600
    (Some (replicate 4 x09)) = Ok example_ticket /\
  Ticket.Lookup ts' (Ticket.ID example_ticket) 1700003600 = Ok example_ticket /\
  Ticket.Lookup (Ticket.Revoke ts' (Ticket.ID example_ticket))
    (Ticket.ID example_ticket) 1700003600 = Err ErrTicketNotFound /\
  Ticket.DecodeTicket (C := Example.cipher) (Ticket.Revoke ts' (Ticket.ID example_ticket))
    example_ticket_bytes 1700003600 (Some (replicate 4 x09)) = Ok example_ticket.
Proof.
  intros ts'.
  assert (Hi : Ticket.Issue example_store (replicate 32 x03) (replicate 32 x05)
                 1700000000 (Some (replicate 16 x01)) = (ts', Ok example_ticket))
    by (vm_compute; reflexivity).
  assert (He : Ticket.EncodeTicket (C := Example.cipher) ts' example_ticket
                 (Some (replicate 4 x00)) = Ok example_ticket_bytes)
    by (vm_compute; reflexivity).
  refine (@issued_ticket_resumes Example.cipher example_cipher_correct
            example_store ts' example_ticket (replicate 32 x03) (replicate 32 x05)
            (replicate 16 x01) (replicate 4 x00) (replicate 4 x09) example_ticket_bytes
            1700000000 1700003600 eq_refl eq_refl eq_refl eq_refl eq_refl _ _ Hi He _);
    lia.
Defined.

(** ** Peer ids as text, signing a HELLO *)

Section peer_id_text.

Lemma hex_DecodeString_length (n : nat) :
  forall s b, length s <= n -> hex_DecodeString s = Ok b -> length s = 2 * length b.
Proof.
  induction n as [|n IH]; intros s b Hn.
  - destruct s; [|simpl in Hn; lia]. by intros [= <-].
  - destruct s as [|p [|q rest]].
    + by intros [= <-].
    + cbn [hex_DecodeString]. by destruct (fromHexChar p).
    + cbn [hex_DecodeString].
      destruct (fromHexChar p); [|done]. destruct (fromHexChar q); [|done].
      destruct (hex_DecodeString rest) as [tl|] eqn:Hr; [|done].
      cbn [bind]. intros [= <-]. cbn [length] in *.
      rewrite (IH rest tl); [lia|lia|done].
Qed.

Lemma hex_EncodeToString_length (b : bytes) :
  length (hex_EncodeToString b) = 2 * length b.
Proof.
  unfold hex_EncodeToString. induction b as [|x b IH]; [done|].
  cbn [flat_map length app]. rewrite IH. lia.
Qed.

Lemma string_length_bytes (s : string) :
  String.length s = length (bytes_of_string s).
Proof.
  unfold bytes_of_string, String.list_byte_of_string.
  induction s as [|a s IH]; [done|]. cbn. by rewrite IH.
Qed.

(** X17 (peerid.go, ParsePeerIDHex and String; keypair.go, PeerID): the
    text of a 32-byte peer id is 64 characters that parse back to the id,
    what parses is 64 characters long and gives 32 bytes, and the peer id
    of a key pair is the SHA-256 of its public key, so its text parses to
    that hash. *)
Theorem PeerID_text (id : bytes) (s : string) (kp : Identity.KeyPair) :
  (length id = 32 ->
     Identity.ParsePeerIDHex (Identity.String id) = Ok id /\
     String.length (Identity.String id) = 64) /\
  (Identity.ParsePeerIDHex s = Ok id -> length id = 32 /\ String.length s = 64) /\
  Identity.ParsePeerIDHex (Identity.String (Identity.KeyPair_PeerID kp))
    = Ok (sha256 (Identity.PublicKey kp)).
Proof.
  split; [|split].
  - intros Hlen. split; [by apply ParsePeerIDHex_String|].
    rewrite string_length_bytes. unfold Identity.String, bytes_of_string.
    rewrite String.list_byte_of_string_of_list_byte, hex_EncodeToString_length. lia.
  - unfold Identity.ParsePeerIDHex.
    destruct (hex_DecodeString (bytes_of_string s)) as [b|] eqn:Hb; [|done].
    cbn [bind]. case_decide as Hl; [|done]. intros [= <-]. split; [done|].
    rewrite string_length_bytes.
    rewrite (hex_DecodeString_length _ _ b (le_n _) Hb). lia.
  - apply ParsePeerIDHex_String. apply sha256_length.
Qed.

End peer_id_text.

Section hello_signing.
Context {S : Ed25519} {G : Ed25519Sign}.
Import Hello Props.

(** X18 (hello.go, NewHello, Sign and Verify): the HELLO that NewHello
    makes for a key pair with a 32-byte public key carries the text of the
    SHA-256 of the public key as peer id; Sign succeeds on it and changes
    the signature only, and the signed HELLO verifies, Ed25519 accepting
    what the key pair signs. *)
Theorem NewHello_Sign_Verify (kp : Identity.KeyPair)
    (capabilities : gmap string string) (nonce : bytes) (now : Z) (h : Hello) :
  length (Identity.PublicKey kp) = 32 ->
  (forall msg, ed25519_Verify (Identity.PublicKey kp) msg
                 (ed25519_Sign (Identity.PrivateKey kp) msg) = true) ->
  NewHello kp capabilities (Some nonce) now = Ok h ->
  PeerID h = Identity.String (sha256 (Identity.PublicKey kp)) /\
  Signature h = [] /\
  exists sig,
    Sign h kp = (with_Signature h sig, Ok tt) /\
    SigningBytes h = Ok (sha256 (Identity.PublicKey kp) ++ Identity.PublicKey kp
                         ++ PutUint64 (uint64 now) ++ nonce
                         ++ flat_map (capability_bytes capabilities)
                                     (sorted_keys capabilities)) /\
    Verify (with_Signature h sig) = Ok tt.
Proof.
  intros Hpk Hsig. unfold NewHello. intros [= <-]. cbn [PeerID Signature].
  split; [done|]. split; [done|].
  set (h := {| PeerID := Identity.String (Identity.KeyPair_PeerID kp);
               PublicKey := Identity.PublicKey kp; TimestampSec := now;
               Nonce := nonce; Capabilities := capabilities; Signature := [] |}).
  assert (Hid : Identity.ParsePeerIDHex (PeerID h) = Ok (sha256 (Identity.PublicKey kp))).
  { apply ParsePeerIDHex_String. apply sha256_length. }
  assert (Hsb : SigningBytes h
                = Ok (sha256 (Identity.PublicKey kp) ++ Identity.PublicKey kp
                      ++ PutUint64 (uint64 now) ++ nonce
                      ++ flat_map (capability_bytes capabilities)
                                  (sorted_keys capabilities))).
  { unfold SigningBytes, PublicKeySize. rewrite Hid. cbn [bind].
    subst h. cbn [PublicKey TimestampSec Nonce Capabilities].
    by rewrite decide_True. }
  eexists. split; [|split; [exact Hsb|]].
  - unfold Sign. rewrite Hsb. reflexivity.
  - unfold Verify, PublicKeySize, Identity.PeerIDFromPublicKey.
    change (SigningBytes (with_Signature h _)) with (SigningBytes h).
    cbn [with_Signature PublicKey PeerID Signature]. rewrite Hid, Hsb. cbn [bind].
    subst h. cbn [PublicKey]. rewrite decide_True by done.
    rewrite decide_True by done. unfold Identity.Sign. by rewrite Hsig.
Qed.

(** X19 (hello.go, SigningBytes and Verify): the signed bytes carry the
    nonce without its length and the capabilities after it, so a HELLO and
    the HELLO with no capabilities whose nonce is the first one's nonce
    followed by the bytes of its capabilities are signed by the same
    bytes: Verify gives the same answer on both, and they differ as soon as
    there is a capability. *)
Theorem SigningBytes_nonce_not_delimited (h : Hello) :
  SigningBytes (capabilities_in_nonce h) = SigningBytes h /\
  Verify (capabilities_in_nonce h) = Verify h /\
  (Capabilities h <> ∅ -> capabilities_in_nonce h <> h).
Proof.
  assert (Hsb : SigningBytes (capabilities_in_nonce h) = SigningBytes h).
  { unfold SigningBytes, capabilities_in_nonce.
    cbn [PublicKey PeerID TimestampSec Nonce Capabilities].
    case_decide; [|done]. destruct (Identity.ParsePeerIDHex (PeerID h)); [|done].
    cbn [bind]. unfold sorted_keys at 2. rewrite map_to_list_empty.
    change (merge_sort String.le (map fst [])) with (@nil string).
    cbn [flat_map]. by rewrite app_nil_r. }
  split; [exact Hsb|]. split.
  - unfold Verify. rewrite Hsb. reflexivity.
  - intros Hne E. apply Hne.
    apply (f_equal Capabilities) in E. cbn in E. done.
Qed.

End hello_signing.

(** X18 at the example key pair, with one capability. *)
Lemma NewHello_Sign_Verify_witness :
  Hello.PeerID example_unsigned
    = Identity.String (sha256 (Identity.PublicKey example_keypair)) /\
  Hello.Signature example_unsigned = [] /\
  exists sig,
    Hello.Sign (G := example_signer) example_unsigned example_keypair
      = (Props.with_Signature example_unsigned sig, Ok tt) /\
    Hello.SigningBytes example_unsigned
      = Ok (sha256 (Identity.PublicKey example_keypair)
            ++ Identity.PublicKey example_keypair
            ++ PutUint64 (uint64 1700000000) ++ replicate 32 x02
            ++ flat_map (Hello.capability_bytes {[ "role"%string := "client"%string ]})
                        (Hello.sorted_keys {[ "role"%string := "client"%string ]})) /\
    Hello.Verify (S := Example.signature) (Props.with_Signature example_unsigned sig)
      = Ok tt.
Proof.
  assert (Hlen : length (Identity.PublicKey example_keypair) = 32)
    by (vm_compute; reflexivity).
  assert (Hsig : forall msg,
            ed25519_Verify (Ed25519 := Example.signature)
              (Identity.PublicKey example_keypair) msg
              (ed25519_Sign (Ed25519Sign := example_signer)
                 (Identity.PrivateKey example_keypair) msg) = true).
  { intros msg. apply bool_decide_eq_true.
    change (drop 32 (Identity.PrivateKey example_keypair))
      with (Identity.PublicKey example_keypair). reflexivity. }
  assert (Hnew : Hello.NewHello example_keypair {[ "role"%string := "client"%string ]}
                   (Some (replicate 32 x02)) 1700000000 = Ok example_unsigned)
    by (vm_compute; reflexivity).
  exact (@NewHello_Sign_Verify Example.signature example_signer example_keypair
           {[ "role"%string := "client"%string ]} (replicate 32 x02) 1700000000
           example_unsigned Hlen Hsig Hnew).
Defined.

(** ** Frames of the control stream *)

Section frames.
Import Frame.
Local Open Scope Z_scope.

(** X20 (codec.go, WriteFrame and ReadFrame): a frame of a type other than
    0 with a payload of at most 1 MiB is written as its type, the 4-byte
    length and the payload, and ReadFrame reads the frame back from a
    stream that starts with these bytes, whatever follows them. *)
Theorem ReadFrame_WriteFrame (f : Frame) (w w' rest : bytes) :
  WriteFrame w f = (Ok' tt, w') ->
  Type_ f <> x00 /\
  Z.of_nat (length (Payload f)) <= MaxFramePayload /\
  w' = w ++ [Type_ f] ++ PutUint32 (Z.of_nat (length (Payload f))) ++ Payload f /\
  ReadFrame (drop (length w) w' ++ rest) = Ok' f.
Proof.
  unfold WriteFrame. case_decide as Ht; [done|].
  destruct (Z.gtb_spec (Z.of_nat (length (Payload f))) MaxFramePayload) as [|Hle]; [done|].
  intros E. apply (f_equal snd) in E. cbn [snd] in E. subst w'.
  unfold MaxFramePayload in *.
  assert (Hu : uint32 (Z.of_nat (length (Payload f))) = Z.of_nat (length (Payload f)))
    by (unfold uint32; rewrite Z.mod_small; lia).
  assert (Hp : (if Z.of_nat (length (Payload f)) >? 0 then Payload f else []) = Payload f).
  { destruct (Z.gtb_spec (Z.of_nat (length (Payload f))) 0); [done|].
    destruct (Payload f); [done|simpl in *; lia]. }
  rewrite Hu, Hp. split; [done|]. split; [done|]. split; [done|].
  rewrite drop_app_length. change ([Type_ f] ++ ?x) with (Type_ f :: x).
  cbn [app ReadFrame]. unfold Batch.ReadFull.
  assert (H4 : length (PutUint32 (Z.of_nat (length (Payload f)))) = 4%nat) by done.
  rewrite <- app_assoc.
  rewrite decide_False by lia.
  rewrite decide_False by (rewrite length_app; lia).
  rewrite decide_False by (rewrite length_app; lia).
  rewrite take_app_length', drop_app_length' by done.
  pose proof (Uint32_PutUint32 (Z.of_nat (length (Payload f))) []) as E.
  rewrite app_nil_r in E. rewrite E. rewrite Hu.
  destruct (Z.gtb_spec (Z.of_nat (length (Payload f))) MaxFramePayload);
    [unfold MaxFramePayload in *; lia|].
  rewrite Nat2Z.id.
  destruct (Z.gtb_spec (Z.of_nat (length (Payload f))) 0) as [Hpos|Hzero].
  - rewrite decide_False by lia.
    rewrite decide_False by (rewrite length_app; lia).
    rewrite decide_False by (rewrite length_app; lia).
    rewrite take_app_length. rewrite decide_False by done. by destruct f.
  - rewrite decide_False by done.
    destruct f as [t [|b p]]; [done|simpl in *; lia].
Qed.

(** X21 (codec.go, WriteFrame and ReadFrame): both refuse the type 0 and a
    length above 1 MiB.  WriteFrame then writes nothing.  ReadFrame tests
    the length before it reads the payload and the type after it, so on a
    stream of type 0 it answers InvalidType only when the whole payload is
    there, and a length above 1 MiB is answered with FrameTooLarge
    whatever the type is. *)
Theorem frame_rejections (f : Frame) (w : bytes) (t : byte) (lenBuf rest : bytes) :
  (Type_ f = x00 -> WriteFrame w f = (Err' ErrInvalidType, w)) /\
  (Type_ f <> x00 -> MaxFramePayload < Z.of_nat (length (Payload f)) ->
     WriteFrame w f = (Err' ErrFrameTooLarge, w)) /\
  ReadFrame [] = Err' (Of ErrEOF) /\
  (length lenBuf = 4%nat ->
     (MaxFramePayload < Uint32 lenBuf ->
        ReadFrame (t :: lenBuf ++ rest) = Err' ErrFrameTooLarge) /\
     (Uint32 lenBuf <= MaxFramePayload -> Z.of_nat (length rest) < Uint32 lenBuf ->
        ReadFrame (t :: lenBuf ++ rest)
        = Err' (Of (if decide (length rest = 0%nat) then ErrEOF else ErrUnexpectedEOF))) /\
     (Uint32 lenBuf <= Z.of_nat (length rest) -> Uint32 lenBuf <= MaxFramePayload ->
        ReadFrame (x00 :: lenBuf ++ rest) = Err' ErrInvalidType)).
Proof.
  split; [|split; [|split; [done|]]].
  - intros Ht. unfold WriteFrame. by rewrite decide_True.
  - intros Ht Hl. unfold WriteFrame. rewrite decide_False by done.
    destruct (Z.gtb_spec (Z.of_nat (length (Payload f))) MaxFramePayload); [done|lia].
  - intros H4. pose proof (Uint32_range lenBuf) as Hr.
    assert (Hread : forall t', ReadFrame (t' :: lenBuf ++ rest)
              = if Uint32 lenBuf >? MaxFramePayload then Err' ErrFrameTooLarge
                else match (if Uint32 lenBuf >? 0
                            then Batch.ReadFull rest (Z.to_nat (Uint32 lenBuf))
                            else (Ok [], rest)) with
                     | (Err e, _) => Err' (Of e)
                     | (Ok payload, _) =>
                         if decide (t' = x00) then Err' ErrInvalidType
                         else Ok' {| Type_ := t'; Payload := payload |}
                     end).
    { intros t'. cbn [ReadFrame]. unfold Batch.ReadFull at 1.
      rewrite decide_False by lia.
      rewrite decide_False by (rewrite length_app; lia).
      rewrite decide_False by (rewrite length_app; lia).
      by rewrite take_app_length', drop_app_length' by done. }
    split; [|split].
    + intros Hbig. rewrite Hread.
      destruct (Z.gtb_spec (Uint32 lenBuf) MaxFramePayload); [done|lia].
    + intros Hle Hshort. rewrite Hread.
      destruct (Z.gtb_spec (Uint32 lenBuf) MaxFramePayload); [lia|].
      destruct (Z.gtb_spec (Uint32 lenBuf) 0); [|lia].
      unfold Batch.ReadFull. rewrite decide_False by lia.
      destruct (decide (length rest = 0%nat)); [done|].
      rewrite decide_True by lia. done.
    + intros Hall Hle. rewrite Hread.
      destruct (Z.gtb_spec (Uint32 lenBuf) MaxFramePayload); [lia|].
      destruct (Z.gtb_spec (Uint32 lenBuf) 0).
      * unfold Batch.ReadFull. rewrite decide_False by lia.
        rewrite decide_False by lia. rewrite decide_False by lia.
        by rewrite decide_True.
      * by rewrite decide_True.
Qed.

End frames.

(** X20 at the frame of the repository's round-trip test, type ACK and
    payload "ok", followed by one more byte. *)
Lemma ReadFrame_WriteFrame_witness :
  let f := {| Frame.Type_ := x04; Frame.Payload := bytes_of_string "ok" |} in
  let w' := [x04; x00; x00; x00; x02] ++ bytes_of_string "ok" in
  Frame.Type_ f <> x00 /\
  (Z.of_nat (length (Frame.Payload f)) <= Frame.MaxFramePayload)%Z /\
  w' = [] ++ [Frame.Type_ f] ++ PutUint32 (Z.of_nat (length (Frame.Payload f)))
          ++ Frame.Payload f /\
  Frame.ReadFrame (drop (length (@nil byte)) w' ++ [xff]) = Ok' f.
Proof.
  intros f w'.
  apply (ReadFrame_WriteFrame f [] w' [xff]). reflexivity.
Defined.

(** ** Compressed chunks and the bulk receiver *)

Section bulk.
Context {L : LZ4} {LC : LZ4Correct L}.
Import Chunker Bulk.
Local Open Scope Z_scope.

Lemma DecompressChunk_accepts (cc : Batch.CompressedChunk) (ch : Chunk) :
  DecompressChunk cc = Ok' ch ->
  Index ch = Batch.Index cc /\ Hash ch = sha256 (Data ch) /\
  Batch.OrigHash cc = sha256 (Data ch).
Proof.
  unfold DecompressChunk.
  destruct (if Batch.Compressed cc then Decompress (Batch.Data cc)
            else Ok' (Batch.Data cc)) as [data|]; [|done].
  cbv zeta. destruct (Merkle.bytesEqual _ _) eqn:Hb; [|done].
  apply bytesEqual_spec in Hb. intros [= <-]. cbn [Index Hash Data].
  unfold Merkle.HashChunk in *. by rewrite <- Hb.
Qed.

Lemma DecompressChunk_compressed (ch : Chunk) (level : Z) :
  Hash ch = Merkle.HashChunk (Data ch) ->
  DecompressChunk (CompressChunk ch level) = Ok' ch.
Proof.
  intros Hh.
  assert (Hplain : DecompressChunk
                     {| Batch.Index := Index ch; Batch.Compressed := false;
                        Batch.Data := Data ch; Batch.OrigHash := Hash ch |} = Ok' ch).
  { unfold DecompressChunk. cbn [Batch.Compressed Batch.Data Batch.OrigHash Batch.Index].
    rewrite <- Hh.
    rewrite (proj2 (bytesEqual_spec (Hash ch) (Hash ch)) eq_refl). by destruct ch. }
  unfold CompressChunk, Compress.
  destruct (lz4_Compress level (Data ch)) as [c|] eqn:Hc; [|exact Hplain].
  destruct (length (Data ch) <=? length c)%nat; [exact Hplain|].
  unfold DecompressChunk, Decompress.
  cbn [Batch.Compressed Batch.Data Batch.OrigHash Batch.Index].
  rewrite (lz4_Decompress_Compress level (Data ch) c Hc). rewrite <- Hh.
  rewrite (proj2 (bytesEqual_spec (Hash ch) (Hash ch)) eq_refl). by destruct ch.
Qed.

(** X23 (compress.go, CompressChunk and DecompressChunk): the compressed
    form of a chunk never carries more bytes than the chunk and keeps its
    index and hash, and, the chunk's hash being the SHA-256 of its data,
    DecompressChunk gives the chunk back; whatever DecompressChunk accepts
    comes out with the index it came with and with the SHA-256 of its data
    as hash, equal to the hash it came with. *)
Theorem DecompressChunk_CompressChunk (ch ch' : Chunk) (level : Z)
    (cc : Batch.CompressedChunk) :
  (length (Batch.Data (CompressChunk ch level)) <= length (Data ch))%nat /\
  Batch.Index (CompressChunk ch level) = Index ch /\
  Batch.OrigHash (CompressChunk ch level) = Hash ch /\
  (Hash ch = sha256 (Data ch) -> DecompressChunk (CompressChunk ch level) = Ok' ch) /\
  (DecompressChunk cc = Ok' ch' ->
     Index ch' = Batch.Index cc /\ Hash ch' = sha256 (Data ch') /\
     Batch.OrigHash cc = sha256 (Data ch')).
Proof.
  split; [|split; [|split; [|split]]].
  - unfold CompressChunk, Compress.
    destruct (lz4_Compress level (Data ch)) as [c|]; [|done].
    destruct (Nat.leb_spec (length (Data ch)) (length c)); cbn [Batch.Data]; lia.
  - unfold CompressChunk.
    destruct (Compress (Data ch) level) as [c|]; [|done].
    by destruct (length (Data ch) <=? length c)%nat.
  - unfold CompressChunk.
    destruct (Compress (Data ch) level) as [c|]; [|done].
    by destruct (length (Data ch) <=? length c)%nat.
  - apply DecompressChunk_compressed.
  - apply DecompressChunk_accepts.
Qed.

Lemma receive_loop_all (level : Z) (chs : list Chunk) :
  Forall (fun ch => Hash ch = sha256 (Data ch)) chs ->
  forall br, exists br',
    receive_loop br (compressed level chs) = (br', Ok' tt) /\
    chunks br' = fold_left (fun m ch => <[Index ch := ch]> m) chs (chunks br) /\
    totalChunks br' = totalChunks br /\ Errors br' = Errors br.
Proof.
  induction chs as [|ch chs IH]; intros Hall br.
  - by exists br.
  - apply Forall_cons in Hall as [Hch Hall].
    cbn [compressed map receive_loop]. unfold ReceiveChunk.
    rewrite DecompressChunk_compressed by done.
    destruct (IH Hall {| chunks := <[Index ch := ch]> (chunks br);
                         totalChunks := totalChunks br;
                         ChunksReceived := int64 (ChunksReceived br + 1);
                         Errors := Errors br |}) as (br' & Hrun & Hm & Ht & He).
    exists br'. split; [exact Hrun|]. by split.
Qed.

Lemma fold_insert_by_index (chs : list Chunk) :
  NoDup (map Index chs) ->
  fold_left (fun m ch => <[Index ch := ch]> m) chs (∅ : gmap Z Chunk)
  = list_to_map (by_index chs).
Proof.
  induction chs as [|x chs IH] using rev_ind; intros Hnd; [done|].
  rewrite fold_left_app. cbn [fold_left].
  rewrite map_app in Hnd. apply NoDup_app in Hnd as (Hnd & Hdisj & _).
  rewrite IH by done.
  assert (Hp : by_index (chs ++ [x]) ≡ₚ (Index x, x) :: by_index chs).
  { unfold by_index. rewrite map_app. cbn [map]. by rewrite Permutation_app_comm. }
  assert (Hnd' : NoDup (by_index (chs ++ [x])).*1).
  { unfold by_index. rewrite <- list_fmap_compose.
    rewrite fmap_app. apply NoDup_app. split; [done|]. split.
    - intros a Ha. cbn. intros Hx. apply list_elem_of_singleton in Hx. subst a.
      apply (Hdisj (Index x)); [done|]. cbn. left.
    - cbn. apply NoDup_singleton. }
  rewrite (list_to_map_proper _ _ Hnd' Hp). reflexivity.
Qed.

Lemma sort_chunks_Split (c : Chunker) (data : bytes) (l : list Chunk) :
  0 < chunkSize c < 2 ^ 63 ->
  Z.of_nat (length data) < 2 ^ 62 ->
  l ≡ₚ Split c data -> sort_chunks l = Split c data.
Proof.
  intros Hcs Hlen Hl.
  destruct (Split_spec c data Hcs Hlen) as [Hdata Hidx].
  destruct (sort_chunks_spec l) as [Hsorted Hp].
  apply (StronglySorted_unique_strong index_le); [|done| |].
  - intros x1 x2 Hx1 Hx2 H12 H21.
    apply (indices_determine (Split c data)); [done| |done|].
    + by rewrite <- Hl, <- Hp.
    + unfold index_le in *. lia.
  - by apply (indices_sorted _ 0%nat).
  - by rewrite Hp.
Qed.

Lemma assemble_Split (c : Chunker) (data : bytes) (tree : Merkle.MerkleTree)
    (chunkSlice : list Chunk) :
  0 < chunkSize c < 2 ^ 63 ->
  Z.of_nat (length data) < 2 ^ 62 ->
  Merkle.BuildMerkleTree (map Hash (Split c data)) = Ok tree ->
  chunkSlice ≡ₚ Split c data ->
  assemble chunkSlice (Merkle.root tree) = Ok' data.
Proof.
  intros Hcs Hlen Htree Hperm. unfold assemble.
  rewrite (sort_chunks_Split c data chunkSlice) by done.
  assert (Hre : Reassemble (Split c data) = data).
  { unfold Reassemble. rewrite (sort_chunks_Split c data (Split c data)) by done.
    by apply Split_spec. }
  rewrite Htree, Hre.
  rewrite (proj2 (bytesEqual_spec (Merkle.root tree) (Merkle.root tree)) eq_refl).
  by destruct (0 <? length (Merkle.root tree))%nat.
Qed.

(** X24 (bulk.go, ReceiveBatch, IsComplete and Assemble; compress.go): the
    chunks that Split makes of non-empty data, compressed and received in
    any order by a receiver that expects their number, complete the
    transfer, and Assemble against the Merkle root of their hashes
    returns the data, in whatever order the range over the receiver's map
    yields the chunks. *)
Theorem bulk_transfer_round_trip (c : Chunker) (data : bytes) (level : Z)
    (tree : Merkle.MerkleTree) (arrival : list Chunk) :
  0 < chunkSize c < 2 ^ 63 ->
  Z.of_nat (length data) < 2 ^ 62 ->
  Merkle.BuildMerkleTree (map Hash (Split c data)) = Ok tree ->
  arrival ≡ₚ Split c data ->
  let expected := Z.of_nat (length (Split c data)) in
  exists br,
    ReceiveBatch (SetExpectedChunks NewBulkReceiver expected)
      {| Batch.Chunks := compressed level arrival |} = (br, Ok' tt) /\
    Errors br = 0 /\
    IsComplete br = true /\
    Assemble br (Merkle.root tree) = Ok' data /\
    forall chunkSlice, chunkSlice ≡ₚ (map_to_list (chunks br)).*2 ->
      assemble chunkSlice (Merkle.root tree) = Ok' data.
Proof.
  intros Hcs Hlen Htree Harr expected.
  destruct (Split_spec c data Hcs Hlen) as [Hdata Hidx].
  assert (Hhash : Forall (fun ch => Hash ch = sha256 (Data ch)) (Split c data)).
  { rewrite Split_chunks_of by done. unfold chunks_of.
    apply Forall_forall. intros ch Hch.
    apply list_elem_of_fmap in Hch as (i & -> & _). reflexivity. }
  assert (Hne : Split c data <> []).
  { intros E. rewrite E in Htree. discriminate Htree. }
  destruct (receive_loop_all level arrival) with
    (br := SetExpectedChunks NewBulkReceiver expected)
    as (br & Hrun & Hm & Ht & He).
  { by rewrite Harr. }
  cbn [SetExpectedChunks NewBulkReceiver chunks totalChunks Errors] in Hm, Ht, He.
  assert (Hnd : NoDup (map Index arrival)).
  { rewrite Harr, Hidx. apply (NoDup_fmap_2 _). apply NoDup_seq. }
  rewrite fold_insert_by_index in Hm by done.
  assert (Hnd' : NoDup (by_index arrival).*1).
  { unfold by_index. rewrite <- list_fmap_compose. exact Hnd. }
  assert (Hlist : (map_to_list (chunks br)).*2 ≡ₚ Split c data).
  { assert (Hsnd : (by_index arrival).*2 = arrival).
    { unfold by_index. clear. induction arrival as [|a l IH]; [done|].
      cbn. by rewrite IH. }
    rewrite Hm. rewrite (map_to_list_to_map _ Hnd'). by rewrite Hsnd. }
  exists br. split; [exact Hrun|]. split; [exact He|]. split; [|split].
  - unfold IsComplete. rewrite Ht. subst expected.
    destruct (Z.eqb_spec (Z.of_nat (length (Split c data))) 0) as [E|_].
    { destruct (Split c data); [done|simpl in E; lia]. }
    apply Z.eqb_eq. f_equal.
    rewrite <- (length_map_to_list (chunks br)).
    rewrite <- (length_fmap snd). by rewrite Hlist.
  - unfold Assemble. by apply (assemble_Split c data).
  - intros chunkSlice Hs. apply (assemble_Split c data); try done. by rewrite Hs.
Qed.

End bulk.

Lemma leading_zeros_spec (fuel : nat) (data : bytes) :
  leading_zeros fuel data <= fuel /\
  replicate (leading_zeros fuel data) x00 ++ drop (leading_zeros fuel data) data = data.
Proof.
  revert data. induction fuel as [|fuel IH]; intros data; [done|].
  destruct data as [|b data]; [split; [cbn; lia|done]|].
  destruct (decide (b = x00)) as [->|Hb].
  - cbn [leading_zeros replicate drop app]. destruct (IH data) as [Hle Heq].
    split; [lia|]. by rewrite Heq.
  - assert (E : leading_zeros (S fuel) (b :: data) = 0) by (by destruct b).
    rewrite E. split; [lia|done].
Qed.

(** The example compressor keeps the contract. *)
Lemma example_lz4_correct : LZ4Correct example_lz4.
Proof.
  split. intros level data c E.
  destruct (leading_zeros_spec 255 data) as [Hle Heq].
  change (lz4_Compress level data)
    with (Some (byte_of_Z (Z.of_nat (leading_zeros 255 data))
                :: drop (leading_zeros 255 data) data)) in E.
  remember (leading_zeros 255 data) as z eqn:Ez. clear Ez.
  assert (Ec : c = byte_of_Z (Z.of_nat z) :: drop z data) by congruence.
  subst c. cbn [lz4_Decompress example_lz4].
  rewrite Z_of_byte_of_Z. rewrite Z.mod_small by lia. rewrite Nat2Z.id.
  by rewrite Heq.
Qed.

(** X23 at a chunk of four zero bytes, which the example compressor
    shortens to one byte. *)
Lemma DecompressChunk_CompressChunk_witness :
  let ch := chunk_at 4 example_data 0 in
  (length (Batch.Data (Bulk.CompressChunk (L := example_lz4) ch 0))
     <= length (Chunker.Data ch)) /\
  Batch.Index (Bulk.CompressChunk (L := example_lz4) ch 0) = Chunker.Index ch /\
  Batch.OrigHash (Bulk.CompressChunk (L := example_lz4) ch 0) = Chunker.Hash ch /\
  (Chunker.Hash ch = sha256 (Chunker.Data ch) ->
     Bulk.DecompressChunk (L := example_lz4) (Bulk.CompressChunk (L := example_lz4) ch 0)
     = Ok' ch) /\
  (Bulk.DecompressChunk (L := example_lz4) (Bulk.CompressChunk (L := example_lz4) ch 0)
     = Ok' ch ->
     Chunker.Index ch = Batch.Index (Bulk.CompressChunk (L := example_lz4) ch 0) /\
     Chunker.Hash ch = sha256 (Chunker.Data ch) /\
     Batch.OrigHash (Bulk.CompressChunk (L := example_lz4) ch 0)
       = sha256 (Chunker.Data ch)).
Proof.
  intros ch.
  exact (@DecompressChunk_CompressChunk example_lz4 example_lz4_correct ch ch 0
           (Bulk.CompressChunk (L := example_lz4) ch 0)).
Defined.

(** X24 at thirteen bytes in chunks of four, received in reverse
    order. *)
Lemma bulk_transfer_round_trip_witness :
  let c := Chunker.NewChunker 4 in
  let arrival := rev (Chunker.Split c example_data) in
  let expected := Z.of_nat (length (Chunker.Split c example_data)) in
  exists br,
    Bulk.ReceiveBatch (L := example_lz4)
      (Bulk.SetExpectedChunks Bulk.NewBulkReceiver expected)
      {| Batch.Chunks := compressed (L := example_lz4) 0 arrival |} = (br, Ok' tt) /\
    Bulk.Errors br = 0%Z /\
    Bulk.IsComplete br = true /\
    Bulk.Assemble br (Merkle.root example_data_tree) = Ok' example_data /\
    forall chunkSlice, chunkSlice ≡ₚ (map_to_list (Bulk.chunks br)).*2 ->
      Bulk.assemble chunkSlice (Merkle.root example_data_tree) = Ok' example_data.
Proof.
  intros c arrival.
  assert (H1 : (0 < Chunker.chunkSize c < 2 ^ 63)%Z) by (cbn; lia).
  assert (H2 : (Z.of_nat (length example_data) < 2 ^ 62)%Z) by (cbn; lia).
  assert (H3 : Merkle.BuildMerkleTree (map Chunker.Hash (Chunker.Split c example_data))
               = Ok example_data_tree) by (vm_compute; reflexivity).
  assert (H4 : arrival ≡ₚ Chunker.Split c example_data)
    by (symmetry; apply Permutation_rev).
  exact (@bulk_transfer_round_trip example_lz4 example_lz4_correct c example_data 0
           example_data_tree arrival H1 H2 H3 H4).
Defined.

(** ** The secure channel *)

Section key_derivation.

Lemma hmac_length (key message : bytes) : length (HKDF.hmac key message) = 32.
Proof. apply sha256_length. Qed.

Lemma blocks_length (n : nat) (prk info prev : bytes) (counter : Z) :
  length (HKDF.blocks n prk info prev counter) = 32 * n.
Proof.
  revert prev counter. induction n as [|n IH]; intros prev counter; [done|].
  cbn [HKDF.blocks]. rewrite length_app, hmac_length, IH. lia.
Qed.

Lemma Read_length (secret : bytes) (salt : option bytes) (info : bytes)
    (n : nat) (key : bytes) :
  HKDF.Read secret salt info n = Some key -> length key = n.
Proof.
  unfold HKDF.Read. case_decide; [done|]. intros E. apply (inj Some) in E. subst key.
  rewrite length_take, blocks_length. apply Nat.min_l.
  pose proof (Nat.div_mod_eq (n + 31) 32).
  pose proof (Nat.mod_upper_bound (n + 31) 32). lia.
Qed.

End key_derivation.

Section channel.
Context {C : Cipher} {CC : CipherCorrect C} {X : X25519}.
Import Channel.
Local Open Scope Z_scope.

Lemma DeriveSessionKeys_lengths (shared initiatorPub responderPub : bytes) :
  exists initiatorKey responderKey,
    DeriveSessionKeys shared initiatorPub responderPub
      = Ok' (initiatorKey, responderKey) /\
    length initiatorKey = 32%nat /\ length responderKey = 32%nat.
Proof.
  unfold DeriveSessionKeys, DeriveKey.
  destruct (HKDF.Read _ _ _ 64) as [km|] eqn:Hkm.
  2:{ unfold HKDF.Read in Hkm. rewrite decide_False in Hkm by lia. discriminate. }
  apply Read_length in Hkm. eexists _, _. split; [reflexivity|].
  unfold slice. rewrite !length_take, !length_drop. lia.
Qed.

(** The channel that Complete leaves established, with the keys of the
    two directions. *)
Lemma Complete_established (sc : SecureChannel) (peerEphPub shared : bytes) :
  established sc = false ->
  peerEphPub <> replicate 32 x00 ->
  x25519_X25519 (PrivateKey (localEph sc)) peerEphPub = Some shared ->
  let initiatorPub := if isInitiator sc then PublicKey (localEph sc) else peerEphPub in
  let responderPub := if isInitiator sc then peerEphPub else PublicKey (localEph sc) in
  exists initiatorKey responderKey,
    DeriveSessionKeys shared initiatorPub responderPub
      = Ok' (initiatorKey, responderKey) /\
    length initiatorKey = 32%nat /\ length responderKey = 32%nat /\
    let myKey := if isInitiator sc then initiatorKey else responderKey in
    let theirKey := if isInitiator sc then responderKey else initiatorKey in
    Complete sc peerEphPub
    = ({| established := true; isInitiator := isInitiator sc;
          localEph := localEph sc; remoteEphPub := peerEphPub;
          sendChain := Some {| Ratchet.chainKey := myKey; Ratchet.generation := 0 |};
          recvChain := Some {| Ratchet.chains := ∅; Ratchet.current := theirKey;
                               Ratchet.currentGen := 0; Ratchet.maxSkip := 1000 |} |},
       Ok' tt).
Proof.
  intros Hest Hnz Hdh initiatorPub responderPub.
  destruct (DeriveSessionKeys_lengths shared initiatorPub responderPub)
    as (ik & rk & Hkeys & Hik & Hrk).
  exists ik, rk. split; [exact Hkeys|]. split; [done|]. split; [done|].
  cbv zeta. unfold Complete. rewrite Hest. cbn [localEph isInitiator].
  unfold ECDH. rewrite decide_False by done. rewrite Hdh.
  fold initiatorPub responderPub. rewrite Hkeys.
  unfold Ratchet.NewChain, Ratchet.NewReceiver, with_chains.
  cbn [isInitiator localEph remoteEphPub].
  destruct (isInitiator sc); rewrite !decide_True by done; reflexivity.
Qed.

Lemma DecodeEncryptedMessage_Encode_eq (m : Ratchet.EncryptedMessage) :
  0 <= Ratchet.Generation m < 2 ^ 64 ->
  Ratchet.DecodeEncryptedMessage (Ratchet.Encode m) = Ok' m.
Proof.
  intros Hg. unfold Ratchet.DecodeEncryptedMessage, Ratchet.Encode.
  rewrite length_app, PutUint64_length. rewrite decide_False by lia.
  rewrite slice_app_l by done.
  pose proof (Uint64_PutUint64 (Ratchet.Generation m) []) as E. rewrite app_nil_r in E.
  rewrite E. unfold uint64. rewrite Z.mod_small by lia.
  rewrite drop_app_length' by done. by destruct m.
Qed.

(** One message from a sender whose chain starts at [key] to a receiver
    that starts at [key]. *)
Lemma first_message (key pt ad prefix prefix' : bytes) (tx rx : SecureChannel) :
  length key = 32%nat -> length prefix = 4%nat ->
  established tx = true -> established rx = true ->
  sendChain tx = Some {| Ratchet.chainKey := key; Ratchet.generation := 0 |} ->
  recvChain rx = Some {| Ratchet.chains := ∅; Ratchet.current := key;
                         Ratchet.currentGen := 0; Ratchet.maxSkip := 1000 |} ->
  exists tx' rx' wire,
    Encrypt tx pt ad (Some prefix) = (tx', Ok' wire) /\
    Decrypt rx wire ad (Some prefix') = (rx', Ok' pt) /\
    SendGeneration tx' = 1.
Proof.
  intros Hk Hp Htx Hrx Hsend Hrecv.
  pose proof (Seal_eq key 0 pt ad prefix) as Hseal.
  change (Props.advance 0 key) with key in Hseal.
  specialize (Hseal ltac:(unfold Ratchet.MaxGeneration; lia)).
  unfold Encrypt. rewrite Htx, Hsend. cbn [negb]. change (Z.of_nat 0) with 0 in Hseal.
  rewrite Hseal. do 3 eexists. split; [reflexivity|]. split; [|reflexivity].
  unfold Decrypt. rewrite Hrx. cbn [negb].
  rewrite DecodeEncryptedMessage_Encode_eq by (cbn; lia). rewrite Hrecv.
  unfold Ratchet.Open. cbn [Ratchet.Generation sealed_message Ratchet.currentGen].
  change (Z.of_nat 0 =? 0) with true. cbn [Ratchet.current Ratchet.Ciphertext].
  unfold Ratchet.deriveKeysStatic.
  rewrite NewAEAD_message_key.
  change (sha256 (key ++ [x01])) with (message_key key 0).
  change (Ratchet.Ciphertext (sealed_message key 0 pt ad prefix))
    with (seal_nonce prefix ++ cipher_Seal (message_key key 0) (seal_nonce prefix) pt ad).
  rewrite (AEAD_Open_sealed (message_key key 0) prefix prefix' pt ad);
    [reflexivity|apply message_key_length|done].
Qed.

(** X25 (channel.go, Complete, Encrypt and Decrypt; kdf.go, DeriveSessionKeys
    and ECDH): an initiator and a responder that complete the key
    exchange with each other's ephemeral public key, X25519 giving both
    the same shared secret, are both established, and what either of them
    encrypts the other decrypts to the plaintext under the same associated
    data: each side sends with the key the other side receives with. *)
Theorem channel_round_trip (rnd_i rnd_r shared : bytes) (sc_i sc_r : SecureChannel)
    (plaintext ad prefix prefix' : bytes) :
  NewSecureChannelInitiator (Some rnd_i) = Ok' sc_i ->
  NewSecureChannelResponder (Some rnd_r) = Ok' sc_r ->
  LocalEphemeralPublic sc_i <> replicate 32 x00 ->
  LocalEphemeralPublic sc_r <> replicate 32 x00 ->
  x25519_X25519 (PrivateKey (localEph sc_i)) (LocalEphemeralPublic sc_r) = Some shared ->
  x25519_X25519 (PrivateKey (localEph sc_r)) (LocalEphemeralPublic sc_i) = Some shared ->
  length prefix = 4%nat ->
  exists i r,
    Complete sc_i (LocalEphemeralPublic sc_r) = (i, Ok' tt) /\
    Complete sc_r (LocalEphemeralPublic sc_i) = (r, Ok' tt) /\
    IsEstablished i = true /\ IsEstablished r = true /\
    (exists i' r' wire,
       Encrypt i plaintext ad (Some prefix) = (i', Ok' wire) /\
       Decrypt r wire ad (Some prefix') = (r', Ok' plaintext) /\
       SendGeneration i' = 1) /\
    (exists r' i' wire,
       Encrypt r plaintext ad (Some prefix) = (r', Ok' wire) /\
       Decrypt i wire ad (Some prefix') = (i', Ok' plaintext) /\
       SendGeneration r' = 1).
Proof.
  intros Hi Hr Hnzi Hnzr Hdhi Hdhr Hp.
  assert (Hsi : established sc_i = false /\ isInitiator sc_i = true).
  { revert Hi. unfold NewSecureChannelInitiator, NewSecureChannel.
    destruct (GenerateX25519 (Some rnd_i)); [|done].
    intros E. assert (E' : sc_i = _) by (symmetry; exact (f_equal
      (fun r => match r with Ok' x => x | Err' _ => sc_i end) E)).
    by rewrite E'. }
  assert (Hsr : established sc_r = false /\ isInitiator sc_r = false).
  { revert Hr. unfold NewSecureChannelResponder, NewSecureChannel.
    destruct (GenerateX25519 (Some rnd_r)); [|done].
    intros E. assert (E' : sc_r = _) by (symmetry; exact (f_equal
      (fun r => match r with Ok' x => x | Err' _ => sc_r end) E)).
    by rewrite E'. }
  destruct Hsi as [Hei Hii]. destruct Hsr as [Her Hir].
  unfold LocalEphemeralPublic in *.
  destruct (Complete_established sc_i (PublicKey (localEph sc_r)) shared Hei Hnzr Hdhi)
    as (ik & rk & Hkeys & Hik & Hrk & Hci).
  destruct (Complete_established sc_r (PublicKey (localEph sc_i)) shared Her Hnzi Hdhr)
    as (ik' & rk' & Hkeys' & _ & _ & Hcr).
  rewrite Hii in Hkeys, Hci. rewrite Hir in Hkeys', Hcr.
  assert (ik' = ik /\ rk' = rk) as [-> ->].
  { rewrite Hkeys in Hkeys'. split; congruence. }
  cbv zeta in Hci, Hcr.
  eexists _, _. split; [exact Hci|]. split; [exact Hcr|].
  split; [done|]. split; [done|]. split.
  - by apply (first_message ik).
  - by apply (first_message rk).
Qed.




(** X27 (channel.go, Encrypt, Decrypt, SendGeneration and Complete): a new
    channel refuses to encrypt and to decrypt with ChannelNotEstablished
    and stays as it is, and its send generation is 0; Complete with the
    all-zero key fails with InvalidPublicKey and leaves it not established;
    once a Complete has succeeded the channel is established, and every
    further Complete, with whatever key, succeeds and changes nothing. *)
Theorem channel_guards (initiator : bool) (rnd : option bytes) (sc sc1 : SecureChannel)
    (data ad peer other : bytes) (rnd' : option bytes) :
  NewSecureChannel initiator rnd = Ok' sc ->
  Encrypt sc data ad rnd' = (sc, Err' ErrChannelNotEstablished) /\
  Decrypt sc data ad rnd' = (sc, Err' ErrChannelNotEstablished) /\
  SendGeneration sc = 0 /\
  snd (Complete sc (replicate 32 x00)) = Err' ErrInvalidPublicKey /\
  IsEstablished (fst (Complete sc (replicate 32 x00))) = false /\
  (Complete sc peer = (sc1, Ok' tt) ->
     IsEstablished sc1 = true /\ remoteEphPub sc1 = peer /\
     Complete sc1 other = (sc1, Ok' tt)).
Proof.
  unfold NewSecureChannel. destruct (GenerateX25519 rnd) as [eph|]; [|done].
  intros E.
  assert (E' : sc = {| established := false; isInitiator := initiator; localEph := eph;
                       remoteEphPub := replicate 32 x00; sendChain := None;
                       recvChain := None |})
    by (symmetry; exact (f_equal (fun r => match r with Ok' x => x | Err' _ => sc end) E)).
  clear E. subst sc. split; [done|]. split; [done|]. split; [done|].
  split; [|split].
  - unfold Complete, ECDH. cbn [established localEph]. by rewrite decide_True.
  - unfold Complete, ECDH. cbn [established localEph]. by rewrite decide_True.
  - unfold Complete at 1. cbn [established localEph isInitiator remoteEphPub].
    destruct (ECDH (PrivateKey eph) peer) as [shared|]; [|done].
    destruct (DeriveSessionKeys shared _ _) as [[sendKey recvKey]|]; [|done].
    destruct (Ratchet.NewChain _) as [chain|]; [|done].
    destruct (Ratchet.NewReceiver _ 1000) as [receiver|]; [|done].
    intros E. apply (f_equal fst) in E. cbn [fst] in E. subst sc1.
    by split.
Qed.

End channel.

(** X25 at the example channels, whose random bytes are 32 times 0x11 and 32
    times 0x22. *)
Lemma channel_round_trip_witness :
  let plaintext := bytes_of_string "ping" in
  exists i r,
    Channel.Complete (X := example_x25519) example_initiator
      (Channel.LocalEphemeralPublic example_responder) = (i, Ok' tt) /\
    Channel.Complete (X := example_x25519) example_responder
      (Channel.LocalEphemeralPublic example_initiator) = (r, Ok' tt) /\
    Channel.IsEstablished i = true /\ Channel.IsEstablished r = true /\
    (exists i' r' wire,
       Channel.Encrypt (C := Example.cipher) i plaintext [] (Some (replicate 4 x01))
         = (i', Ok' wire) /\
       Channel.Decrypt (C := Example.cipher) r wire [] (Some (replicate 4 x02))
         = (r', Ok' plaintext) /\
       Channel.SendGeneration i' = 1%Z) /\
    (exists r' i' wire,
       Channel.Encrypt (C := Example.cipher) r plaintext [] (Some (replicate 4 x01))
         = (r', Ok' wire) /\
       Channel.Decrypt (C := Example.cipher) i wire [] (Some (replicate 4 x02))
         = (i', Ok' plaintext) /\
       Channel.SendGeneration r' = 1%Z).
Proof.
  intros plaintext.
  assert (Hi : Channel.NewSecureChannelInitiator (X := example_x25519)
                 (Some (replicate 32 x11)) = Ok' example_initiator)
    by (vm_compute; reflexivity).
  assert (Hr : Channel.NewSecureChannelResponder (X := example_x25519)
                 (Some (replicate 32 x22)) = Ok' example_responder)
    by (vm_compute; reflexivity).
  assert (Hnzi : Channel.LocalEphemeralPublic example_initiator <> replicate 32 x00)
    by (vm_compute; congruence).
  assert (Hnzr : Channel.LocalEphemeralPublic example_responder <> replicate 32 x00)
    by (vm_compute; congruence).
  assert (Hdhi : x25519_X25519 (X25519 := example_x25519)
                   (Channel.PrivateKey (Channel.localEph example_initiator))
                   (Channel.LocalEphemeralPublic example_responder)
                 = Some (x30 :: replicate 31 x33))
    by (vm_compute; reflexivity).
  assert (Hdhr : x25519_X25519 (X25519 := example_x25519)
                   (Channel.PrivateKey (Channel.localEph example_responder))
                   (Channel.LocalEphemeralPublic example_initiator)
                 = Some (x30 :: replicate 31 x33))
    by (vm_compute; reflexivity).
  exact (@channel_round_trip Example.cipher example_cipher_correct example_x25519
           (replicate 32 x11) (replicate 32 x22) (x30 :: replicate 31 x33)
           example_initiator example_responder plaintext [] (replicate 4 x01)
           (replicate 4 x02) Hi Hr Hnzi Hnzr Hdhi Hdhr eq_refl).
Defined.


(** X27 at the example initiator. *)
Lemma channel_guards_witness :
  Channel.Encrypt (C := Example.cipher) example_initiator (bytes_of_string "ping") []
    (Some (replicate 4 x01)) = (example_initiator, Err' ErrChannelNotEstablished) /\
  Channel.Decrypt (C := Example.cipher) example_initiator (bytes_of_string "ping") []
    (Some (replicate 4 x01)) = (example_initiator, Err' ErrChannelNotEstablished) /\
  Channel.SendGeneration example_initiator = 0%Z.
Proof.
  assert (Hi : Channel.NewSecureChannel (X := example_x25519) true
                 (Some (replicate 32 x11)) = Ok' example_initiator)
    by (vm_compute; reflexivity).
  pose proof (@channel_guards Example.cipher example_x25519 true (Some (replicate 32 x11))
                example_initiator example_initiator (bytes_of_string "ping") [] [] []
                (Some (replicate 4 x01)) Hi) as (H1 & H2 & H3 & _).
  split; [exact H1|]. split; [exact H2|exact H3].
Defined.

(** ** Shards of the erasure codec *)

Section erasure.
Import Erasure.
Local Open Scope Z_scope.

(** X28 (erasure/codec.go, ShardSize): for a codec with data shards and a
    size that is not negative, ShardSize is the quotient rounded up, the
    least shard size with which the data shards hold the data, and
    EncodedSize is that size times the number of all shards when the
    number and the product fit 64 bits; with no data shard the division panics. *)
Theorem ShardSize_ceiling (c : Codec) (dataSize : Z) :
  (dataShards c = 0 ->
     ShardSize c dataSize = Err' PanicDivideByZero /\
     EncodedSize c dataSize = Err' PanicDivideByZero) /\
  (0 < dataShards c -> 0 <= dataSize < 2 ^ 63 ->
     exists s, ShardSize c dataSize = Ok' s /\
       dataSize <= s * dataShards c < dataSize + dataShards c /\
       (0 <= parityShards c ->
        dataShards c + parityShards c < 2 ^ 63 ->
        s * (dataShards c + parityShards c) < 2 ^ 63 ->
        EncodedSize c dataSize = Ok' (s * (dataShards c + parityShards c)))).
Proof.
  unfold EncodedSize, TotalShards, ShardSize. split.
  - intros ->. split; reflexivity.
  - intros Hd Hs. destruct (Z.eqb_spec (dataShards c) 0); [lia|].
    rewrite Z.quot_div_nonneg, Z.rem_mod_nonneg by lia.
    pose proof (Z.div_mod dataSize (dataShards c) ltac:(lia)) as Hdm.
    pose proof (Z.mod_pos_bound dataSize (dataShards c) Hd) as Hm.
    assert (0 <= dataSize / dataShards c) as Hq by (apply Z.div_pos; lia).
    assert (dataSize / dataShards c <= dataSize) as Hq' by nia.
    rewrite (int64_small (dataSize / dataShards c)) by lia.
    destruct (Z.eqb_spec (dataSize mod dataShards c) 0) as [E|E]; cbn [negb].
    + eexists. split; [reflexivity|]. split; [nia|].
      intros Hp Hsum Hfit.
      rewrite (int64_small (_ + _)) by lia.
      rewrite int64_small by nia. reflexivity.
    + assert (dataSize / dataShards c + 1 < 2 ^ 63) by nia.
      rewrite (int64_small (_ + 1)) by lia.
      eexists. split; [reflexivity|]. split; [nia|].
      intros Hp Hsum Hfit.
      rewrite (int64_small (_ + _)) by lia.
      rewrite int64_small by nia. reflexivity.
Qed.

Lemma join_loop_spec (c : Codec) (outSize : Z) :
  forall (rest : list bytes) (i : Z) (data : bytes),
    0 <= i -> Z.of_nat (length data) <= outSize ->
    join_loop c outSize i rest data
    = if decide ((length rest < Z.to_nat (dataShards c - i))%nat /\
                 Z.of_nat (length (data ++ concat rest)) < outSize)
      then Err' (Of PanicIndexOutOfRange)
      else Ok' (take (Z.to_nat outSize)
                  (data ++ concat (take (Z.to_nat (dataShards c - i)) rest))).
Proof.
  induction rest as [|shard rest IH]; intros i data Hi Hlen.
  - cbn [join_loop concat]. rewrite app_nil_r, take_nil, app_nil_r.
    destruct (Z.ltb_spec i (dataShards c)) as [Hlt|Hge];
      destruct (Z.ltb_spec (Z.of_nat (length data)) outSize) as [Hl|Hl]; cbn [andb].
    + rewrite decide_True; [done|]. cbn [length]. lia.
    + rewrite decide_False by lia. by rewrite take_ge by lia.
    + rewrite decide_False by (cbn [length]; lia). by rewrite take_ge by lia.
    + rewrite decide_False by lia. by rewrite take_ge by lia.
  - cbn [join_loop]. 
    destruct (Z.ltb_spec i (dataShards c)) as [Hlt|Hge];
      destruct (Z.ltb_spec (Z.of_nat (length data)) outSize) as [Hl|Hl]; cbn [andb].
    + replace (Z.to_nat (dataShards c - i)) with (S (Z.to_nat (dataShards c - (i + 1))))
        by lia.
      cbn [take concat length].
      destruct (Z.geb_spec (outSize - Z.of_nat (length data)) (Z.of_nat (length shard)))
        as [Hfit|Hcut].
      * rewrite IH by (rewrite ?length_app; lia).
        rewrite <- !app_assoc. apply decide_ext. lia.
      * rewrite IH by (rewrite ?length_app, ?length_take; lia).
        rewrite decide_False by (rewrite !length_app, length_take; lia).
        rewrite decide_False by (rewrite !length_app; lia).
        f_equal. rewrite (take_app_le (data ++ take _ shard))
          by (rewrite length_app, length_take; lia).
        rewrite (take_ge (data ++ take _ shard))
          by (rewrite length_app, length_take; lia).
        rewrite take_app_ge by lia. f_equal.
        rewrite take_app_le by lia. f_equal. lia.
    + rewrite decide_False by (rewrite length_app; lia).
      rewrite take_app_le by lia. by rewrite take_ge by lia.
    + rewrite decide_False by lia.
      replace (Z.to_nat (dataShards c - i)) with 0%nat by lia.
      cbn [take concat]. rewrite app_nil_r. by rewrite take_ge by lia.
    + rewrite decide_False by lia.
      rewrite take_app_le by lia. by rewrite take_ge by lia.
Qed.

(** X29 (erasure/codec.go, Join): Join returns the first [outSize] bytes of
    the first [dataShards] shards put end to end, all of them when they
    are fewer, so it gives back data that was laid out over the data shards
    and padded; it panics with an index out of range exactly when fewer
    shards than [dataShards] are passed and they hold fewer than [outSize]
    bytes, and on a negative [outSize]. *)
Theorem Join_spec (c : Codec) (shards : list bytes) (outSize : Z) (data pad : bytes) :
  (outSize < 0 -> Join c shards outSize = Err' PanicMakeSliceCap) /\
  (0 <= outSize ->
     Join c shards outSize
     = if decide ((length shards < Z.to_nat (dataShards c))%nat /\
                  Z.of_nat (length (concat shards)) < outSize)
       then Err' (Of PanicIndexOutOfRange)
       else Ok' (take (Z.to_nat outSize)
                   (concat (take (Z.to_nat (dataShards c)) shards)))) /\
  (concat (take (Z.to_nat (dataShards c)) shards) = data ++ pad ->
   (Z.to_nat (dataShards c) <= length shards)%nat ->
   Join c shards (Z.of_nat (length data)) = Ok' data).
Proof.
  assert (Hpos : 0 <= outSize ->
     Join c shards outSize
     = if decide ((length shards < Z.to_nat (dataShards c))%nat /\
                  Z.of_nat (length (concat shards)) < outSize)
       then Err' (Of PanicIndexOutOfRange)
       else Ok' (take (Z.to_nat outSize)
                   (concat (take (Z.to_nat (dataShards c)) shards)))).
  { intros H. unfold Join. destruct (Z.ltb_spec outSize 0); [lia|].
    rewrite join_loop_spec by (cbn [length]; lia).
    rewrite Z.sub_0_r. reflexivity. }
  split; [|split; [exact Hpos|]].
  - intros H. unfold Join. destruct (Z.ltb_spec outSize 0); [done|lia].
  - intros Hcat Hall. unfold Join.
    destruct (Z.ltb_spec (Z.of_nat (length data)) 0); [lia|].
    rewrite join_loop_spec by (cbn [length]; lia).
    rewrite decide_False by lia. rewrite Z.sub_0_r. cbn [app].
    rewrite Hcat, Nat2Z.id. by rewrite take_app_length.
Qed.

End erasure.

(** X29 at three shards of four bytes, two of them data shards. *)
Lemma Join_spec_witness :
  Erasure.Join {| Erasure.dataShards := 2; Erasure.parityShards := 1 |}
    [bytes_of_string "abcd"; bytes_of_string "ef" ++ [x00; x00]; replicate 4 xff]
    (Z.of_nat (length (bytes_of_string "abcdef")))
  = Ok' (bytes_of_string "abcdef").
Proof.
  refine (proj2 (proj2 (Join_spec {| Erasure.dataShards := 2; Erasure.parityShards := 1 |}
            [bytes_of_string "abcd"; bytes_of_string "ef" ++ [x00; x00]; replicate 4 xff]
            6 (bytes_of_string "abcdef") [x00; x00])) eq_refl _).
  cbn. lia.
Defined.
